(** * A pinned-page LRU buffer pool: model and verified properties

    Shallow embedding of [src/page.cpp] (class [Page]) and of the LRU pool
    ([LRUBufferPool], declared in [lru_buffer_pool.h]), followed by the
    pool without a cache ([SimpleBufferPool]), the request loop of the
    server's worker threads (server.cpp) and the configuration that [main]
    builds (example.cpp).

    - Sizes, offsets, lengths and page numbers are natural numbers.  The
      byte offset [no * page_size] is computed exactly: [off_t] is 64 bits
      wide, page numbers and request sizes are 32 bits wide.
    - A page buffer ([std::unique_ptr<byte[]>]) is a [list byte].
    - Objects owned through [std::shared_ptr<Page>] live in a store indexed
      by locations; a handle is a location, [nullptr] is [None].
    - The backing file is a byte list together with a script of the faults
      the kernel raises at the next positional calls.
    - Pool member functions are state transformers that may throw or run
      into undefined behaviour (dereference of a null handle). *)

From Equations Require Import Equations.
From stdpp Require Import base numbers list option strings gmap fin_maps sorting pretty.
From Stdlib Require Import Strings.Byte.

Set Default Proof Using "Type".
Local Open Scope nat_scope.

(** ** The backing file and positional I/O *)

Abbreviation byte := Byte.byte.
Abbreviation zero_byte := Byte.x00.

#[global] Instance byte_eq_dec : EqDecision byte := Byte.byte_eq_dec.

(** What the kernel does with the next [pread]/[pwrite]. *)
Inductive io_event : Type :=
| IoPartial (n : nat)   (* transfers at most [n + 1] bytes *)
| IoInterrupted         (* returns -1 with errno = EINTR *)
| IoFailed.             (* returns -1 with another errno *)

#[global] Instance io_event_eq_dec : EqDecision io_event.
Proof. solve_decision. Defined.

Record File : Type := mkFile {
  content : list byte;
  script : list io_event   (* faults still to come; empty: none *)
}.

Inductive errno : Type := EINTR | EIO.

(** No call on the file is going to fail for good; interruptions and
    short transfers may still come. *)
Definition no_failure (f : File) : Prop := IoFailed ∉ script f.

#[global] Instance no_failure_dec (f : File) : Decision (no_failure f).
Proof. unfold no_failure. apply _. Defined.

(** The [ssize_t] result of a positional call. *)
Inductive sys_result (A : Type) : Type :=
| SysRet (a : A)
| SysErr (e : errno).
Arguments SysRet {A} a.
Arguments SysErr {A} e.

(** The bytes of [c] from offset [off], at most [count] of them: what a
    read that is not cut short returns (fewer than [count] at end of file). *)
Definition bytes_from (c : list byte) (off count : nat) : list byte :=
  take count (drop off c).

(** The [size] bytes of [c] from offset [off], with zeros past the end of
    the file. *)
Definition file_page (c : list byte) (off size : nat) : list byte :=
  bytes_from c off size
    ++ replicate (size - length (bytes_from c off size)) zero_byte.

(** [c] with [bs] stored at offset [off]; a gap between the end of the file
    and [off] reads as zeros.  Writing no byte does not extend the file. *)
Definition store_at (c : list byte) (off : nat) (bs : list byte) : list byte :=
  match bs with
  | [] => c
  | _ => take off c ++ replicate (off - length c) zero_byte ++ bs
           ++ drop (off + length bs) c
  end.

Definition pread (f : File) (count off : nat) : sys_result (list byte) * File :=
  match script f with
  | [] => (SysRet (bytes_from (content f) off count), f)
  | ev :: rest =>
      let f' := mkFile (content f) rest in
      match ev with
      | IoPartial n => (SysRet (bytes_from (content f) off (count `min` S n)), f')
      | IoInterrupted => (SysErr EINTR, f')
      | IoFailed => (SysErr EIO, f')
      end
  end.

Definition pwrite (f : File) (src : list byte) (count off : nat) : sys_result nat * File :=
  match script f with
  | [] => (SysRet count, mkFile (store_at (content f) off (take count src)) [])
  | ev :: rest =>
      match ev with
      | IoPartial n =>
          (SysRet (count `min` S n),
           mkFile (store_at (content f) off (take (count `min` S n) src)) rest)
      | IoInterrupted => (SysErr EINTR, mkFile (content f) rest)
      | IoFailed => (SysErr EIO, mkFile (content f) rest)
      end
  end.

(** ** Page (page.h, page.cpp) *)

Record Page : Type := mkPage {
  page_id_ : nat;
  page_size_ : nat;
  data_ : list byte;
  pin_count_ : Z;          (* std::atomic<int> *)
  dirty_ : bool;
  loaded_ : bool;
  lsn_ : N
}.

Definition int_min : Z := (- 2 ^ 31)%Z.
Definition int_max : Z := (2 ^ 31 - 1)%Z.

(** Two's-complement wrap of [std::atomic<int>] arithmetic. *)
Definition wrap_int (z : Z) : Z := ((z + 2 ^ 31) `mod` 2 ^ 32 - 2 ^ 31)%Z.

Definition set_pin_count (p : Page) (c : Z) : Page :=
  mkPage (page_id_ p) (page_size_ p) (data_ p) c (dirty_ p) (loaded_ p) (lsn_ p).

Definition set_data (p : Page) (d : list byte) : Page :=
  mkPage (page_id_ p) (page_size_ p) d (pin_count_ p) (dirty_ p) (loaded_ p) (lsn_ p).

Definition set_dirty (p : Page) (b : bool) : Page :=
  mkPage (page_id_ p) (page_size_ p) (data_ p) (pin_count_ p) b (loaded_ p) (lsn_ p).

Definition set_loaded (p : Page) (b : bool) : Page :=
  mkPage (page_id_ p) (page_size_ p) (data_ p) (pin_count_ p) (dirty_ p) b (lsn_ p).

(** [Page::Page]: zeroed buffer, not pinned, clean, not loaded. *)
Definition Page_new (id page_size : nat) : Page :=
  mkPage id page_size (replicate page_size zero_byte) 0 false false 0.

(** [Page::pin]. *)
Definition pin (p : Page) : Page :=
  set_pin_count p (wrap_int (pin_count_ p + 1)).

(** [Page::unpin]: returns the value and the page. *)
Definition unpin (p : Page) : Z * Page :=
  let prev := pin_count_ p in
  let p1 := set_pin_count p (wrap_int (prev - 1)) in
  if (prev <=? 0)%Z then (0%Z, set_pin_count p1 0) else ((prev - 1)%Z, p1).

(** [memcpy(dst + at, src, length src)]. *)
Definition memcpy_into (dst : list byte) (at_ : nat) (src : list byte) : list byte :=
  take at_ dst ++ src ++ drop (at_ + length src) dst.

(** [memset(dst + at, 0, n)]. *)
Definition memset_zero (dst : list byte) (at_ n : nat) : list byte :=
  take at_ dst ++ replicate n zero_byte ++ drop (at_ + n) dst.

(** Outcome of a call that may throw. *)
Inductive result (A : Type) : Type :=
| Ok (a : A)
| Throw (what : string)
| Undefined.              (* dereference of a null handle *)
Arguments Ok {A} a.
Arguments Throw {A} what.
Arguments Undefined {A}.

(** [Page::ReadAt]: the byte count and the caller's buffer afterwards. *)
Definition ReadAt (p : Page) (offset : nat) (out : option (list byte)) (len : nat)
  : result (nat * list byte) :=
  match out with
  | None => Throw "out pointer is null"
  | Some out =>
      if decide (page_size_ p <= offset) then Ok (0, out)
      else if negb (loaded_ p) then Ok (0, out)
      else
        let to_read := len `min` (page_size_ p - offset) in
        Ok (to_read, memcpy_into out 0 (take to_read (drop offset (data_ p))))
  end.

(** [Page::WriteAt]: the byte count and the page afterwards. *)
Definition WriteAt (p : Page) (offset : nat) (buf : option (list byte)) (len : nat)
  : result (nat * Page) :=
  match buf with
  | None => Throw "buf pointer is null"
  | Some buf =>
      if decide (page_size_ p <= offset) then Ok (0, p)
      else
        let p1 := set_loaded p true in
        let to_write := len `min` (page_size_ p - offset) in
        let p2 := set_data p1 (memcpy_into (data_ p1) offset (take to_write buf)) in
        Ok (to_write, set_dirty p2 true)
  end.

(** Keeps the equation of a matched call for the termination proofs. *)
Definition inspect {A : Type} (a : A) : {b : A | a = b} := exist _ a eq_refl.

(** The read loop of [Page::load_from_fd]: whether the buffer was filled,
    the buffer and the file afterwards. *)
Equations? load_loop (f : File) (file_offset size : nat) (data : list byte) (total : nat)
  : bool * list byte * File by wf (length (script f) + (size - total)) lt :=
  load_loop f file_offset size data total with decide (total < size) := {
    | right _ := (true, data, f)
    | left _ with inspect (pread f (size - total) (file_offset + total)) := {
        | exist _ (SysErr EINTR, f') _ := load_loop f' file_offset size data total
        | exist _ (SysErr EIO, f') _ := (false, data, f')
        | exist _ (SysRet bs, f') _ with decide (length bs = 0) := {
            | left _ := (true, memset_zero data total (size - total), f')
            | right _ :=
                load_loop f' file_offset size (memcpy_into data total bs)
                  (total + length bs) } } }.
Proof.
  all: unfold pread, bytes_from in *;
    destruct (script f) as [|[]] eqn:Hs; simplify_eq/=;
    rewrite ?Hs, ?length_take, ?length_drop in *; simpl; lia.
Qed.

(** [Page::load_from_fd].  The buffer is allocated by the constructor and
    never released, so the [if (!data_)] branch is not taken. *)
Definition load_from_fd (p : Page) (fd : File) (file_offset : nat) : bool * Page * File :=
  match load_loop fd file_offset (page_size_ p) (data_ p) 0 with
  | (true, data, fd') => (true, set_dirty (set_loaded (set_data p data) true) false, fd')
  | (false, data, fd') => (false, set_data p data, fd')
  end.

(** The write loop of [Page::flush_to_fd]: whether all of [tmp] was
    written, and the file afterwards. *)
Equations? flush_loop (f : File) (file_offset size : nat) (tmp : list byte) (total : nat)
  : bool * File by wf (length (script f) + (size - total)) lt :=
  flush_loop f file_offset size tmp total with decide (total < size) := {
    | right _ := (true, f)
    | left _ with inspect (pwrite f (drop total tmp) (size - total) (file_offset + total)) := {
        | exist _ (SysErr EINTR, f') _ := flush_loop f' file_offset size tmp total
        | exist _ (SysErr EIO, f') _ := (false, f')
        | exist _ (SysRet w, f') _ := flush_loop f' file_offset size tmp (total + w) } }.
Proof.
  all: unfold pwrite in *;
    destruct (script f) as [|[]] eqn:Hs; simplify_eq/=; lia.
Qed.

(** [Page::flush_to_fd]. *)
Definition flush_to_fd (p : Page) (fd : File) (file_offset : nat) : bool * Page * File :=
  if negb (loaded_ p) then (false, p, fd)
  else if negb (dirty_ p) then (true, p, fd)
  else
    let tmp := memcpy_into (replicate (page_size_ p) zero_byte) 0
                 (take (page_size_ p) (data_ p)) in
    match flush_loop fd file_offset (page_size_ p) tmp 0 with
    | (true, fd') => (true, set_dirty p false, fd')
    | (false, fd') => (false, p, fd')
    end.

(** ** LRUBufferPool (lru_buffer_pool.h and its implementation) *)

Abbreviation pageno := nat (only parsing).
Abbreviation loc := nat (only parsing).

(** Lines written to [std::cerr]. *)
Inductive log_event : Type :=
| LogFailedGet (no : pageno)   (* "[LRU] Failed to get page <no>" *)
| LogAllPinned.                (* "[LRU] Warning: all pages pinned, cannot evict!" *)

(** The pool object together with the [Page] objects its handles refer to.
    The C++ field [page_size_] of the pool is [pool_page_size_] here, since
    [Page] has a field of the same name.  [heap_] holds every [Page] made by
    [std::make_shared]; [next_loc_] is the next location to hand out. *)
Record Pool : Type := mkPool {
  fd_ : File;
  capacity_ : nat;
  pool_page_size_ : nat;
  heap_ : gmap loc Page;
  next_loc_ : loc;
  page_table_ : gmap pageno loc;   (* std::unordered_map<pageno, shared_ptr<Page>> *)
  lru_list_ : list pageno;         (* std::list<pageno>, most recent first *)
  hit_count_ : N;                  (* std::atomic<size_t> *)
  miss_count_ : N;
  log_ : list log_event
}.

Definition set_fd (st : Pool) (f : File) : Pool :=
  mkPool f (capacity_ st) (pool_page_size_ st) (heap_ st) (next_loc_ st)
    (page_table_ st) (lru_list_ st) (hit_count_ st) (miss_count_ st) (log_ st).

Definition set_heap (st : Pool) (h : gmap loc Page) (n : loc) : Pool :=
  mkPool (fd_ st) (capacity_ st) (pool_page_size_ st) h n
    (page_table_ st) (lru_list_ st) (hit_count_ st) (miss_count_ st) (log_ st).

Definition set_page_table (st : Pool) (t : gmap pageno loc) : Pool :=
  mkPool (fd_ st) (capacity_ st) (pool_page_size_ st) (heap_ st) (next_loc_ st)
    t (lru_list_ st) (hit_count_ st) (miss_count_ st) (log_ st).

Definition set_lru_list (st : Pool) (l : list pageno) : Pool :=
  mkPool (fd_ st) (capacity_ st) (pool_page_size_ st) (heap_ st) (next_loc_ st)
    (page_table_ st) l (hit_count_ st) (miss_count_ st) (log_ st).

Definition set_hit_count (st : Pool) (c : N) : Pool :=
  mkPool (fd_ st) (capacity_ st) (pool_page_size_ st) (heap_ st) (next_loc_ st)
    (page_table_ st) (lru_list_ st) c (miss_count_ st) (log_ st).

Definition set_miss_count (st : Pool) (c : N) : Pool :=
  mkPool (fd_ st) (capacity_ st) (pool_page_size_ st) (heap_ st) (next_loc_ st)
    (page_table_ st) (lru_list_ st) (hit_count_ st) c (log_ st).

Definition set_log (st : Pool) (l : list log_event) : Pool :=
  mkPool (fd_ st) (capacity_ st) (pool_page_size_ st) (heap_ st) (next_loc_ st)
    (page_table_ st) (lru_list_ st) (hit_count_ st) (miss_count_ st) l.

(** [fetch_add(1)] on a [std::atomic<size_t>]. *)
Definition fetch_add_1 (c : N) : N := ((c + 1) `mod` 2 ^ 64)%N.

(** Member functions: state transformers with exceptions. *)
Definition M (A : Type) : Type := Pool → result (A * Pool).

Definition ret {A : Type} (a : A) : M A := λ st, Ok (a, st).

Definition bind {A B : Type} (m : M A) (k : A → M B) : M B := λ st,
  match m st with
  | Ok (a, st') => k a st'
  | Throw w => Throw w
  | Undefined => Undefined
  end.

Declare Scope pool_scope.
Delimit Scope pool_scope with pool.
Notation "x <- m ;; k" := (bind m (λ x, k))
  (at level 100, m at next level, right associativity) : pool_scope.
Notation "m ;; k" := (bind m (λ _, k))
  (at level 100, right associativity) : pool_scope.
Local Open Scope pool_scope.

Definition throw {A : Type} (what : string) : M A := λ _, Throw what.
Definition undefined {A : Type} : M A := λ _, Undefined.
Definition get : M Pool := λ st, Ok (st, st).
Definition modify (f : Pool → Pool) : M unit := λ st, Ok (tt, f st).

(** [*page] for a handle [page]. *)
Definition deref (l : loc) : M Page := λ st,
  match heap_ st !! l with
  | Some p => Ok (p, st)
  | None => Undefined
  end.

(** Assignment through a handle. *)
Definition store (l : loc) (p : Page) : M unit :=
  modify (λ st, set_heap st (<[l := p]> (heap_ st)) (next_loc_ st)).

(** [std::make_shared<Page>]. *)
Definition make_shared (p : Page) : M loc := λ st,
  Ok (next_loc_ st, set_heap st (<[next_loc_ st := p]> (heap_ st)) (S (next_loc_ st))).

Definition log (e : log_event) : M unit :=
  modify (λ st, set_log st (log_ st ++ [e])).

(** [LRUBufferPool::FlushPage]. *)
Definition FlushPage (page : loc) : M bool :=
  p <- deref page ;;
  if negb (dirty_ p) then ret true
  else
    st <- get ;;
    let offset := page_id_ p * pool_page_size_ st in
    let '(ok, p', fd') := flush_to_fd p (fd_ st) offset in
    store page p' ;;
    modify (λ st, set_fd st fd') ;;
    ret ok.

(** [LRUBufferPool::MoveToFront]: [std::list::remove] drops every element
    equal to [no]. *)
Definition MoveToFront (no : pageno) : M unit :=
  modify (λ st, set_lru_list st (no :: filter (λ x, x ≠ no) (lru_list_ st))).

(** The walk of [LRUBufferPool::EvictIfNeeded] over the reversed list:
    [rest] holds the elements not visited yet, [i] counts the visited ones.
    [page_table_[pid]] for an absent [pid] would insert a null handle, which
    the next line dereferences. *)
Fixpoint evict_walk (rest : list pageno) (i : nat) : M unit :=
  match rest with
  | [] => log LogAllPinned
  | pid :: rest' =>
      st <- get ;;
      match page_table_ st !! pid with
      | None => undefined
      | Some page =>
          p <- deref page ;;
          if decide (pin_count_ p = 0%Z) then
            FlushPage page ;;
            modify (λ st, set_page_table st (delete pid (page_table_ st))) ;;
            modify (λ st, set_lru_list st
                            (delete (length (lru_list_ st) - 1 - i) (lru_list_ st))) ;;
            ret tt
          else evict_walk rest' (S i)
      end
  end.

(** [LRUBufferPool::EvictIfNeeded]. *)
Definition EvictIfNeeded : M unit :=
  st <- get ;;
  if decide (size (page_table_ st) < capacity_ st) then ret tt
  else evict_walk (reverse (lru_list_ st)) 0.

(** [LRUBufferPool::LoadPageFromDisk]. *)
Definition LoadPageFromDisk (no : pageno) (page_size : nat) : M (option loc) :=
  page <- make_shared (Page_new no page_size) ;;
  let offset := no * page_size in
  p <- deref page ;;
  st <- get ;;
  let '(ok, p', fd') := load_from_fd p (fd_ st) offset in
  store page p' ;;
  modify (λ st, set_fd st fd') ;;
  (if ok then ret tt
   else store page (set_data p' (memset_zero (data_ p') 0 page_size))) ;;
  ret (Some page).

(** [LRUBufferPool::GetPage]. *)
Definition GetPage (no : pageno) (page_size : nat) : M (option loc) :=
  st <- get ;;
  match page_table_ st !! no with
  | Some page =>
      modify (λ st, set_hit_count st (fetch_add_1 (hit_count_ st))) ;;
      MoveToFront no ;;
      ret (Some page)
  | None =>
      modify (λ st, set_miss_count st (fetch_add_1 (miss_count_ st))) ;;
      EvictIfNeeded ;;
      page <- LoadPageFromDisk no page_size ;;
      match page with
      | None => ret None
      | Some l =>
          modify (λ st, set_page_table st (<[no := l]> (page_table_ st))) ;;
          modify (λ st, set_lru_list st (no :: lru_list_ st)) ;;
          ret (Some l)
      end
  end.

(** [Page::PinGuard]: constructor and destructor. *)
Definition PinGuard_enter (page : loc) : M unit :=
  p <- deref page ;; store page (pin p).

Definition PinGuard_leave (page : loc) : M unit :=
  p <- deref page ;; store page (snd (unpin p)).

(** [LRUBufferPool::read_page]: returns the caller's buffer afterwards. *)
Definition read_page (no : pageno) (page_size : nat) (buf : list byte) : M (list byte) :=
  page <- GetPage no page_size ;;
  match page with
  | None => log (LogFailedGet no) ;; ret buf
  | Some l =>
      PinGuard_enter l ;;
      p <- deref l ;;
      match ReadAt p 0 (Some buf) page_size with
      | Ok (_, out) => PinGuard_leave l ;; ret out
      | Throw w => PinGuard_leave l ;; throw w
      | Undefined => undefined
      end
  end.

(** [LRUBufferPool::write_page]. *)
Definition write_page (no : pageno) (page_size : nat) (buf : list byte) : M unit :=
  page <- GetPage no page_size ;;
  match page with
  | None => log (LogFailedGet no)
  | Some l =>
      PinGuard_enter l ;;
      p <- deref l ;;
      match WriteAt p 0 (Some buf) page_size with
      | Ok (_, p') => store l p' ;; PinGuard_leave l
      | Throw w => PinGuard_leave l ;; throw w
      | Undefined => undefined
      end
  end.

(** [LRUBufferPool::FlushAll]: the entries are visited in the order the
    table enumerates them. *)
Fixpoint flush_each (pages : list (pageno * loc)) : M unit :=
  match pages with
  | [] => ret tt
  | (_, page) :: rest => FlushPage page ;; flush_each rest
  end.

Definition FlushAll : M unit :=
  st <- get ;; flush_each (map_to_list (page_table_ st)).

(** [begin()] of a [std::map]: the entry with the least key. *)
Definition map_begin (m : gmap nat nat) : option (nat * nat) :=
  foldr (λ kv acc,
           match acc with
           | Some kv' => if decide (kv'.1 < kv.1) then Some kv' else Some kv
           | None => Some kv
           end) None (map_to_list m).

(** [LRUBufferPool::LRUBufferPool].  [opened] is what [::open] yields:
    the file behind the new descriptor, or [None] when it fails. *)
Definition LRUBufferPool_new (file_name : string) (page_no_info : gmap nat nat)
    (opened : option File) : result Pool :=
  let '(page_size, capacity) :=
    match map_begin page_no_info with
    | Some (s, c) => (s, c)
    | None => (0, 0)
    end in
  match opened with
  | None => Throw ("Failed to open file: " +:+ file_name)
  | Some f => Ok (mkPool f capacity page_size ∅ 0 ∅ [] 0 0 [])
  end.


(** ** Runs of public operations *)

Inductive op : Type :=
| OpRead (no : pageno) (page_size : nat) (buf : list byte)
| OpWrite (no : pageno) (page_size : nat) (buf : list byte)
| OpFlushAll.

(** One public operation; the value is the caller's buffer afterwards. *)
Definition run_op (o : op) : M (list byte) :=
  match o with
  | OpRead no page_size buf => read_page no page_size buf
  | OpWrite no page_size buf => write_page no page_size buf ;; ret buf
  | OpFlushAll => FlushAll ;; ret []
  end.

Fixpoint run_ops (os : list op) : M unit :=
  match os with
  | [] => ret tt
  | o :: os' => run_op o ;; run_ops os'
  end.

(** A member function applied to the outcome of the constructor. *)
Definition exec {A : Type} (m : M A) (r : result Pool) : result (A * Pool) :=
  match r with
  | Ok st => m st
  | Throw w => Throw w
  | Undefined => Undefined
  end.

(** The states a pool goes through when public operations are applied one
    after the other, each returning before the next starts. *)
Inductive reachable (st0 : Pool) : Pool → Prop :=
| reach_init : reachable st0 st0
| reach_step (st st' : Pool) (o : op) (r : list byte) :
    reachable st0 st → run_op o st = Ok (r, st') → reachable st0 st'.

(** ** Consistency of the pool object *)

(** Index and Recency hold the same page numbers, each once in Recency. *)
Definition index_recency_bijection (st : Pool) : Prop :=
  NoDup (lru_list_ st) ∧
  dom (page_table_ st) = list_to_set (lru_list_ st).

(** Every handle in the table refers to a live [Page]. *)
Definition handles_live (st : Pool) : Prop :=
  map_Forall (λ _ l, is_Some (heap_ st !! l)) (page_table_ st).

Definition wf (st : Pool) : Prop :=
  index_recency_bijection st ∧ handles_live st.

#[global] Instance index_recency_bijection_dec (st : Pool) :
  Decision (index_recency_bijection st).
Proof. unfold index_recency_bijection. apply _. Defined.

#[global] Instance handles_live_dec (st : Pool) : Decision (handles_live st).
Proof. unfold handles_live. apply _. Defined.

#[global] Instance wf_dec (st : Pool) : Decision (wf st).
Proof. unfold wf. apply _. Defined.

(** The page a resident page number refers to. *)
Definition resident (st : Pool) (k : pageno) : option Page :=
  l ← page_table_ st !! k; heap_ st !! l.

(** No resident page is pinned: the state between two public operations
    that run one after the other. *)
Definition unpinned (st : Pool) : Prop :=
  ∀ k p, resident st k = Some p → pin_count_ p = 0%Z.

(** The page of [pid], if resident, is pinned. *)
Definition pinned_in (st : Pool) (pid : pageno) : Prop :=
  ∀ p, resident st pid = Some p → pin_count_ p ≠ 0%Z.

(** Every resident page is pinned. *)
Definition all_pinned (st : Pool) : Prop := ∀ k, pinned_in st k.

(** ** The steps of a miss, as states *)

(** The page [LoadPageFromDisk] hands back, and the file afterwards. *)
Definition fresh_page (no : pageno) (page_size : nat) (fd : File) : Page * File :=
  let '(ok, p', fd') := load_from_fd (Page_new no page_size) fd (no * page_size) in
  (if ok then p' else set_data p' (memset_zero (data_ p') 0 page_size), fd').

(** The state once [GetPage] has put the new page into the table and at the
    front of the list. *)
Definition publish (no : pageno) (page_size : nat) (st : Pool) : Pool :=
  let pf := fresh_page no page_size (fd_ st) in
  set_lru_list
    (set_page_table
       (set_fd (set_heap st (<[next_loc_ st := pf.1]> (heap_ st)) (S (next_loc_ st))) pf.2)
       (<[no := next_loc_ st]> (page_table_ st)))
    (no :: lru_list_ st).

(** The states [EvictIfNeeded] can leave behind. *)
Inductive evicted (st : Pool) : Pool → Prop :=
| ev_room :
    size (page_table_ st) < capacity_ st → evicted st st
| ev_all_pinned :
    ¬ size (page_table_ st) < capacity_ st → all_pinned st →
    evicted st (set_log st (log_ st ++ [LogAllPinned]))
| ev_victim (front back : list pageno) (pid : pageno) (l : loc) (p : Page)
    (ok : bool) (st1 : Pool) :
    ¬ size (page_table_ st) < capacity_ st →
    lru_list_ st = front ++ pid :: back →
    Forall (pinned_in st) back →
    page_table_ st !! pid = Some l → heap_ st !! l = Some p →
    pin_count_ p = 0%Z →
    FlushPage l st = Ok (ok, st1) →
    evicted st
      (set_lru_list (set_page_table st1 (delete pid (page_table_ st))) (front ++ back)).

(** The state between public operations that run one after the other on a
    pool with room for at least one page. *)
Definition seq_inv (st : Pool) : Prop :=
  wf st ∧ unpinned st ∧ size (page_table_ st) ≤ capacity_ st.

(** ** Page contents as seen through the pool *)

(** The byte of a file at position [i]; zero past the end. *)
Definition byte_at (c : list byte) (i : nat) : byte := default zero_byte (c !! i).

(** The bytes of page [k] as the backing file has them. *)
Definition on_disk (st : Pool) (k : pageno) : list byte :=
  file_page (content (fd_ st)) (k * pool_page_size_ st) (pool_page_size_ st).

(** The bytes of page [k] as the pool presents them: those of its frame
    when the page is resident, those in the file otherwise. *)
Definition page_view (st : Pool) (k : pageno) : list byte :=
  match resident st k with
  | Some p => data_ p
  | None => on_disk st k
  end.

(** A frame of the single-size pool between two operations. *)
Definition frame_ok (st : Pool) (k : pageno) (p : Page) : Prop :=
  page_id_ p = k ∧ page_size_ p = pool_page_size_ st ∧
  length (data_ p) = pool_page_size_ st ∧ pin_count_ p = 0%Z ∧
  loaded_ p = true ∧ (dirty_ p = false → data_ p = on_disk st k).

(** The states of a pool that is used by one operation at a time, with
    requests of the configured page size, on a file whose reads and writes
    do not fail for good. *)
Definition good (st : Pool) : Prop :=
  wf st ∧ no_failure (fd_ st) ∧
  (∀ k1 k2 l, page_table_ st !! k1 = Some l → page_table_ st !! k2 = Some l → k1 = k2) ∧
  (∀ l, is_Some (heap_ st !! l) → l < next_loc_ st) ∧
  (∀ k p, resident st k = Some p → frame_ok st k p).

(** The page size an operation asks for, if it names one. *)
Definition op_page_size (o : op) : option nat :=
  match o with
  | OpRead _ page_size _ | OpWrite _ page_size _ => Some page_size
  | OpFlushAll => None
  end.

(** The page an operation writes, if any. *)
Definition op_writes (o : op) : option pageno :=
  match o with
  | OpWrite no _ _ => Some no
  | _ => None
  end.

(** The operation asks for pages of size [s], or for none. *)
Definition sized (s : nat) (o : op) : Prop :=
  op_page_size o = None ∨ op_page_size o = Some s.

(** ** Requests and the end of a pool *)

(** The operations that go through [GetPage]. *)
Definition is_request (o : op) : bool :=
  match o with
  | OpRead _ _ _ | OpWrite _ _ _ => true
  | OpFlushAll => false
  end.

Definition requests (os : list op) : nat := length (filter is_request os).

(** [LRUBufferPool::~LRUBufferPool]: [FlushAll], then [close]; what is left
    is the backing file. *)
Definition LRUBufferPool_delete (st : Pool) : result File :=
  match FlushAll st with
  | Ok (_, st') => Ok (fd_ st')
  | Throw w => Throw w
  | Undefined => Undefined
  end.

(** The page at [l], if any, holds no change that is not in the file. *)
Definition clean_at (st : Pool) (l : loc) : Prop :=
  ∀ p, heap_ st !! l = Some p → dirty_ p = false.

(** * SimpleBufferPool (simple_buffer_pool.h and its implementation)

    The pool without a cache: every request goes to the file through one of
    32 descriptors.  Here [size_t] values are numbers below [2 ^ 64] with
    the wrap-around written out. *)

Module SimpleBufferPool.

(** [size_t] arithmetic. *)
Definition size_t_wrap (x : N) : N := (x `mod` 2 ^ 64)%N.

(** [static_cast<size_t>(-1)]. *)
Definition size_t_minus_one : N := (2 ^ 64 - 1)%N.

(** The entries of a [std::map<size_t, size_t>] in the order a range-based
    [for] visits them: ascending keys. *)
Definition key_le (a b : N * N) : Prop := (a.1 ≤ b.1)%N.

#[global] Instance key_le_dec : RelDecision key_le.
Proof. intros a b. unfold key_le. apply _. Defined.

Definition map_entries (m : gmap N N) : list (N * N) :=
  merge_sort key_le (map_to_list m).

(** The loop of [SimpleBufferPool::page_start_offset] over the entries that
    are left, with the values of [boundary] and [n]. *)
Fixpoint offset_walk (ranges : list (N * N)) (boundary n : N) : N :=
  match ranges with
  | [] => size_t_minus_one
  | (psize, pcount) :: rest =>
      if (pcount <=? n)%N
      then offset_walk rest (size_t_wrap (boundary + size_t_wrap (psize * pcount)))
             (n - pcount)
      else size_t_wrap (boundary + size_t_wrap (n * psize))
  end.

(** [SimpleBufferPool::page_start_offset]. *)
Definition page_start_offset (page_no_info_ : gmap N N) (no : N) : N :=
  offset_walk (map_entries page_no_info_) 0 no.

(** Lines written to [std::cerr]. *)
Inductive log_line : Type :=
| LogReadOutOfRange (no : N)       (* "read_page: page no out of range: <no>" *)
| LogWriteOutOfRange (no : N)      (* "write_page: page no out of range: <no>" *)
| LogLseekFailed                   (* "lseek failed: ..." *)
| LogReadMismatch (r : Z) (expect : N)    (* "read size mismatch: ..." *)
| LogWriteMismatch (w : Z) (expect : N).  (* "write size mismatch: ..." *)

(** An open descriptor: its number and its file position. *)
Record Desc : Type := mkDesc {
  fd : Z;
  pos : nat
}.

Record t : Type := mk {
  file_ : File;                    (* the file behind every descriptor *)
  page_no_info_ : gmap N N;
  fds_ : list Desc;                (* std::array<int, 32> *)
  log_ : list log_line
}.

Definition set_file (st : t) (f : File) : t :=
  mk f (page_no_info_ st) (fds_ st) (log_ st).

Definition set_fds (st : t) (fds : list Desc) : t :=
  mk (file_ st) (page_no_info_ st) fds (log_ st).

Definition log (st : t) (l : log_line) : t :=
  mk (file_ st) (page_no_info_ st) (fds_ st) (log_ st ++ [l]).

(** How a call ends: it returns, [assert] stops the process, or the
    behaviour is undefined. *)
Inductive outcome (A : Type) : Type :=
| Done (a : A)
| Aborted
| Undef.
Arguments Done {A} a.
Arguments Aborted {A}.
Arguments Undef {A}.

(** The opening loop of the constructor: [open_result i] is what the call
    of [::open] in round [i] returns; [todo] rounds are left and [fds] holds
    the descriptors stored so far.  Yields the array, or the descriptors
    closed before the exception is thrown. *)
Fixpoint open_loop (open_result : nat → Z) (i todo : nat) (fds : list Z)
  : list Z + list Z :=
  match todo with
  | 0 => inl fds
  | S todo' =>
      let fd := open_result i in
      if (fd <=? 0)%Z then inr (filter (λ x, (0 < x)%Z) fds)
      else open_loop open_result (S i) todo' (fds ++ [fd])
  end.

(** [SimpleBufferPool::SimpleBufferPool]: the pool, or the exception, and
    the descriptors the constructor has closed.  [errno] is the value of
    [errno] when the message is built. *)
Definition SimpleBufferPool_new (file_name : string) (page_no_info : gmap N N)
    (open_result : nat → Z) (errno : Z) (f : File) : result t * list Z :=
  match open_loop open_result 0 32 [] with
  | inl fds => (Ok (mk f page_no_info ((λ x, mkDesc x 0) <$> fds) []), [])
  | inr closed =>
      (Throw ("Cannot open source file: " +:+ file_name +:+ " errno=" +:+ pretty errno),
       closed)
  end.

(** [assert(c)] after the state [st] has been reached; with [NDEBUG] the
    macro expands to nothing. *)
Definition assert_ {A : Type} (ndebug : bool) (c : bool) (a : A) : outcome A :=
  if c || ndebug then Done a else Aborted.

(** [fds_[t_idx % 32]]: the index, when it is inside the array. *)
Definition fd_index (t_idx : Z) : option nat :=
  let i := Z.rem t_idx 32 in
  if (i <? 0)%Z then None else Some (Z.to_nat i).

(** [lseek(fd, offset, SEEK_SET)] with [offset] cast to [off_t]: fails
    when the cast value is negative. *)
Definition lseek (d : Desc) (offset : N) : option Desc :=
  if (2 ^ 63 <=? offset)%N then None else Some (mkDesc (fd d) (N.to_nat offset)).

(** [SimpleBufferPool::read_page]: the caller's buffer and the pool
    afterwards.  A transfer of more bytes than the caller's buffer holds
    is undefined behaviour. *)
Definition read_page (ndebug : bool) (no page_size : N) (buf : list byte) (t_idx : Z)
    (st : t) : outcome (list byte * t) :=
  let offset := page_start_offset (page_no_info_ st) no in
  if (offset =? size_t_minus_one)%N then Done (buf, log st (LogReadOutOfRange no))
  else
    match fd_index t_idx with
    | None => Undef
    | Some i =>
        match fds_ st !! i with
        | None => Undef
        | Some d =>
            match lseek d offset with
            | None => Done (buf, log st LogLseekFailed)
            | Some d1 =>
                match pread (file_ st) (N.to_nat page_size) (pos d1) with
                | (SysRet bs, f') =>
                    if decide (length buf < length bs) then Undef
                    else
                      let d2 := mkDesc (fd d1) (pos d1 + length bs) in
                      let st' := set_fds (set_file st f') (<[i := d2]> (fds_ st)) in
                      let buf' := memcpy_into buf 0 bs in
                      if decide (length bs = N.to_nat page_size) then Done (buf', st')
                      else
                        assert_ ndebug false
                          (buf', log st' (LogReadMismatch (Z.of_nat (length bs)) page_size))
                | (SysErr _, f') =>
                    let st' := set_fds (set_file st f') (<[i := d1]> (fds_ st)) in
                    assert_ ndebug false
                      (buf, log st' (LogReadMismatch (-1) page_size))
                end
            end
        end
    end.

(** [SimpleBufferPool::write_page]. *)
Definition write_page (ndebug : bool) (no page_size : N) (buf : list byte) (t_idx : Z)
    (st : t) : outcome t :=
  let offset := page_start_offset (page_no_info_ st) no in
  if (offset =? size_t_minus_one)%N then Done (log st (LogWriteOutOfRange no))
  else
    match fd_index t_idx with
    | None => Undef
    | Some i =>
        match fds_ st !! i with
        | None => Undef
        | Some d =>
            match lseek d offset with
            | None => Done (log st LogLseekFailed)
            | Some d1 =>
                match pwrite (file_ st) buf (N.to_nat page_size) (pos d1) with
                | (SysRet w, f') =>
                    if decide (length buf < w) then Undef
                    else
                      let d2 := mkDesc (fd d1) (pos d1 + w) in
                      let st' := set_fds (set_file st f') (<[i := d2]> (fds_ st)) in
                      if decide (w = N.to_nat page_size) then Done st'
                      else
                        assert_ ndebug false
                          (log st' (LogWriteMismatch (Z.of_nat w) page_size))
                | (SysErr _, f') =>
                    let st' := set_fds (set_file st f') (<[i := d1]> (fds_ st)) in
                    assert_ ndebug false (log st' (LogWriteMismatch (-1) page_size))
                end
            end
        end
    end.

(** The number of pages and of bytes a list of ranges describes. *)
Definition total_pages (ranges : list (N * N)) : N :=
  foldr (λ r acc, (r.2 + acc)%N) 0%N ranges.

Definition total_bytes (ranges : list (N * N)) : N :=
  foldr (λ r acc, (r.1 * r.2 + acc)%N) 0%N ranges.

(** The size the configuration gives page [n]: the key of the range the
    page falls in. *)
Fixpoint size_walk (ranges : list (N * N)) (n : N) : option N :=
  match ranges with
  | [] => None
  | (psize, pcount) :: rest =>
      if (pcount <=? n)%N then size_walk rest (n - pcount) else Some psize
  end.

Definition page_size_of (page_no_info_ : gmap N N) (no : N) : option N :=
  size_walk (map_entries page_no_info_) no.

End SimpleBufferPool.

(** * The server (server.cpp): the requests of one connection

    A worker thread reads requests from a connected stream socket and
    serves them from the pool.  The header is the packed struct
    [{unsigned char msg_type; unsigned int page_no; unsigned int page_size}]
    in the byte order of the host, taken to be little-endian. *)

Module Server.

(** Lines written to [std::cerr] by the worker. *)
Inductive log_line : Type :=
| LogReadError          (* "Package read error: ..." *)
| LogReadDisconnected   (* "Connection disconnected." from [read_loop] *)
| LogWriteError         (* "Package write error: ..." *)
| LogWriteDisconnected  (* "Connection disconnected." from [write_loop] *)
| LogInvalidType        (* "Invalid msg type" *)
| LogThreadExit.        (* "Thread exit for socket ..." *)

(** A connected stream socket as the worker sees it: the bytes the peer
    sends before it closes that are not read yet, the bytes written to the
    peer, what the kernel does at the next calls, and the worker's log. *)
Record Conn : Type := mkConn {
  incoming : list byte;
  outgoing : list byte;
  events : list io_event;
  log_ : list log_line
}.

Definition log (c : Conn) (l : log_line) : Conn :=
  mkConn (incoming c) (outgoing c) (events c) (log_ c ++ [l]).

(** [::read(fd, buf, count)] on the socket: some of the bytes that are
    there, none at the end of the stream. *)
Definition sock_read (c : Conn) (count : nat) : sys_result (list byte) * Conn :=
  match events c with
  | [] =>
      (SysRet (take count (incoming c)),
       mkConn (drop count (incoming c)) (outgoing c) [] (log_ c))
  | ev :: rest =>
      match ev with
      | IoPartial n =>
          (SysRet (take (count `min` S n) (incoming c)),
           mkConn (drop (count `min` S n) (incoming c)) (outgoing c) rest (log_ c))
      | IoInterrupted => (SysErr EINTR, mkConn (incoming c) (outgoing c) rest (log_ c))
      | IoFailed => (SysErr EIO, mkConn (incoming c) (outgoing c) rest (log_ c))
      end
  end.

(** [::write(fd, src, count)] on the socket. *)
Definition sock_write (c : Conn) (src : list byte) (count : nat) : sys_result nat * Conn :=
  match events c with
  | [] =>
      (SysRet count, mkConn (incoming c) (outgoing c ++ take count src) [] (log_ c))
  | ev :: rest =>
      match ev with
      | IoPartial n =>
          (SysRet (count `min` S n),
           mkConn (incoming c) (outgoing c ++ take (count `min` S n) src) rest (log_ c))
      | IoInterrupted => (SysErr EINTR, mkConn (incoming c) (outgoing c) rest (log_ c))
      | IoFailed => (SysErr EIO, mkConn (incoming c) (outgoing c) rest (log_ c))
      end
  end.

(** The loop of [read_loop]: [at_] is how far [buf] has advanced, [count]
    what is left to read and [ret] the value kept for the end. *)
Equations? read_loop_go (c : Conn) (buf : list byte) (at_ count : nat) (ret : Z)
  : Z * list byte * Conn by wf (length (events c) + count) lt :=
  read_loop_go c buf at_ count ret with decide (count = 0) := {
    | left _ := (ret, buf, c)
    | right _ with inspect (sock_read c count) := {
        | exist _ (SysErr EINTR, c') _ := read_loop_go c' buf at_ count ret
        | exist _ (SysErr EIO, c') _ := ((-1)%Z, buf, log c' LogReadError)
        | exist _ (SysRet bs, c') _ with decide (length bs = 0) := {
            | left _ := (0%Z, buf, log c' LogReadDisconnected)
            | right _ :=
                read_loop_go c' (memcpy_into buf at_ bs) (at_ + length bs)
                  (count - length bs) ret } } }.
Proof.
  all: unfold sock_read in *;
    destruct (events c) as [|[]] eqn:Hs; simplify_eq/=; rewrite ?Hs; simpl; lia.
Qed.

(** [read_loop]: the value returned, the buffer and the connection
    afterwards.  [int ret = count] wraps for counts from [2 ^ 31] on. *)
Definition read_loop (c : Conn) (buf : list byte) (count : nat) : Z * list byte * Conn :=
  read_loop_go c buf 0 count (wrap_int (Z.of_nat count)).

(** The loop of [write_loop]: [at_] is how far [buf] has advanced. *)
Equations? write_loop_go (c : Conn) (buf : list byte) (at_ count : nat) (ret : Z)
  : Z * Conn by wf (length (events c) + count) lt :=
  write_loop_go c buf at_ count ret with decide (count = 0) := {
    | left _ := (ret, c)
    | right _ with inspect (sock_write c (drop at_ buf) count) := {
        | exist _ (SysErr EINTR, c') _ := write_loop_go c' buf at_ count ret
        | exist _ (SysErr EIO, c') _ := ((-1)%Z, log c' LogWriteError)
        | exist _ (SysRet sendcnt, c') _ with decide (sendcnt = 0) := {
            | left _ := (0%Z, log c' LogWriteDisconnected)
            | right _ := write_loop_go c' buf (at_ + sendcnt) (count - sendcnt) ret } } }.
Proof.
  all: unfold sock_write in *;
    destruct (events c) as [|[]] eqn:Hs; simplify_eq/=; rewrite ?Hs; simpl; lia.
Qed.

(** [write_loop]. *)
Definition write_loop (c : Conn) (buf : list byte) (count : nat) : Z * Conn :=
  write_loop_go c buf 0 count (wrap_int (Z.of_nat count)).

(** An [unsigned int] from four bytes, least significant first. *)
Definition le32 (bs : list byte) : nat :=
  N.to_nat (foldr (λ b acc, (Byte.to_N b + 256 * acc)%N) 0%N (take 4 bs)).

(** [struct Header], packed. *)
Record Header : Type := mkHeader {
  msg_type : N;
  page_no : nat;
  page_size : nat
}.

Definition GET : N := 0.
Definition SET : N := 1.

(** The fields of a header read into nine bytes. *)
Definition parse_header (raw : list byte) : Header :=
  mkHeader (Byte.to_N (default zero_byte (raw !! 0))) (le32 (drop 1 raw)) (le32 (drop 5 raw)).

(** The bytes of [header.page_size] in the header. *)
Definition page_size_bytes (raw : list byte) : list byte := take 4 (drop 5 raw).

(** The size of the buffer a worker allocates. *)
Definition buffer_bytes : nat := 2 * 1024 * 1024.

(** The request loop of [thread_handler] over an LRU pool, for at most
    [fuel] requests; [g_program_shutdown] is never set in server.cpp.
    [buffer] is the worker's buffer, whose first contents are not
    initialised.  A transfer that runs over the end of the buffer is
    undefined behaviour; it shows as a buffer that has grown. *)
Fixpoint serve (fuel : nat) (c : Conn) (buffer : list byte) (t_idx : Z)
  : M (option Conn) :=
  match fuel with
  | 0 => ret None
  | S fuel' =>
      let '(rr, raw, c1) := read_loop c (replicate 9 zero_byte) 9 in
      if (rr <=? 0)%Z then ret (Some c1)
      else
        let header := parse_header raw in
        if decide (msg_type header = SET) then
          let '(r2, buffer1, c2) := read_loop c1 buffer (page_size header) in
          if decide (length buffer1 = length buffer) then
            if (r2 <=? 0)%Z then serve fuel' c2 buffer1 t_idx
            else
              write_page (page_no header) (page_size header) buffer1 ;;
              let '(_, c3) := write_loop c2 (page_size_bytes raw) 4 in
              serve fuel' c3 buffer1 t_idx
          else undefined
        else if decide (msg_type header = GET) then
          buffer1 <- read_page (page_no header) (page_size header) buffer ;;
          if decide (length buffer1 = length buffer) then
            let '(_, c2) := write_loop c1 (page_size_bytes raw) 4 in
            if decide (page_size header ≤ length buffer1) then
              let '(_, c3) := write_loop c2 buffer1 (page_size header) in
              serve fuel' c3 buffer1 t_idx
            else undefined
          else undefined
        else serve fuel' (log c1 LogInvalidType) buffer t_idx
  end.

(** [thread_handler] once the requests are served: the buffer is
    released, the exit is logged and the socket closed.  ([show_hit_rate]
    only prints.) *)
Definition thread_handler (fuel : nat) (c : Conn) (buffer : list byte) (t_idx : Z)
  : M (option Conn) :=
  r <- serve fuel c buffer t_idx ;;
  ret ((λ c', log c' LogThreadExit) <$> r).

(** ** Requests as a client sends them *)

(** The byte with value [n mod 256]. *)
Definition byte_of_N (n : N) : byte := default zero_byte (Byte.of_N (n `mod` 256)).

(** The four bytes of an [unsigned int], least significant first. *)
Definition enc32 (n : nat) : list byte :=
  let v := N.of_nat n in
  [byte_of_N v; byte_of_N (v / 256); byte_of_N (v / 65536); byte_of_N (v / 16777216)].

(** The nine bytes of a header. *)
Definition encode_header (ty : N) (no page_size : nat) : list byte :=
  byte_of_N ty :: enc32 no ++ enc32 page_size.

Inductive request : Type :=
| Get (no : nat)
| Put (no : nat) (payload : list byte).

(** A request for a page of [s] bytes on the wire. *)
Definition encode_request (s : nat) (r : request) : list byte :=
  match r with
  | Get no => encode_header GET no s
  | Put no payload => encode_header SET no s ++ payload
  end.

Definition encode_requests (s : nat) (reqs : list request) : list byte :=
  mjoin (encode_request s <$> reqs).

(** A store of pages of [s] bytes: what it answers to a list of requests,
    and what it holds afterwards. *)
Fixpoint replies (s : nat) (view : nat → list byte) (reqs : list request) : list byte :=
  match reqs with
  | [] => []
  | Get no :: rest => enc32 s ++ view no ++ replies s view rest
  | Put no payload :: rest =>
      enc32 s ++ replies s (λ k, if decide (k = no) then payload else view k) rest
  end.

Fixpoint store_after (view : nat → list byte) (reqs : list request) : nat → list byte :=
  match reqs with
  | [] => view
  | Get _ :: rest => store_after view rest
  | Put no payload :: rest =>
      store_after (λ k, if decide (k = no) then payload else view k) rest
  end.

(** A request a client may send for pages of [s] bytes. *)
Definition valid_request (s : nat) (r : request) : Prop :=
  match r with
  | Get no => (N.of_nat no < 2 ^ 32)%N
  | Put no payload => (N.of_nat no < 2 ^ 32)%N ∧ length payload = s
  end.

End Server.

(** * The configuration built by [main] (example.cpp) *)

(** [page_sizes]. *)
Definition page_sizes : list nat := [8 * 1024; 16 * 1024; 32 * 1024; 2 * 1024 * 1024].

(** [static_cast<size_t>] of an [int]. *)
Definition size_t_of_int (z : Z) : nat := Z.to_nat (z `mod` 2 ^ 64).

(** [std::map::insert]: an entry whose key is there already stays. *)
Definition map_insert_new (k v : nat) (m : gmap nat nat) : gmap nat nat :=
  match m !! k with
  | Some _ => m
  | None => <[k := v]> m
  end.

(** The loop of [main] that fills [page_no_info], from round [i] on, over
    the sizes that are left; [count i] is the value of
    [stoi(argv[3 + i])]. *)
Fixpoint main_loop (argc : nat) (count : nat → Z) (i : nat) (sizes : list nat)
    (page_no_info : gmap nat nat) : gmap nat nat :=
  match sizes with
  | [] => page_no_info
  | s :: rest =>
      if decide (i + 3 < argc)
      then main_loop argc count (S i) rest
             (map_insert_new s (size_t_of_int (count i)) page_no_info)
      else page_no_info
  end.

Definition main_page_no_info (argc : nat) (count : nat → Z) : gmap nat nat :=
  main_loop argc count 0 page_sizes ∅.
(** * Properties *)

(** ** Pages *)

Example load_loop_test :
  load_loop (mkFile [x01; x02; x03] [IoInterrupted; IoPartial 0]) 1 4 (replicate 4 x07) 0
  = (true, [x02; x03; x00; x00], mkFile [x01; x02; x03] []).
Proof. vm_compute. reflexivity. Qed.

Example flush_loop_test :
  flush_loop (mkFile [x01] [IoPartial 0; IoInterrupted; IoPartial 5]) 3 2 [x08; x09] 0
  = (true, mkFile [x01; x00; x00; x08; x09] []).
Proof. vm_compute. reflexivity. Qed.


Lemma wrap_int_id (z : Z) : (int_min ≤ z ≤ int_max)%Z → wrap_int z = z.
Proof.
  unfold wrap_int, int_min, int_max. intros Hz.
  rewrite Z.mod_small; lia.
Qed.

Lemma length_memcpy_into (dst src : list byte) (at_ : nat) :
  at_ + length src ≤ length dst → length (memcpy_into dst at_ src) = length dst.
Proof.
  intros Hle. unfold memcpy_into.
  rewrite !length_app, length_take, length_drop. lia.
Qed.

Lemma lookup_memcpy_into_in (dst src : list byte) (at_ i : nat) :
  at_ ≤ length dst → i < length src →
  memcpy_into dst at_ src !! (at_ + i) = src !! i.
Proof.
  intros Hat Hi. unfold memcpy_into.
  rewrite lookup_app_r; rewrite length_take; [|lia].
  replace (at_ + i - at_ `min` length dst) with i by lia.
  by rewrite lookup_app_l.
Qed.

Lemma lookup_memcpy_into_out (dst src : list byte) (at_ i : nat) :
  at_ + length src ≤ length dst → i < at_ ∨ at_ + length src ≤ i →
  memcpy_into dst at_ src !! i = dst !! i.
Proof.
  intros Hat Hi. unfold memcpy_into. destruct Hi as [Hi|Hi].
  - rewrite lookup_app_l; [|rewrite length_take; lia].
    by rewrite lookup_take_lt.
  - rewrite lookup_app_r; rewrite length_take; [|lia].
    rewrite lookup_app_r; [|lia].
    rewrite lookup_drop. f_equal. lia.
Qed.

(** C9.  [unpin] returns the decremented count when the count was positive;
    when it was zero or negative it stores and returns 0.  The count after
    an [unpin] is never negative, an [unpin] at 0 leaves it at 0, and no
    other field of the page changes. *)
Theorem unpin_underflow_safe (p : Page) :
  (int_min ≤ pin_count_ p ≤ int_max)%Z →
  ((0 < pin_count_ p)%Z →
     unpin p = ((pin_count_ p - 1)%Z, set_pin_count p (pin_count_ p - 1))) ∧
  ((pin_count_ p ≤ 0)%Z → unpin p = (0%Z, set_pin_count p 0)) ∧
  (pin_count_ p = 0%Z → pin_count_ (unpin p).2 = 0%Z) ∧
  (0 ≤ pin_count_ (unpin p).2)%Z.
Proof.
  intros Hrange. unfold unpin.
  destruct (Z.leb_spec (pin_count_ p) 0) as [Hle|Hgt].
  - repeat split; try done; try lia.
  - rewrite wrap_int_id by (unfold int_min, int_max in *; lia).
    repeat split; simpl; try done; try lia.
Qed.

Lemma unpin_underflow_safe_witness :
  unpin (set_pin_count (Page_new 3 8) 2) = (1%Z, set_pin_count (Page_new 3 8) 1) ∧
  unpin (Page_new 3 8) = (0%Z, Page_new 3 8).
Proof.
  split.
  - refine (proj1 (unpin_underflow_safe (set_pin_count (Page_new 3 8) 2) _) _);
      vm_compute; try split; congruence.
  - refine (proj1 (proj2 (unpin_underflow_safe (Page_new 3 8) _)) _);
      vm_compute; try split; congruence.
Defined.

(** C7.  [ReadAt] and [WriteAt] stay inside the page buffer.  With
    [offset >= size] both return 0 and change nothing.  Otherwise they move
    [min len (size - offset)] bytes, which lie inside the buffer, and return
    that count; [WriteAt] leaves the bytes outside that range as they were
    and sets [dirty] and [loaded]; [ReadAt] on a page that is not loaded
    returns 0 and leaves the caller's buffer as it was. *)
Theorem frame_access_bounds (p : Page) (offset len : nat) (buf : list byte) :
  length (data_ p) = page_size_ p → len ≤ length buf →
  (page_size_ p ≤ offset →
     ReadAt p offset (Some buf) len = Ok (0, buf) ∧
     WriteAt p offset (Some buf) len = Ok (0, p)) ∧
  (loaded_ p = false → ReadAt p offset (Some buf) len = Ok (0, buf)) ∧
  (offset < page_size_ p →
     let n := len `min` (page_size_ p - offset) in
     offset + n ≤ page_size_ p ∧
     (loaded_ p = true →
        ∃ out, ReadAt p offset (Some buf) len = Ok (n, out) ∧
          length out = length buf ∧
          (∀ i, i < n → out !! i = data_ p !! (offset + i)) ∧
          (∀ i, n ≤ i → out !! i = buf !! i)) ∧
     ∃ p', WriteAt p offset (Some buf) len = Ok (n, p') ∧
       page_id_ p' = page_id_ p ∧ page_size_ p' = page_size_ p ∧
       pin_count_ p' = pin_count_ p ∧
       length (data_ p') = page_size_ p ∧
       (∀ i, i < n → data_ p' !! (offset + i) = buf !! i) ∧
       (∀ i, i < offset ∨ offset + n ≤ i → data_ p' !! i = data_ p !! i) ∧
       dirty_ p' = true ∧ loaded_ p' = true).
Proof.
  intros Hlen Hbuf. split; [|split].
  - intros Hoff. unfold ReadAt, WriteAt. by rewrite !decide_True.
  - intros Hl. unfold ReadAt. rewrite Hl. by case_decide.
  - intros Hoff n. split; [lia|]. split.
    + intros Hl. unfold ReadAt. rewrite decide_False, Hl by lia. simpl.
      fold n. eexists. split; [done|].
      assert (length (take n (drop offset (data_ p))) = n) as Hn.
      { rewrite length_take, length_drop. lia. }
      split; [|split].
      * apply length_memcpy_into. lia.
      * intros i Hi.
        rewrite (lookup_memcpy_into_in buf _ 0 i) by (simpl; lia).
        by rewrite lookup_take_lt, lookup_drop.
      * intros i Hi. apply lookup_memcpy_into_out; lia.
    + unfold WriteAt. rewrite decide_False by lia. simpl. fold n.
      assert (length (take n buf) = n) as Hn by (rewrite length_take; lia).
      eexists. split; [done|]. simpl. repeat split.
      * rewrite length_memcpy_into; lia.
      * intros i Hi. rewrite lookup_memcpy_into_in by lia.
        by rewrite lookup_take_lt.
      * intros i Hi. apply lookup_memcpy_into_out; lia.
Qed.

Lemma frame_access_bounds_witness :
  WriteAt (Page_new 3 4) 4 (Some [x41; x42]) 2 = Ok (0, Page_new 3 4).
Proof.
  refine (proj2 (proj1 (frame_access_bounds (Page_new 3 4) 4 2 [x41; x42] _ _) _));
    vm_compute; done.
Defined.

(** ** Scenarios *)

Example scenario_capacity_1 :
  ∃ st, exec (write_page 5 8 (replicate 8 "X"%byte) ;;
              write_page 6 8 (replicate 8 "Y"%byte) ;;
              read_page 5 8 (replicate 8 x00))
          (LRUBufferPool_new "db" {[8 := 1]} (Some (mkFile [] [])))
        = Ok (replicate 8 "X"%byte, st).
Proof. eexists. vm_compute. reflexivity. Qed.

Example scenario_capacity_2 :
  ∃ st, exec (write_page 0 8 (replicate 8 "A"%byte) ;;
              write_page 1 8 (replicate 8 "B"%byte) ;;
              read_page 0 8 (replicate 8 x00) ;;
              write_page 2 8 (replicate 8 "C"%byte) ;;
              read_page 1 8 (replicate 8 x00))
          (LRUBufferPool_new "db" {[8 := 2; 16 := 7]} (Some (mkFile [] [])))
        = Ok (replicate 8 "B"%byte, st) ∧ lru_list_ st = [1; 2].
Proof. eexists. vm_compute. split; reflexivity. Qed.


(** ** The I/O loops *)

Lemma pread_inv (f f' : File) (count off : nat) (r : sys_result (list byte)) :
  pread f count off = (r, f') →
  content f' = content f ∧
  (script f = [] → f' = f ∧ r = SysRet (bytes_from (content f) off count)) ∧
  (∀ bs, r = SysRet bs → length bs ≤ count).
Proof.
  unfold pread, bytes_from. intros Hp.
  destruct f as [c [|[] sc]]; simplify_eq/=; repeat split; try done.
  all: intros bs ?; simplify_eq; rewrite length_take; lia.
Qed.

Lemma length_memset_zero (dst : list byte) (at_ n : nat) :
  at_ + n ≤ length dst → length (memset_zero dst at_ n) = length dst.
Proof.
  intros Hle. unfold memset_zero.
  rewrite !length_app, length_take, length_replicate, length_drop. lia.
Qed.

Lemma load_loop_shape (f : File) (off size : nat) (data : list byte) (total : nat) :
  length data = size →
  ∀ ok data' f', load_loop f off size data total = (ok, data', f') →
    length data' = size ∧ content f' = content f ∧
    (script f = [] → script f' = []).
Proof.
  funelim (load_loop f off size data total); intros Hlen ok data1 f1 Hres;
    try match goal with
        | Hp : pread _ _ _ = _ |- _ =>
            let Hc := fresh "Hc" in let Hs := fresh "Hs" in let Hb := fresh "Hb" in
            pose proof (pread_inv _ _ _ _ _ Hp) as (Hc & Hs & Hb)
        end.
  - by simplify_eq.
  - destruct (H Hlen _ _ _ Hres) as (? & ? & Hs').
    repeat split; try congruence.
    intros Hf. by destruct (Hs Hf) as [_ ?].
  - simplify_eq. repeat split; try done.
    intros Hf. by destruct (Hs Hf) as [_ ?].
  - simplify_eq. rewrite length_memset_zero by lia.
    repeat split; try done. intros Hf. by destruct (Hs Hf) as [-> _].
  - specialize (Hb _ eq_refl).
    destruct (H ltac:(rewrite length_memcpy_into; lia) _ _ _ Hres) as (? & ? & Hs').
    repeat split; try congruence.
    intros Hf. apply Hs'. by destruct (Hs Hf) as [-> _].
Qed.

Lemma length_bytes_from (c : list byte) (off count : nat) :
  length (bytes_from c off count) = count `min` (length c - off).
Proof. unfold bytes_from. by rewrite length_take, length_drop. Qed.

Lemma length_file_page (c : list byte) (off size : nat) :
  length (file_page c off size) = size.
Proof.
  unfold file_page. rewrite length_app, length_replicate, length_bytes_from. lia.
Qed.

Lemma file_page_split (c : list byte) (off n : nat) :
  file_page c off n
  = bytes_from c off n
      ++ file_page c (off + length (bytes_from c off n))
           (n - length (bytes_from c off n)).
Proof.
  unfold file_page at 1. f_equal.
  pose proof (length_bytes_from c off n) as Hm.
  destruct (decide (n ≤ length c - off)) as [Hle|Hgt].
  - replace (n - length (bytes_from c off n)) with 0 by lia. done.
  - unfold file_page. rewrite (length_bytes_from c (off + _)).
    unfold bytes_from at 2.
    rewrite (drop_ge c) by lia. rewrite take_nil. simpl. f_equal. lia.
Qed.

Lemma load_loop_no_fault (f : File) (off size : nat) (data : list byte) (total : nat) :
  script f = [] → length data = size → total ≤ size →
  load_loop f off size data total
  = (true, take total data ++ file_page (content f) (off + total) (size - total), f).
Proof.
  funelim (load_loop f off size data total); intros Hs Hlen Htot;
    try match goal with
        | Hp : pread _ _ _ = _ |- _ =>
            let Hc := fresh "Hc" in let Hs' := fresh "Hs" in let Hb := fresh "Hb" in
            pose proof (pread_inv _ _ _ _ _ Hp) as (Hc & Hs' & Hb);
            destruct (Hs' Hs) as [-> Hr]; try discriminate Hr
        end.
  - replace (size - total) with 0 by lia. unfold file_page, bytes_from. simpl.
    rewrite take_ge by lia. by rewrite app_nil_r.
  - simplify_eq. unfold memset_zero, file_page.
    rewrite (nil_length_inv _ e0). simpl.
    rewrite (drop_ge data) by lia. by rewrite app_nil_r, Nat.sub_0_r.
  - simplify_eq.
    set (bs := bytes_from (content f) (file_offset + total) (length data - total)) in *.
    assert (length bs ≤ length data - total) by (by apply Hb).
    rewrite H; [|done| |].
    + f_equal. f_equal.
      rewrite (file_page_split _ (file_offset + total) (length data - total)).
      fold bs. rewrite app_assoc. f_equal.
      * unfold memcpy_into. rewrite app_assoc.
        rewrite take_app_le, take_ge; [done| |];
          rewrite length_app, length_take; lia.
      * f_equal; lia.
    + rewrite length_memcpy_into; [done|]. lia.
    + lia.
Qed.

Lemma load_from_fd_no_fault (p : Page) (f : File) (off : nat) :
  script f = [] → length (data_ p) = page_size_ p →
  load_from_fd p f off
  = (true,
     set_dirty (set_loaded (set_data p (file_page (content f) off (page_size_ p))) true) false,
     f).
Proof.
  intros Hs Hlen. unfold load_from_fd.
  rewrite load_loop_no_fault by (done || lia).
  by rewrite Nat.add_0_r, Nat.sub_0_r.
Qed.

(** What [load_from_fd] does to a page, whatever the faults. *)
Lemma load_from_fd_shape (p p' : Page) (f f' : File) (off : nat) (ok : bool) :
  length (data_ p) = page_size_ p →
  load_from_fd p f off = (ok, p', f') →
  page_id_ p' = page_id_ p ∧ page_size_ p' = page_size_ p ∧
  pin_count_ p' = pin_count_ p ∧ length (data_ p') = page_size_ p ∧
  content f' = content f ∧ (script f = [] → script f' = []) ∧
  (if ok then loaded_ p' = true ∧ dirty_ p' = false
   else loaded_ p' = loaded_ p ∧ dirty_ p' = dirty_ p).
Proof.
  intros Hlen. unfold load_from_fd.
  destruct (load_loop f off (page_size_ p) (data_ p) 0) as [[ok1 d1] f1] eqn:Hl.
  destruct (load_loop_shape _ _ _ _ _ Hlen _ _ _ Hl) as (? & ? & ?).
  destruct ok1; intros ?; simplify_eq/=; done.
Qed.

Lemma pwrite_inv (f f' : File) (src : list byte) (count off : nat) (r : sys_result nat) :
  pwrite f src count off = (r, f') →
  (script f = [] →
     r = SysRet count ∧ f' = mkFile (store_at (content f) off (take count src)) []) ∧
  (∀ w, r = SysRet w →
     w ≤ count ∧ content f' = store_at (content f) off (take w src)) ∧
  (∀ e, r = SysErr e → content f' = content f).
Proof.
  unfold pwrite. intros Hp.
  destruct f as [c [|[] sc]]; simplify_eq/=; repeat split; try done.
  all: simplify_eq; done || lia.
Qed.

Lemma bytes_from_store_at_extend (c pre bs : list byte) (off : nat) :
  bytes_from c off (length pre) = pre →
  bytes_from (store_at c (off + length pre) bs) off (length pre + length bs)
  = pre ++ bs.
Proof.
  intros Hpre. unfold store_at. destruct bs as [|b bs].
  { by rewrite Nat.add_0_r, app_nil_r. }
  set (bs' := b :: bs).
  assert (length pre = 0 ∨ off + length pre ≤ length c) as Hcase.
  { apply (f_equal length) in Hpre. rewrite length_bytes_from in Hpre. lia. }
  unfold bytes_from in *.
  rewrite app_assoc, drop_app_le; last first.
  { rewrite length_app, length_take, length_replicate. lia. }
  rewrite take_app_add'; last first.
  { rewrite length_drop, length_app, length_take, length_replicate. lia. }
  rewrite take_app_length. f_equal.
  destruct Hcase as [H0|Hle].
  - rewrite (nil_length_inv _ H0). apply nil_length_inv.
    rewrite length_drop, length_app, length_take, length_replicate. simpl. lia.
  - replace (off + length pre - length c) with 0 by lia. simpl.
    rewrite app_nil_r, <- take_drop_commute. done.
Qed.

Lemma flush_loop_persists (f : File) (off size : nat) (tmp : list byte) (total : nat) :
  length tmp = size → total ≤ size →
  bytes_from (content f) off total = take total tmp →
  ∀ f', flush_loop f off size tmp total = (true, f') →
    bytes_from (content f') off size = tmp.
Proof.
  funelim (flush_loop f off size tmp total); intros Hlen Htot Hpre f1 Hres;
    try match goal with
        | Hp : pwrite _ _ _ _ = _ |- _ =>
            let Hs := fresh "Hs" in let Hw := fresh "Hw" in let He := fresh "He" in
            pose proof (pwrite_inv _ _ _ _ _ _ Hp) as (Hs & Hw & He)
        end.
  - simplify_eq. replace total with (length tmp) in Hpre by lia.
    by rewrite Hpre, take_ge.
  - destruct (Hw _ eq_refl) as [Hle Hc].
    apply (H Hlen); [lia| |done].
    rewrite Hc.
    assert (length (take total tmp) = total) as Hlt by (rewrite length_take; lia).
    assert (length (take w (drop total tmp)) = w) as Hlw.
    { rewrite length_take, length_drop. lia. }
    rewrite <- (take_take_drop tmp total w).
    pose proof (bytes_from_store_at_extend (content f) (take total tmp)
                  (take w (drop total tmp)) file_offset) as Hx.
    rewrite Hlt, Hlw in Hx. by apply Hx.
  - apply (H Hlen Htot); [|done]. rewrite (He _ eq_refl). done.
  - simplify_eq.
Qed.

Lemma flush_loop_no_fault (f : File) (off size : nat) (tmp : list byte) (total : nat) :
  script f = [] → length tmp = size → total ≤ size →
  flush_loop f off size tmp total
  = (true, mkFile (store_at (content f) (off + total) (drop total tmp)) []).
Proof.
  funelim (flush_loop f off size tmp total); intros Hs Hlen Htot;
    try match goal with
        | Hp : pwrite _ _ _ _ = _ |- _ =>
            let Hs' := fresh "Hs" in
            pose proof (pwrite_inv _ _ _ _ _ _ Hp) as (Hs' & _ & _);
            destruct (Hs' Hs) as [Hr ->]; try discriminate Hr
        end.
  - rewrite drop_ge by lia. destruct f; simplify_eq/=. done.
  - simplify_eq. rewrite H by (done || lia). simpl.
    rewrite (drop_ge tmp (total + _)) by lia. simpl.
    rewrite take_ge by (rewrite length_drop; lia). done.
Qed.

(** What [flush_to_fd] does to a page and to the file, whatever the faults. *)
Lemma flush_to_fd_shape (p p' : Page) (f f' : File) (off : nat) (ok : bool) :
  flush_to_fd p f off = (ok, p', f') →
  (p' = p ∨ p' = set_dirty p false) ∧
  (ok = true → loaded_ p = true ∧ dirty_ p' = false) ∧
  (ok = false → p' = p) ∧
  (dirty_ p = false → p' = p ∧ f' = f) ∧
  (script f = [] → script f' = [] ∧ ok = loaded_ p) ∧
  (ok = true → dirty_ p = true → length (data_ p) = page_size_ p →
     bytes_from (content f') off (page_size_ p) = data_ p).
Proof.
  unfold flush_to_fd.
  destruct (loaded_ p) eqn:Hl; simpl;
    [|intros; simplify_eq; repeat split; auto; done].
  destruct (dirty_ p) eqn:Hd; simpl;
    [|intros; simplify_eq; repeat split; auto; done].
  set (tmp := memcpy_into _ _ _).
  destruct (flush_loop f off (page_size_ p) tmp 0) as [ok1 f1] eqn:Hfl.
  assert (length tmp = page_size_ p) as Htmp.
  { unfold tmp. rewrite length_memcpy_into; rewrite ?length_replicate; [done|].
    rewrite length_take. simpl. lia. }
  assert (script f = [] → script f1 = [] ∧ ok1 = true) as Hnf.
  { intros Hs. rewrite flush_loop_no_fault in Hfl by (done || lia).
    by simplify_eq. }
  destruct ok1; intros ?; simplify_eq/=; repeat split; auto; try done;
    try (by match goal with Hs : script _ = [] |- _ => destruct (Hnf Hs) end).
  intros _ _ Hlen.
  rewrite (flush_loop_persists _ _ _ _ _ Htmp (Nat.le_0_l _) eq_refl _ Hfl).
  unfold tmp, memcpy_into. simpl.
  rewrite take_ge by lia.
  rewrite drop_ge, app_nil_r; [done|]. rewrite length_replicate. lia.
Qed.

(** ** Member functions of the pool, step by step *)

Lemma Pool_eta (st : Pool) :
  mkPool (fd_ st) (capacity_ st) (pool_page_size_ st) (heap_ st) (next_loc_ st)
    (page_table_ st) (lru_list_ st) (hit_count_ st) (miss_count_ st) (log_ st) = st.
Proof. by destruct st. Qed.

(** The state after [FlushPage] on a page [p] at location [l]. *)
Lemma FlushPage_spec (st : Pool) (l : nat) (p : Page) :
  heap_ st !! l = Some p →
  ∃ ok p' fd',
    FlushPage l st
    = Ok (ok, set_fd (set_heap st (<[l := p']> (heap_ st)) (next_loc_ st)) fd') ∧
    (if dirty_ p
     then flush_to_fd p (fd_ st) (page_id_ p * pool_page_size_ st) = (ok, p', fd')
     else ok = true ∧ p' = p ∧ fd' = fd_ st).
Proof.
  intros Hp. unfold FlushPage, bind, deref. rewrite Hp.
  destruct (dirty_ p) eqn:Hd; simpl.
  - destruct (flush_to_fd p (fd_ st) (page_id_ p * pool_page_size_ st))
      as [[ok p'] fd'] eqn:Hfl.
    exists ok, p', fd'. done.
  - exists true, p, (fd_ st). split; [|done].
    unfold ret, set_fd, set_heap. simpl.
    rewrite insert_id by done. by rewrite Pool_eta.
Qed.

(** [FlushPage] changes one page, and there only the dirty flag. *)
Lemma FlushPage_shape (st : Pool) (l : nat) (p : Page) :
  heap_ st !! l = Some p →
  ∃ ok p' fd',
    FlushPage l st
    = Ok (ok, set_fd (set_heap st (<[l := p']> (heap_ st)) (next_loc_ st)) fd') ∧
    (p' = p ∨ p' = set_dirty p false) ∧
    (ok = true → dirty_ p' = false) ∧
    (ok = false → p' = p) ∧
    (script (fd_ st) = [] → script fd' = [] ∧ (loaded_ p = true → ok = true)) ∧
    (dirty_ p = false → fd' = fd_ st).
Proof.
  intros Hp. destruct (FlushPage_spec st l p Hp) as (ok & p' & fd' & Heq & Hfl).
  exists ok, p', fd'. split; [done|].
  destruct (dirty_ p) eqn:Hd.
  - destruct (flush_to_fd_shape _ _ _ _ _ _ Hfl) as (H1 & H2 & H3 & H4 & H5 & H6).
    split; [done|]. split; [intros Hok; by destruct (H2 Hok)|].
    split; [done|]. split; [|done].
    intros Hs. destruct (H5 Hs). split; [done|congruence].
  - destruct Hfl as (-> & -> & ->). repeat split; auto.
Qed.

(** The walk either finds every remaining page pinned and logs the
    warning, or flushes and removes the first page that is not pinned. *)
Lemma evict_walk_spec (st : Pool) (rest visited : list nat) :
  handles_live st →
  (∀ pid, pid ∈ rest → is_Some (page_table_ st !! pid)) →
  reverse (lru_list_ st) = visited ++ rest →
  (Forall (pinned_in st) rest ∧
   evict_walk rest (length visited) st
   = Ok (tt, set_log st (log_ st ++ [LogAllPinned])))
  ∨ (∃ r1 pid r2 l p ok st1,
       rest = r1 ++ pid :: r2 ∧ Forall (pinned_in st) r1 ∧
       page_table_ st !! pid = Some l ∧ heap_ st !! l = Some p ∧
       pin_count_ p = 0%Z ∧
       FlushPage l st = Ok (ok, st1) ∧
       evict_walk rest (length visited) st
       = Ok (tt, set_lru_list (set_page_table st1 (delete pid (page_table_ st)))
                   (reverse r2 ++ reverse (visited ++ r1)))).
Proof.
  intros Hlive. revert visited.
  induction rest as [|pid rest IH]; intros visited Hres Hrev.
  { left. split; [constructor|]. done. }
  destruct (Hres pid ltac:(left)) as [l Hl].
  destruct (Hlive _ _ Hl) as [p Hp].
  destruct (decide (pin_count_ p = 0%Z)) as [Hpin|Hpin].
  - right.
    destruct (FlushPage_spec st l p Hp) as (ok & p' & fd' & Hfl & _).
    eexists [], pid, rest, l, p, ok, _.
    split; [done|]. split; [constructor|]. do 3 (split; [done|]).
    split; [exact Hfl|].
    simpl. unfold bind at 1, get. simpl. rewrite Hl.
    unfold bind at 1, deref. rewrite Hp. simpl.
    rewrite decide_True by done.
    unfold bind at 1. rewrite Hfl. unfold bind, modify, ret. simpl.
    do 3 f_equal. rewrite app_nil_r.
    apply (f_equal reverse) in Hrev. rewrite reverse_involutive in Hrev.
    rewrite Hrev, reverse_app, reverse_cons, <- app_assoc. simpl.
    replace (length (reverse rest ++ pid :: reverse visited) - 1 - length visited)
      with (length (reverse rest)).
    + apply delete_middle.
    + rewrite length_app. simpl. rewrite !length_reverse. lia.
  - destruct (IH (visited ++ [pid])) as [[Hall Heq]|Hev].
    + intros k Hk. apply Hres. by right.
    + by rewrite <- app_assoc.
    + left. split.
      * constructor; [|done]. intros q Hq. unfold resident in Hq.
        rewrite Hl in Hq. simpl in Hq. congruence.
      * simpl. unfold bind at 1, get. simpl. rewrite Hl.
        unfold bind at 1, deref. rewrite Hp. simpl.
        rewrite decide_False by done.
        rewrite length_app in Heq. simpl in Heq.
        by rewrite Nat.add_1_r in Heq.
    + right. destruct Hev as (r1 & k & r2 & l' & p' & ok & st1 & -> & Hr1 & ? & ? & ? & ? & Heq).
      exists (pid :: r1), k, r2, l', p', ok, st1.
      split; [done|]. split.
      { constructor; [|done]. intros q Hq. unfold resident in Hq.
        rewrite Hl in Hq. simpl in Hq. congruence. }
      do 4 (split; [done|]).
      simpl. unfold bind at 1, get. simpl. rewrite Hl.
      unfold bind at 1, deref. rewrite Hp. simpl.
      rewrite decide_False by done.
      rewrite length_app in Heq. simpl in Heq.
      rewrite Nat.add_1_r in Heq. rewrite Heq.
      by rewrite <- !app_assoc.
Qed.

Lemma wf_unfold (st : Pool) :
  wf st ↔
  NoDup (lru_list_ st) ∧
  (∀ k, k ∈ lru_list_ st ↔ is_Some (page_table_ st !! k)) ∧
  (∀ k l, page_table_ st !! k = Some l → is_Some (heap_ st !! l)).
Proof.
  unfold wf, index_recency_bijection, handles_live, map_Forall.
  split.
  - intros [[Hnd Hdom] Hlive]. repeat split; try done.
    + intros Hk. apply elem_of_dom. rewrite Hdom. by apply elem_of_list_to_set.
    + intros Hk. apply elem_of_dom in Hk. rewrite Hdom in Hk.
      by apply elem_of_list_to_set in Hk.
  - intros (Hnd & Hdom & Hlive). repeat split; try done.
    apply set_eq. intros k. by rewrite elem_of_dom, elem_of_list_to_set.
Qed.

Lemma EvictIfNeeded_spec (st : Pool) :
  wf st → ∃ st', EvictIfNeeded st = Ok (tt, st') ∧ evicted st st'.
Proof.
  intros (Hnd & Hdom & Hlive)%wf_unfold. unfold EvictIfNeeded, bind, get.
  destruct (decide (size (page_table_ st) < capacity_ st)) as [Hlt|Hge].
  { exists st. split; [done|]. by constructor. }
  destruct (evict_walk_spec st (reverse (lru_list_ st)) [] Hlive) as [[Hall Heq]|Hev].
  - intros pid Hpid. apply Hdom. by apply elem_of_reverse.
  - done.
  - eexists. split; [exact Heq|]. apply ev_all_pinned; [done|].
    intros k p Hk. rewrite Forall_forall in Hall. apply (Hall k); [|done].
    apply elem_of_reverse, Hdom. unfold resident in Hk.
    destruct (page_table_ st !! k); [done|discriminate].
  - destruct Hev as (r1 & pid & r2 & l & p & ok & st1 & Hrev & Hr1 & ? & ? & ? & ? & Heq).
    eexists. split; [exact Heq|]. simpl.
    apply (ev_victim st (reverse r2) (reverse r1) pid l p ok st1); try done.
    + apply (f_equal reverse) in Hrev. rewrite reverse_involutive in Hrev.
      by rewrite Hrev, reverse_app, reverse_cons, <- app_assoc.
    + rewrite Forall_forall in *. intros k Hk. apply Hr1. by apply elem_of_reverse.
Qed.

Lemma LoadPageFromDisk_spec (no page_size : nat) (st : Pool) :
  LoadPageFromDisk no page_size st
  = Ok (Some (next_loc_ st),
        let pf := fresh_page no page_size (fd_ st) in
        set_fd (set_heap st (<[next_loc_ st := pf.1]> (heap_ st)) (S (next_loc_ st))) pf.2).
Proof.
  unfold LoadPageFromDisk, fresh_page, bind, make_shared, deref, get. simpl.
  rewrite lookup_insert_eq.
  destruct (load_from_fd (Page_new no page_size) (fd_ st) (no * page_size))
    as [[ok p'] fd'] eqn:Hl.
  unfold store, modify, ret, set_fd, set_heap. simpl. rewrite Hl.
  destruct ok; simpl; by rewrite ?insert_insert_eq.
Qed.

Lemma GetPage_hit (no page_size : nat) (st : Pool) (l : nat) :
  page_table_ st !! no = Some l →
  GetPage no page_size st
  = Ok (Some l,
        set_lru_list (set_hit_count st (fetch_add_1 (hit_count_ st)))
          (no :: filter (λ x, x ≠ no) (lru_list_ st))).
Proof. intros Hl. unfold GetPage, bind, get. by rewrite Hl. Qed.

Lemma GetPage_miss (no page_size : nat) (st : Pool) :
  wf st → page_table_ st !! no = None →
  ∃ st1, evicted (set_miss_count st (fetch_add_1 (miss_count_ st))) st1 ∧
    GetPage no page_size st = Ok (Some (next_loc_ st1), publish no page_size st1).
Proof.
  intros Hwf Hno. unfold GetPage, bind at 1, get. rewrite Hno.
  unfold bind at 1, modify.
  set (st0 := set_miss_count st _).
  destruct (EvictIfNeeded_spec st0) as (st1 & Hev & Hrel); [done|].
  exists st1. split; [done|].
  unfold bind at 1. rewrite Hev.
  unfold bind at 1. rewrite LoadPageFromDisk_spec. done.
Qed.

(** ** Consistency is kept by every step *)

Lemma FlushPage_inv (st st1 : Pool) (l : nat) (p : Page) (ok : bool) :
  heap_ st !! l = Some p → FlushPage l st = Ok (ok, st1) →
  ∃ p' fd',
    st1 = set_fd (set_heap st (<[l := p']> (heap_ st)) (next_loc_ st)) fd' ∧
    (p' = p ∨ p' = set_dirty p false) ∧
    (ok = true → dirty_ p' = false) ∧
    (ok = false → p' = p) ∧
    (script (fd_ st) = [] → script fd' = [] ∧ (loaded_ p = true → ok = true)) ∧
    (dirty_ p = false → fd' = fd_ st) ∧
    (if dirty_ p
     then flush_to_fd p (fd_ st) (page_id_ p * pool_page_size_ st) = (ok, p', fd')
     else ok = true ∧ p' = p ∧ fd' = fd_ st).
Proof.
  intros Hp Hfl.
  destruct (FlushPage_shape st l p Hp) as (ok' & p' & fd' & Heq & H1 & H2 & H3 & H4 & H5).
  destruct (FlushPage_spec st l p Hp) as (ok2 & p2 & fd2 & Heq2 & Hfl2).
  rewrite Heq in Hfl. simplify_eq. exists p', fd'.
  rewrite Heq in Heq2. simplify_eq.
  match goal with
  | H : <[l:=_]> _ = <[l:=_]> _ |- _ =>
      apply (f_equal (λ h, h !! l)) in H; rewrite !lookup_insert_eq in H;
      simplify_eq
  end.
  repeat split; try done; by destruct H4.
Qed.

Lemma same_pages_after_flush (p p' : Page) :
  p' = p ∨ p' = set_dirty p false →
  page_id_ p' = page_id_ p ∧ page_size_ p' = page_size_ p ∧
  data_ p' = data_ p ∧ pin_count_ p' = pin_count_ p ∧ loaded_ p' = loaded_ p.
Proof. by intros [->| ->]. Qed.

Lemma wf_heap_update (st : Pool) (l : nat) (p p' : Page) (fd : File) :
  heap_ st !! l = Some p → wf st →
  wf (set_fd (set_heap st (<[l := p']> (heap_ st)) (next_loc_ st)) fd).
Proof.
  intros Hp (Hnd & Hdom & Hlive)%wf_unfold. apply wf_unfold.
  split; [done|]. split; [done|].
  intros k l' Hk. simpl in *. apply lookup_insert_is_Some'. right. eauto.
Qed.

Lemma wf_set_heap (st : Pool) (l : nat) (p p' : Page) :
  heap_ st !! l = Some p → wf st →
  wf (set_heap st (<[l := p']> (heap_ st)) (next_loc_ st)).
Proof. intros Hp Hwf. exact (wf_heap_update st l p p' (fd_ st) Hp Hwf). Qed.

Lemma elem_of_remove_middle (front back : list nat) (pid : nat) :
  NoDup (front ++ pid :: back) →
  NoDup (front ++ back) ∧
  ∀ k, k ∈ front ++ back ↔ k ≠ pid ∧ k ∈ front ++ pid :: back.
Proof.
  intros Hnd. apply NoDup_app in Hnd as (Hf & Hfb & Hb).
  apply NoDup_cons in Hb as [Hpb Hb]. split.
  - apply NoDup_app. repeat split; try done.
    intros x Hx Hxb. apply (Hfb x Hx). by right.
  - intros k. rewrite !elem_of_app, elem_of_cons. split.
    + intros [Hk|Hk]; (split; [|tauto]); intros ->.
      * apply (Hfb pid Hk). by left.
      * done.
    + intros [Hne [?|[?|?]]]; tauto.
Qed.

Lemma wf_evicted (st st' : Pool) : wf st → evicted st st' → wf st'.
Proof.
  intros Hwf Hev. destruct Hev as [|? ?|front back pid l p ok st1 Hge Hlru Hback Hl Hp Hpin Hfl];
    [done|done|].
  destruct (FlushPage_inv _ _ _ _ _ Hp Hfl) as (p' & fd' & -> & _).
  apply wf_unfold in Hwf as (Hnd & Hdom & Hlive). rewrite Hlru in Hnd, Hdom.
  destruct (elem_of_remove_middle _ _ _ Hnd) as [Hnd' Hin].
  apply wf_unfold. split; [|split]; simpl.
  - done.
  - intros k. rewrite Hin, lookup_delete_is_Some, Hdom. naive_solver.
  - intros k l' Hk. simpl in *. apply lookup_delete_Some in Hk as [_ Hk].
    apply lookup_insert_is_Some'. right. eauto.
Qed.

Lemma wf_publish (st : Pool) (no page_size : nat) :
  wf st → page_table_ st !! no = None → wf (publish no page_size st).
Proof.
  intros (Hnd & Hdom & Hlive)%wf_unfold Hno. unfold publish.
  apply wf_unfold. split; [|split]; simpl.
  - apply NoDup_cons. split; [|done]. rewrite Hdom, Hno. by intros [? ?].
  - intros k. rewrite elem_of_cons, lookup_insert_is_Some, Hdom.
    destruct (decide (no = k)); naive_solver.
  - intros k l Hk. simpl in Hk. apply lookup_insert_is_Some'.
    apply lookup_insert_Some in Hk as [[_ <-]|[_ Hk]]; [by left|right; eauto].
Qed.

Lemma wf_touch (st : Pool) (no : nat) (c : N) :
  wf st → is_Some (page_table_ st !! no) →
  wf (set_lru_list (set_hit_count st c) (no :: filter (λ x, x ≠ no) (lru_list_ st))).
Proof.
  intros (Hnd & Hdom & Hlive)%wf_unfold Hno.
  apply wf_unfold. split; [|split]; simpl; [| |done].
  - apply NoDup_cons. split; [|by apply NoDup_filter].
    rewrite list_elem_of_filter. naive_solver.
  - intros k. rewrite elem_of_cons, list_elem_of_filter, Hdom.
    destruct (decide (k = no)); naive_solver.
Qed.

Lemma wf_set_miss_count (st : Pool) (c : N) : wf st → wf (set_miss_count st c).
Proof. done. Qed.

(** [GetPage] never yields a null handle. *)
Lemma GetPage_total (no page_size : nat) (st : Pool) :
  wf st →
  ∃ l p st1, GetPage no page_size st = Ok (Some l, st1) ∧ wf st1 ∧
    page_table_ st1 !! no = Some l ∧ heap_ st1 !! l = Some p ∧
    (log_ st1 = log_ st ∨ log_ st1 = log_ st ++ [LogAllPinned]) ∧
    capacity_ st1 = capacity_ st ∧ pool_page_size_ st1 = pool_page_size_ st.
Proof.
  intros Hwf. destruct (page_table_ st !! no) as [l|] eqn:Hno.
  - apply wf_unfold in Hwf as Hwf'. destruct Hwf' as (Hnd & Hdom & Hlive).
    destruct (Hlive _ _ Hno) as [p Hp].
    exists l, p. eexists. split; [by apply GetPage_hit|].
    split; [by apply wf_touch|]. simpl. repeat split; try done. by left.
  - destruct (GetPage_miss no page_size st Hwf Hno) as (st1 & Hev & Heq).
    assert (wf st1) as Hwf1 by (eapply wf_evicted; [|done]; done).
    assert (page_table_ st1 !! no = None ∧
            (log_ st1 = log_ st ∨ log_ st1 = log_ st ++ [LogAllPinned]) ∧
            capacity_ st1 = capacity_ st ∧ pool_page_size_ st1 = pool_page_size_ st)
      as (Hno1 & Hlog & Hcap & Hps).
    { destruct Hev as [|? ?|front back pid l p ok st2 Hge Hlru Hback Hl Hp Hpin Hfl];
        simpl; auto.
      destruct (FlushPage_inv _ _ _ _ _ Hp Hfl) as (p' & fd' & -> & _). simpl.
      split; [|auto]. apply lookup_delete_None. by right. }
    eexists _, _, _. split; [exact Heq|].
    split; [by apply wf_publish|]. unfold publish. simpl.
    by rewrite !lookup_insert_eq.
Qed.

#[local] Arguments ReadAt : simpl never.
#[local] Arguments WriteAt : simpl never.
#[local] Arguments pin : simpl never.
#[local] Arguments unpin : simpl never.

Lemma ReadAt_Some_ok (p : Page) (offset len : nat) (buf : list byte) :
  ∃ n out, ReadAt p offset (Some buf) len = Ok (n, out).
Proof.
  unfold ReadAt. case_decide; [by eexists _, _|].
  destruct (negb (loaded_ p)); by eexists _, _.
Qed.

Lemma WriteAt_Some_ok (p : Page) (offset len : nat) (buf : list byte) :
  ∃ n p', WriteAt p offset (Some buf) len = Ok (n, p') ∧
    page_id_ p' = page_id_ p ∧ page_size_ p' = page_size_ p ∧
    pin_count_ p' = pin_count_ p.
Proof. unfold WriteAt. case_decide; by eexists _, _. Qed.

(** After a successful [GetPage], [read_page] pins the page, reads it and
    unpins it. *)
Lemma read_page_spec (no page_size : nat) (buf : list byte) (st st1 : Pool)
    (l : nat) (p : Page) :
  GetPage no page_size st = Ok (Some l, st1) → heap_ st1 !! l = Some p →
  ∃ n out, ReadAt (pin p) 0 (Some buf) page_size = Ok (n, out) ∧
    read_page no page_size buf st
    = Ok (out, set_heap st1 (<[l := (unpin (pin p)).2]> (heap_ st1)) (next_loc_ st1)).
Proof.
  intros Hget Hp.
  destruct (ReadAt_Some_ok (pin p) 0 page_size buf) as (n & out & Hrd).
  exists n, out. split; [done|].
  unfold read_page, bind at 1. rewrite Hget.
  unfold PinGuard_enter, PinGuard_leave, bind, deref, store, modify, ret. simpl.
  rewrite Hp. simpl. rewrite lookup_insert_eq, Hrd. simpl.
  rewrite lookup_insert_eq. unfold set_heap. simpl.
  by rewrite insert_insert_eq.
Qed.

(** After a successful [GetPage], [write_page] pins the page, writes it and
    unpins it. *)
Lemma write_page_spec (no page_size : nat) (buf : list byte) (st st1 : Pool)
    (l : nat) (p : Page) :
  GetPage no page_size st = Ok (Some l, st1) → heap_ st1 !! l = Some p →
  ∃ n p', WriteAt (pin p) 0 (Some buf) page_size = Ok (n, p') ∧
    write_page no page_size buf st
    = Ok (tt, set_heap st1 (<[l := (unpin p').2]> (heap_ st1)) (next_loc_ st1)).
Proof.
  intros Hget Hp.
  destruct (WriteAt_Some_ok (pin p) 0 page_size buf) as (n & p' & Hwr & _).
  exists n, p'. split; [done|].
  unfold write_page, bind at 1. rewrite Hget.
  unfold PinGuard_enter, PinGuard_leave, bind, deref, store, modify, ret. simpl.
  rewrite Hp. simpl. rewrite lookup_insert_eq, Hwr. simpl.
  rewrite lookup_insert_eq. unfold set_heap. simpl.
  by rewrite !insert_insert_eq.
Qed.

(** A property kept by [FlushPage] on resident pages is kept by
    [FlushAll], which always returns. *)
Lemma flush_each_preserves (I : Pool → Prop) (pages : list (nat * nat)) (st : Pool) :
  (∀ st, I st → handles_live st) →
  (∀ st k l ok st1, I st → page_table_ st !! k = Some l →
     FlushPage l st = Ok (ok, st1) → I st1) →
  I st → (∀ k l, (k, l) ∈ pages → page_table_ st !! k = Some l) →
  ∃ st', flush_each pages st = Ok (tt, st') ∧ I st' ∧
    page_table_ st' = page_table_ st.
Proof.
  intros Hlive Hstep. revert st.
  induction pages as [|[k l] pages IH]; intros st HI Hres.
  { by exists st. }
  assert (page_table_ st !! k = Some l) as Hk by (apply Hres; left).
  destruct (Hlive _ HI _ _ Hk) as [p Hp].
  destruct (FlushPage_spec st l p Hp) as (ok & p' & fd' & Hfl & _).
  destruct (IH _ (Hstep _ _ _ _ _ HI Hk Hfl)) as (st' & Heq & HI' & Ht).
  { intros k' l' Hin. simpl. apply Hres. by right. }
  exists st'. split; [|done].
  simpl. unfold bind at 1. by rewrite Hfl.
Qed.

Lemma FlushAll_preserves (I : Pool → Prop) (st : Pool) :
  (∀ st, I st → handles_live st) →
  (∀ st k l ok st1, I st → page_table_ st !! k = Some l →
     FlushPage l st = Ok (ok, st1) → I st1) →
  I st →
  ∃ st', FlushAll st = Ok (tt, st') ∧ I st' ∧ page_table_ st' = page_table_ st.
Proof.
  intros Hlive Hstep HI. unfold FlushAll, bind at 1, get.
  apply flush_each_preserves; try done.
  intros k l Hin. by apply elem_of_map_to_list in Hin.
Qed.

Lemma wf_FlushPage (st st1 : Pool) (k l : nat) (ok : bool) :
  wf st → page_table_ st !! k = Some l → FlushPage l st = Ok (ok, st1) → wf st1.
Proof.
  intros Hwf Hk Hfl.
  apply wf_unfold in Hwf as Hwf'. destruct Hwf' as (_ & _ & Hlive).
  destruct (Hlive _ _ Hk) as [p Hp].
  destruct (FlushPage_inv _ _ _ _ _ Hp Hfl) as (p' & fd' & -> & _).
  by eapply wf_heap_update.
Qed.

Lemma wf_new (file_name : string) (cfg : gmap nat nat) (f : File) (st0 : Pool) :
  LRUBufferPool_new file_name cfg (Some f) = Ok st0 → wf st0.
Proof.
  unfold LRUBufferPool_new. destruct (map_begin cfg) as [[s c]|]; intros ?;
    simplify_eq; apply wf_unfold; simpl; repeat split; try done;
    try apply NoDup_nil_2; try (by intros ?%elem_of_nil);
    by intros [? ?%lookup_empty_Some].
Qed.

(** Every public operation returns and keeps the pool consistent. *)
Lemma run_op_wf (st : Pool) (o : op) :
  wf st → ∃ r st', run_op o st = Ok (r, st') ∧ wf st'.
Proof.
  intros Hwf. destruct o as [no s buf|no s buf|]; simpl.
  - destruct (GetPage_total no s st Hwf) as (l & p & st1 & Hget & Hwf1 & _ & Hp & _).
    destruct (read_page_spec no s buf _ _ _ _ Hget Hp) as (n & out & _ & Heq).
    eexists _, _. split; [exact Heq|]. by eapply wf_set_heap.
  - destruct (GetPage_total no s st Hwf) as (l & p & st1 & Hget & Hwf1 & _ & Hp & _).
    destruct (write_page_spec no s buf _ _ _ _ Hget Hp) as (n & p' & _ & Heq).
    eexists _, _. split; [unfold bind; rewrite Heq; done|].
    by eapply wf_set_heap.
  - destruct (FlushAll_preserves wf st) as (st' & Heq & Hwf' & _); try done.
    + by intros ? [_ ?].
    + intros. by eapply wf_FlushPage.
    + eexists _, _. split; [unfold bind; rewrite Heq; done|done].
Qed.

Lemma Page_new_length (no page_size : nat) :
  length (data_ (Page_new no page_size)) = page_size_ (Page_new no page_size).
Proof. simpl. by rewrite length_replicate. Qed.

(** The page of a miss: loaded from the file, or, when the load failed,
    zero-filled and not loaded. *)
Lemma fresh_page_shape (no page_size : nat) (fd : File) :
  let ok := (load_from_fd (Page_new no page_size) fd (no * page_size)).1.1 in
  let pf := fresh_page no page_size fd in
  page_id_ pf.1 = no ∧ page_size_ pf.1 = page_size ∧
  pin_count_ pf.1 = 0%Z ∧ length (data_ pf.1) = page_size ∧
  dirty_ pf.1 = false ∧ loaded_ pf.1 = ok ∧
  (ok = false → data_ pf.1 = replicate page_size zero_byte) ∧
  content pf.2 = content fd ∧ (script fd = [] → script pf.2 = [] ∧ ok = true).
Proof.
  unfold fresh_page.
  destruct (load_from_fd (Page_new no page_size) fd (no * page_size))
    as [[ok p'] fd'] eqn:Hl.
  destruct (load_from_fd_shape _ _ _ _ _ _ (Page_new_length no page_size) Hl)
    as (Hid & Hsz & Hpin & Hlen & Hc & Hs & Hok).
  simpl in *.
  assert (script fd = [] → ok = true) as Hnf.
  { intros Hsc. rewrite load_from_fd_no_fault in Hl; [by simplify_eq|done|].
    apply Page_new_length. }
  destruct ok; simpl.
  - destruct Hok. repeat split; auto. done.
  - destruct Hok as [Hlo Hdi].
    assert (memset_zero (data_ p') 0 page_size = replicate page_size zero_byte) as ->.
    { unfold memset_zero. simpl. rewrite drop_ge by lia. by rewrite app_nil_r. }
    rewrite length_replicate. repeat split; auto;
      intros Hsc; by specialize (Hnf Hsc).
Qed.

(** ** Index and Recency *)

(** C8.  The constructor returns a pool whose Index and Recency agree, and
    every public operation (read_page, write_page, FlushAll), started in a
    state where they agree and every handle is live, returns and leaves them
    in agreement: a page number is a key of [page_table_] exactly when it
    occurs in [lru_list_], and it occurs there once.  This holds whatever
    the pin counts and whatever the I/O faults. *)
Theorem index_recency_bijection_invariant :
  (∀ file_name cfg f st0,
     LRUBufferPool_new file_name cfg (Some f) = Ok st0 →
     index_recency_bijection st0 ∧ handles_live st0) ∧
  (∀ st o,
     index_recency_bijection st → handles_live st →
     ∃ r st', run_op o st = Ok (r, st') ∧
       index_recency_bijection st' ∧ handles_live st' ∧
       NoDup (lru_list_ st') ∧
       ∀ k, k ∈ lru_list_ st' ↔ is_Some (page_table_ st' !! k)).
Proof.
  split.
  - intros file_name cfg f st0 Hnew. by apply (wf_new file_name cfg f).
  - intros st o Hbij Hlive.
    destruct (run_op_wf st o) as (r & st' & Heq & Hwf'); [done|].
    exists r, st'. split; [done|].
    destruct Hwf' as [Hb Hl]. do 2 (split; [done|]).
    by destruct (proj1 (wf_unfold st') (conj Hb Hl)) as (? & ? & _).
Qed.

Lemma index_recency_bijection_invariant_witness :
  ∃ r st',
    run_op (OpWrite 7 8 (replicate 8 "W"%byte))
      (mkPool (mkFile [] []) 2 8
         {[0 := Page_new 3 8; 1 := set_pin_count (Page_new 5 8) 1]} 2
         {[3 := 0; 5 := 1]} [5; 3] 0 2 [])
    = Ok (r, st') ∧ lru_list_ st' = [7; 5].
Proof.
  destruct (proj2 index_recency_bijection_invariant
              (mkPool (mkFile [] []) 2 8
                 {[0 := Page_new 3 8; 1 := set_pin_count (Page_new 5 8) 1]} 2
                 {[3 := 0; 5 := 1]} [5; 3] 0 2 [])
              (OpWrite 7 8 (replicate 8 "W"%byte)))
    as (r & st' & Heq & _).
  - apply (bool_decide_unpack _). vm_compute. exact I.
  - apply (bool_decide_unpack _). vm_compute. exact I.
  - exists r, st'. split; [exact Heq|].
    vm_compute in Heq. injection Heq as _ <-. reflexivity.
Defined.

(** ** Handles *)

(** C10.  [LoadPageFromDisk] always returns a handle, and so does
    [GetPage] on a consistent pool, whatever the I/O faults: a failed load
    leaves a zero-filled page behind instead of a null handle.  Hence
    [read_page] and [write_page] always reach [ReadAt] and [WriteAt] on the
    pinned page, and never write the "Failed to get page" line. *)
Theorem GetPage_never_null (st : Pool) (no page_size : nat) (buf : list byte) :
  wf st →
  (∃ l st', LoadPageFromDisk no page_size st = Ok (Some l, st')) ∧
  ∃ l p st1,
    GetPage no page_size st = Ok (Some l, st1) ∧ heap_ st1 !! l = Some p ∧
    (∃ n out st',
       ReadAt (pin p) 0 (Some buf) page_size = Ok (n, out) ∧
       read_page no page_size buf st = Ok (out, st') ∧
       LogFailedGet no ∉ drop (length (log_ st)) (log_ st')) ∧
    (∃ n p' st',
       WriteAt (pin p) 0 (Some buf) page_size = Ok (n, p') ∧
       write_page no page_size buf st = Ok (tt, st') ∧
       heap_ st' !! l = Some (unpin p').2 ∧
       LogFailedGet no ∉ drop (length (log_ st)) (log_ st')).
Proof.
  intros Hwf. split.
  { eexists _, _. apply LoadPageFromDisk_spec. }
  destruct (GetPage_total no page_size st Hwf)
    as (l & p & st1 & Hget & Hwf1 & _ & Hp & Hlog & _).
  exists l, p, st1. do 2 (split; [done|]).
  assert (LogFailedGet no ∉ drop (length (log_ st)) (log_ st1)) as Hnolog.
  { destruct Hlog as [-> | ->].
    - rewrite drop_all. apply not_elem_of_nil.
    - rewrite drop_app_length. by intros ?%list_elem_of_singleton. }
  split.
  - destruct (read_page_spec no page_size buf _ _ _ _ Hget Hp) as (n & out & Hrd & Heq).
    by eexists n, out, _.
  - destruct (write_page_spec no page_size buf _ _ _ _ Hget Hp) as (n & p' & Hwr & Heq).
    eexists n, p', _. do 2 (split; [done|]). simpl.
    by rewrite lookup_insert_eq.
Qed.

Lemma GetPage_never_null_witness :
  ∃ l st1,
    GetPage 0 8
      (mkPool (mkFile (replicate 8 "Z"%byte) [IoFailed]) 1 8 ∅ 0 ∅ [] 0 0 [])
    = Ok (Some l, st1).
Proof.
  destruct (GetPage_never_null
              (mkPool (mkFile (replicate 8 "Z"%byte) [IoFailed]) 1 8 ∅ 0 ∅ [] 0 0 [])
              0 8 (replicate 8 "Q"%byte))
    as (_ & l & p & st1 & Heq & _).
  - apply (bool_decide_unpack _). vm_compute. exact I.
  - by exists l, st1.
Defined.

(** ** Counters and failed loads *)




(** ** Misses while every page is pinned *)





(** ** The constructor *)

Lemma map_begin_list (l : list (nat * nat)) :
  match foldr (λ kv acc,
                 match acc with
                 | Some kv' => if decide (kv'.1 < kv.1) then Some kv' else Some kv
                 | None => Some kv
                 end) None l with
  | None => l = []
  | Some kv => kv ∈ l ∧ ∀ kv', kv' ∈ l → kv.1 ≤ kv'.1
  end.
Proof.
  induction l as [|kv l IH]; [done|]. simpl.
  destruct (foldr _ None l) as [kv0|].
  - destruct IH as [Hin Hmin]. case_decide.
    + split; [by right|]. intros kv' [->|Hin']%elem_of_cons; [lia|by apply Hmin].
    + split; [by left|]. intros kv' [->|Hin']%elem_of_cons; [done|].
      specialize (Hmin _ Hin'). lia.
  - subst l. split; [by left|]. by intros kv' ->%list_elem_of_singleton.
Qed.

(** [map_begin] is the entry with the least key. *)
Lemma map_begin_spec (m : gmap nat nat) :
  match map_begin m with
  | None => m = ∅
  | Some (s, c) => m !! s = Some c ∧ ∀ k, is_Some (m !! k) → s ≤ k
  end.
Proof.
  unfold map_begin. pose proof (map_begin_list (map_to_list m)) as H.
  destruct (foldr _ None (map_to_list m)) as [[s c]|].
  - destruct H as [Hin Hmin]. split; [by apply elem_of_map_to_list|].
    intros k [c' Hk]. by apply (Hmin (k, c')), elem_of_map_to_list.
  - by apply map_to_list_empty_iff.
Qed.

(** C6 as the code has it.  The constructor throws exactly when the backing
    file cannot be opened.  Every page-size map is accepted: the entry with
    the least size gives the page size and the capacity, and the empty map
    gives a pool of capacity 0 and page size 0. *)
Theorem constructor_accepts_every_map (file_name : string) (cfg : gmap nat nat) :
  LRUBufferPool_new file_name cfg None
  = Throw ("Failed to open file: " +:+ file_name) ∧
  ∀ f, ∃ st0,
    LRUBufferPool_new file_name cfg (Some f) = Ok st0 ∧
    fd_ st0 = f ∧ page_table_ st0 = ∅ ∧ lru_list_ st0 = [] ∧
    hit_count_ st0 = 0%N ∧ miss_count_ st0 = 0%N ∧
    (cfg = ∅ → capacity_ st0 = 0 ∧ pool_page_size_ st0 = 0) ∧
    (∀ s c, cfg !! s = Some c → (∀ k, is_Some (cfg !! k) → s ≤ k) →
       pool_page_size_ st0 = s ∧ capacity_ st0 = c).
Proof.
  unfold LRUBufferPool_new. pose proof (map_begin_spec cfg) as Hb.
  destruct (map_begin cfg) as [[s c]|]; (split; [done|]); intros f;
    eexists; (split; [done|]); simpl; do 5 (split; [done|]); split.
  - intros ->. destruct Hb as [Hb _]. by apply lookup_empty_Some in Hb.
  - intros s0 c0 Hs0 Hmin0. destruct Hb as [Hs Hmin].
    assert (s0 = s) as ->.
    { apply Nat.le_antisymm; [apply Hmin0; by eexists|apply Hmin; by eexists]. }
    split; [done|congruence].
  - done.
  - intros s0 c0 Hs0 _. subst cfg. by apply lookup_empty_Some in Hs0.
Qed.

Lemma constructor_accepts_every_map_witness :
  ∃ st0, LRUBufferPool_new "db" {[16 := 4; 8 := 2]} (Some (mkFile [] [])) = Ok st0 ∧
    pool_page_size_ st0 = 8 ∧ capacity_ st0 = 2.
Proof.
  destruct (proj2 (constructor_accepts_every_map "db" {[16 := 4; 8 := 2]}) (mkFile [] []))
    as (st0 & Heq & _ & _ & _ & _ & _ & _ & Hfirst).
  exists st0. split; [exact Heq|].
  apply Hfirst; [reflexivity|].
  intros k [c Hk]. vm_compute in Heq.
  destruct (decide (k = 16)) as [->|?]; [lia|].
  destruct (decide (k = 8)) as [->|?]; [lia|].
  rewrite lookup_insert_ne, lookup_singleton_ne in Hk by done. discriminate.
Defined.

(** The empty page-size map does not make the constructor throw; the pool
    it returns has capacity 0 and serves requests. *)
Lemma empty_map_is_accepted :
  LRUBufferPool_new "db" ∅ (Some (mkFile [] []))
  = Ok (mkPool (mkFile [] []) 0 0 ∅ 0 ∅ [] 0 0 []) ∧
  ∃ st', exec (write_page 3 4 (replicate 4 "W"%byte) ;;
               read_page 3 4 (replicate 4 "Q"%byte))
           (LRUBufferPool_new "db" ∅ (Some (mkFile [] [])))
         = Ok (replicate 4 "W"%byte, st').
Proof. split; [reflexivity|]. eexists. vm_compute. reflexivity. Qed.

(** ** Bounded residency *)

Lemma resident_heap_update (st : Pool) (l n : nat) (q : Page) (fd : File)
    (k : nat) (p : Page) :
  resident (set_fd (set_heap st (<[l := q]> (heap_ st)) n) fd) k = Some p →
  (p = q ∧ page_table_ st !! k = Some l) ∨ resident st k = Some p.
Proof.
  unfold resident. simpl. destruct (page_table_ st !! k) as [l'|]; [|done]. simpl.
  destruct (decide (l = l')) as [->|Hne].
  - rewrite lookup_insert_eq. intros ?. simplify_eq. by left.
  - rewrite lookup_insert_ne by done. by right.
Qed.

Lemma unpinned_heap_update (st : Pool) (l n : nat) (q : Page) (fd : File) :
  unpinned st → pin_count_ q = 0%Z →
  unpinned (set_fd (set_heap st (<[l := q]> (heap_ st)) n) fd).
Proof.
  intros Hun Hq k p [[-> _]|Hk]%resident_heap_update; [done|]. by eapply Hun.
Qed.

Lemma pin_unpin_zero (p : Page) : pin_count_ p = 0%Z → (unpin (pin p)).2 = p.
Proof. destruct p. simpl. intros ->. reflexivity. Qed.

Lemma unpin_after_pin (p p' : Page) :
  pin_count_ p = 0%Z → pin_count_ p' = pin_count_ (pin p) →
  pin_count_ (unpin p').2 = 0%Z.
Proof.
  intros Hp Hp'. unfold unpin. rewrite Hp'. unfold pin. rewrite Hp. reflexivity.
Qed.

Lemma seq_inv_FlushPage (st st1 : Pool) (k l : nat) (ok : bool) :
  seq_inv st → page_table_ st !! k = Some l → FlushPage l st = Ok (ok, st1) →
  seq_inv st1.
Proof.
  intros (Hwf & Hun & Hsz) Hk Hfl.
  split; [by eapply wf_FlushPage|].
  apply wf_unfold in Hwf as (_ & _ & Hlive). destruct (Hlive _ _ Hk) as [p Hp].
  destruct (FlushPage_inv _ _ _ _ _ Hp Hfl) as (p' & fd' & -> & Hsame & _).
  apply same_pages_after_flush in Hsame as (_ & _ & _ & Hpin & _).
  split; [|done]. apply unpinned_heap_update; [done|].
  rewrite Hpin. apply (Hun k). unfold resident. by rewrite Hk.
Qed.

(** After [EvictIfNeeded] between operations there is room for one page. *)
Lemma seq_inv_evicted (st st1 : Pool) :
  seq_inv st → 1 ≤ capacity_ st → evicted st st1 →
  wf st1 ∧ unpinned st1 ∧ size (page_table_ st1) < capacity_ st1 ∧
  capacity_ st1 = capacity_ st.
Proof.
  intros (Hwf & Hun & Hsz) Hcap Hev.
  split; [by eapply wf_evicted|].
  destruct Hev as [|Hfull Hall|front back pid l p ok st2 Hge Hlru Hback Hl Hp Hpin Hfl].
  - done.
  - exfalso. destruct (map_choose (page_table_ st)) as (k & l & Hk).
    { intros Hempty. rewrite Hempty, map_size_empty in Hfull. lia. }
    apply wf_unfold in Hwf as (_ & _ & Hlive). destruct (Hlive _ _ Hk) as [p Hp].
    assert (resident st k = Some p) as Hres by (unfold resident; by rewrite Hk).
    apply (Hall k p Hres). by apply (Hun k).
  - destruct (FlushPage_inv _ _ _ _ _ Hp Hfl) as (p' & fd' & -> & Hsame & _).
    apply same_pages_after_flush in Hsame as (_ & _ & _ & Hpin' & _). simpl.
    split; [|split; [|done]].
    + intros k q Hk. unfold resident in Hk. simpl in Hk.
      destruct (decide (pid = k)) as [->|Hne].
      { by rewrite lookup_delete_eq in Hk. }
      rewrite lookup_delete_ne in Hk by done.
      destruct (page_table_ st !! k) as [l'|] eqn:Hk'; [|done]. simpl in Hk.
      destruct (decide (l = l')) as [->|Hnel].
      * rewrite lookup_insert_eq in Hk. simplify_eq. congruence.
      * rewrite lookup_insert_ne in Hk by done.
        apply (Hun k). unfold resident. by rewrite Hk'.
    + rewrite map_size_delete_Some by done. lia.
Qed.

Lemma seq_inv_publish (st : Pool) (no page_size : nat) :
  wf st → unpinned st → size (page_table_ st) < capacity_ st →
  page_table_ st !! no = None → seq_inv (publish no page_size st).
Proof.
  intros Hwf Hun Hsz Hno. split; [by apply wf_publish|].
  pose proof (fresh_page_shape no page_size (fd_ st)) as Hsh. simpl in Hsh.
  destruct Hsh as (_ & _ & Hpin & _).
  unfold publish. split; simpl.
  - intros k q Hk. unfold resident in Hk. simpl in Hk.
    destruct (decide (no = k)) as [->|Hne].
    + rewrite lookup_insert_eq in Hk. simpl in Hk.
      rewrite lookup_insert_eq in Hk. by simplify_eq.
    + rewrite lookup_insert_ne in Hk by done.
      destruct (page_table_ st !! k) as [l'|] eqn:Hk'; [|done]. simpl in Hk.
      destruct (decide (next_loc_ st = l')) as [Heql|Hnel].
      * rewrite Heql, lookup_insert_eq in Hk. by simplify_eq.
      * rewrite lookup_insert_ne in Hk by done.
        apply (Hun k). unfold resident. by rewrite Hk'.
  - rewrite map_size_insert_None by done. lia.
Qed.

(** [GetPage] between operations: a handle to an unpinned page, with the
    table within capacity. *)
Lemma seq_inv_GetPage (st : Pool) (no page_size : nat) :
  seq_inv st → 1 ≤ capacity_ st →
  ∃ l p st1, GetPage no page_size st = Ok (Some l, st1) ∧ seq_inv st1 ∧
    page_table_ st1 !! no = Some l ∧ heap_ st1 !! l = Some p ∧
    pin_count_ p = 0%Z ∧ capacity_ st1 = capacity_ st.
Proof.
  intros Hinv Hcap. destruct Hinv as (Hwf & Hun & Hsz).
  destruct (page_table_ st !! no) as [l|] eqn:Hno.
  - apply wf_unfold in Hwf as Hwf'. destruct Hwf' as (_ & _ & Hlive).
    destruct (Hlive _ _ Hno) as [p Hp].
    exists l, p. eexists. split; [by apply GetPage_hit|].
    split; [|simpl; repeat split; try done].
    + split; [by apply wf_touch|]. done.
    + apply (Hun no). unfold resident. by rewrite Hno.
  - destruct (GetPage_miss no page_size st Hwf Hno) as (st1 & Hev & Heq).
    destruct (seq_inv_evicted (set_miss_count st (fetch_add_1 (miss_count_ st))) st1)
      as (Hwf1 & Hun1 & Hsz1 & Hcap1); try done.
    assert (page_table_ st1 !! no = None) as Hno1.
    { destruct Hev as [|? ?|front back pid l p ok st2 Hge Hlru Hback Hl Hp Hpin Hfl];
        simpl; auto.
      destruct (FlushPage_inv _ _ _ _ _ Hp Hfl) as (p' & fd' & -> & _). simpl.
      apply lookup_delete_None. by right. }
    pose proof (seq_inv_publish st1 no page_size Hwf1 Hun1 Hsz1 Hno1) as Hinv.
    pose proof (fresh_page_shape no page_size (fd_ st1)) as Hsh. simpl in Hsh.
    destruct Hsh as (_ & _ & Hpin & _).
    eexists _, _, _. split; [exact Heq|]. split; [done|].
    unfold publish. simpl. by rewrite !lookup_insert_eq.
Qed.

Lemma seq_inv_set_heap (st : Pool) (l : nat) (p q : Page) :
  seq_inv st → heap_ st !! l = Some p → pin_count_ q = 0%Z →
  seq_inv (set_heap st (<[l := q]> (heap_ st)) (next_loc_ st)).
Proof.
  intros (Hwf & Hun & Hsz) Hp Hq. split; [by eapply wf_set_heap|].
  split; [|done]. by apply (unpinned_heap_update st l (next_loc_ st) q (fd_ st)).
Qed.

Lemma seq_inv_run_op (st : Pool) (o : op) :
  seq_inv st → 1 ≤ capacity_ st →
  ∃ r st', run_op o st = Ok (r, st') ∧ seq_inv st' ∧ capacity_ st' = capacity_ st.
Proof.
  intros Hinv Hcap. destruct o as [no s buf|no s buf|]; simpl.
  - destruct (seq_inv_GetPage st no s Hinv Hcap)
      as (l & p & st1 & Hget & Hinv1 & _ & Hp & Hpin & Hcap1).
    destruct (read_page_spec no s buf _ _ _ _ Hget Hp) as (n & out & _ & Heq).
    eexists _, _. split; [exact Heq|]. split; [|done].
    rewrite pin_unpin_zero by done. by eapply seq_inv_set_heap.
  - destruct (seq_inv_GetPage st no s Hinv Hcap)
      as (l & p & st1 & Hget & Hinv1 & _ & Hp & Hpin & Hcap1).
    destruct (write_page_spec no s buf _ _ _ _ Hget Hp) as (n & p' & Hwr & Heq).
    eexists _, _. split; [unfold bind; rewrite Heq; done|]. split; [|done].
    eapply seq_inv_set_heap; [done|done|].
    destruct (WriteAt_Some_ok (pin p) 0 s buf) as (n2 & p2 & Hwr2 & _ & _ & Hpin2).
    rewrite Hwr in Hwr2. simplify_eq. by eapply unpin_after_pin.
  - destruct (FlushAll_preserves (λ s, seq_inv s ∧ capacity_ s = capacity_ st) st)
      as (st' & Heq & [Hinv' Hcap'] & _); try done.
    + by intros ? [[[_ ?] _] _].
    + intros s k l ok s1 [Hs Hc] Hk Hfl. split; [by eapply seq_inv_FlushPage|].
      destruct Hs as (Hwf & _). apply wf_unfold in Hwf as (_ & _ & Hlive).
      destruct (Hlive _ _ Hk) as [p Hp].
      by destruct (FlushPage_inv _ _ _ _ _ Hp Hfl) as (p' & fd' & -> & _).
    + eexists _, _. split; [unfold bind; rewrite Heq; done|done].
Qed.

Lemma seq_inv_new (file_name : string) (cfg : gmap nat nat) (f : File) (st0 : Pool) :
  LRUBufferPool_new file_name cfg (Some f) = Ok st0 → seq_inv st0.
Proof.
  intros Hnew. split; [by eapply wf_new|].
  unfold LRUBufferPool_new in Hnew.
  destruct (map_begin cfg) as [[s c]|]; simplify_eq; split; simpl;
    try (rewrite map_size_empty; lia);
    intros k p Hk; unfold resident in Hk; simpl in Hk;
    by rewrite lookup_empty in Hk.
Qed.

Lemma seq_inv_reachable (st0 st : Pool) :
  seq_inv st0 → 1 ≤ capacity_ st0 → reachable st0 st →
  seq_inv st ∧ capacity_ st = capacity_ st0.
Proof.
  intros Hinv0 Hcap Hreach. induction Hreach as [|st st' o r _ [IH IHc] Hrun].
  - done.
  - destruct (seq_inv_run_op st o) as (r' & st'' & Heq & Hinv' & Hcap'); [done|lia|].
    rewrite Heq in Hrun. simplify_eq. split; [done|congruence].
Qed.

(** C4 as the code has it.  On a pool built with a capacity of at least 1
    and used by one operation at a time, every public operation returns,
    and after it the table holds at most [capacity_] entries.  (With
    capacity 0, or with every page pinned by another holder at the time of
    a miss, the table grows past the capacity.) *)
Theorem bounded_residency (file_name : string) (cfg : gmap nat nat) (f : File)
    (st0 st : Pool) :
  LRUBufferPool_new file_name cfg (Some f) = Ok st0 →
  1 ≤ capacity_ st0 →
  reachable st0 st →
  size (page_table_ st) ≤ capacity_ st ∧ capacity_ st = capacity_ st0 ∧
  ∀ o, ∃ r st', run_op o st = Ok (r, st') ∧
    size (page_table_ st') ≤ capacity_ st'.
Proof.
  intros Hnew Hcap Hreach.
  destruct (seq_inv_reachable st0 st) as [Hinv Hc]; [by eapply seq_inv_new|done|done|].
  split; [by destruct Hinv as (_ & _ & ?)|]. split; [done|].
  intros o. destruct (seq_inv_run_op st o) as (r & st' & Heq & Hinv' & _); [done|lia|].
  exists r, st'. split; [done|]. by destruct Hinv' as (_ & _ & ?).
Qed.

Lemma bounded_residency_witness :
  ∃ r st',
    run_op (OpWrite 5 8 (replicate 8 "X"%byte))
      (mkPool (mkFile [] [IoInterrupted]) 1 8 ∅ 0 ∅ [] 0 0 [])
    = Ok (r, st') ∧
    size (page_table_ st') ≤ capacity_ st'.
Proof.
  refine (proj2 (proj2 (bounded_residency "db" {[8 := 1]} (mkFile [] [IoInterrupted])
                          (mkPool (mkFile [] [IoInterrupted]) 1 8 ∅ 0 ∅ [] 0 0 [])
                          (mkPool (mkFile [] [IoInterrupted]) 1 8 ∅ 0 ∅ [] 0 0 [])
                          _ _ _)) (OpWrite 5 8 (replicate 8 "X"%byte))).
  - reflexivity.
  - simpl. lia.
  - apply reach_init.
Defined.

(** Two runs on which the table grows past the capacity: a pool built with
    capacity 0, and a pool of capacity 1 whose page is pinned by another
    holder when the miss comes. *)
Lemma residency_exceeds_capacity :
  (∃ st', exec (read_page 0 8 (replicate 8 "Q"%byte))
            (LRUBufferPool_new "db" {[8 := 0]} (Some (mkFile [] [])))
          = Ok (replicate 8 x00, st') ∧
     size (page_table_ st') = 1 ∧ capacity_ st' = 0) ∧
  (∃ st', exec (page <- GetPage 0 8 ;; PinGuard_enter (default 0 page) ;;
                read_page 1 8 (replicate 8 "Q"%byte))
            (LRUBufferPool_new "db" {[8 := 1]} (Some (mkFile [] [])))
          = Ok (replicate 8 x00, st') ∧
     size (page_table_ st') = 2 ∧ capacity_ st' = 1).
Proof. split; eexists; vm_compute; repeat split; reflexivity. Qed.

(** ** Eviction of a dirty page *)

Lemma evict_walk_victim (st : Pool) (r1 r2 visited : list nat) (pid l : nat)
    (p : Page) :
  (∀ k, k ∈ r1 → ∃ q, resident st k = Some q ∧ pin_count_ q ≠ 0%Z) →
  page_table_ st !! pid = Some l → heap_ st !! l = Some p →
  pin_count_ p = 0%Z →
  reverse (lru_list_ st) = visited ++ r1 ++ pid :: r2 →
  ∃ ok st1,
    FlushPage l st = Ok (ok, st1) ∧
    evict_walk (r1 ++ pid :: r2) (length visited) st
    = Ok (tt, set_lru_list (set_page_table st1 (delete pid (page_table_ st)))
                (reverse r2 ++ reverse (visited ++ r1))).
Proof.
  revert visited. induction r1 as [|k r1 IH]; intros visited Hr1 Hl Hp Hpin Hrev.
  - destruct (FlushPage_spec st l p Hp) as (ok & p' & fd' & Hfl & _).
    eexists ok, _. split; [exact Hfl|].
    simpl. unfold bind at 1, get. simpl. rewrite Hl.
    unfold bind at 1, deref. rewrite Hp. simpl.
    rewrite decide_True by done.
    unfold bind at 1. rewrite Hfl. unfold bind, modify, ret. simpl.
    do 3 f_equal. rewrite app_nil_r.
    apply (f_equal reverse) in Hrev. rewrite reverse_involutive in Hrev.
    rewrite Hrev. simpl. rewrite reverse_app, reverse_cons, <- app_assoc. simpl.
    replace (length (reverse r2 ++ pid :: reverse visited) - 1 - length visited)
      with (length (reverse r2)).
    + apply delete_middle.
    + rewrite length_app. simpl. rewrite !length_reverse. lia.
  - destruct (Hr1 k ltac:(left)) as (q & Hq & Hqpin).
    unfold resident in Hq.
    destruct (page_table_ st !! k) as [lk|] eqn:Hk; [|done]. simpl in Hq.
    destruct (IH (visited ++ [k])) as (ok & st1 & Hfl & Heq).
    + intros k' Hk'. apply Hr1. by right.
    + done.
    + done.
    + done.
    + by rewrite <- app_assoc.
    + exists ok, st1. split; [done|].
      simpl. unfold bind at 1, get. simpl. rewrite Hk.
      unfold bind at 1, deref. rewrite Hq. simpl.
      rewrite decide_False by done.
      rewrite length_app in Heq. simpl in Heq.
      rewrite Nat.add_1_r in Heq. rewrite Heq.
      by rewrite <- !app_assoc.
Qed.

(** C2 as the code has it.  When the pool is full and the walk from the
    back of the list meets, after pinned pages only, an unpinned page that
    is dirty, [EvictIfNeeded] first runs the flush on it and then removes it
    from the table and from the list: the state it leaves is the state
    after the flush with that entry deleted.  When the flush succeeds, the
    file then holds the page's bytes at [page_id_ * page_size_], and the
    page is clean.  The entry is deleted whether the flush succeeded or
    not. *)
Theorem eviction_flushes_before_removal (st : Pool) (front back : list nat)
    (pid l : nat) (p : Page) :
  wf st → ¬ size (page_table_ st) < capacity_ st →
  lru_list_ st = front ++ pid :: back → Forall (pinned_in st) back →
  page_table_ st !! pid = Some l → heap_ st !! l = Some p →
  pin_count_ p = 0%Z → dirty_ p = true →
  length (data_ p) = page_size_ p →
  ∃ ok p' fd' st1,
    flush_to_fd p (fd_ st) (page_id_ p * pool_page_size_ st) = (ok, p', fd') ∧
    FlushPage l st = Ok (ok, st1) ∧
    fd_ st1 = fd' ∧ heap_ st1 !! l = Some p' ∧
    page_table_ st1 = page_table_ st ∧ lru_list_ st1 = lru_list_ st ∧
    EvictIfNeeded st
    = Ok (tt, set_lru_list (set_page_table st1 (delete pid (page_table_ st1)))
                (front ++ back)) ∧
    (ok = true →
       dirty_ p' = false ∧
       bytes_from (content fd') (page_id_ p * pool_page_size_ st) (page_size_ p)
       = data_ p).
Proof.
  intros Hwf Hfull Hlru Hback Hl Hp Hpin Hdirty Hlen.
  apply wf_unfold in Hwf as Hwf'. destruct Hwf' as (Hnd & Hdom & Hlive).
  assert (∀ k, k ∈ reverse back → ∃ q, resident st k = Some q ∧ pin_count_ q ≠ 0%Z)
    as Hpinned.
  { intros k Hk. rewrite elem_of_reverse in Hk.
    assert (is_Some (page_table_ st !! k)) as [lk Hlk].
    { apply Hdom. rewrite Hlru. apply elem_of_app. right. by right. }
    destruct (Hlive _ _ Hlk) as [q Hq].
    assert (resident st k = Some q) as Hres by (unfold resident; by rewrite Hlk).
    exists q. split; [done|]. rewrite Forall_forall in Hback. by apply (Hback k). }
  assert (reverse (lru_list_ st) = [] ++ reverse back ++ pid :: reverse front) as Hrev.
  { by rewrite Hlru, reverse_app, reverse_cons, <- app_assoc. }
  destruct (evict_walk_victim st (reverse back) (reverse front) [] pid l p
              Hpinned Hl Hp Hpin Hrev) as (ok & st1 & Hfl & Heq).
  destruct (FlushPage_inv _ _ _ _ _ Hp Hfl)
    as (p' & fd' & -> & _ & Hclean & _ & _ & _ & Hflush).
  rewrite Hdirty in Hflush.
  exists ok, p', fd'. eexists. split; [done|]. split; [exact Hfl|].
  cbn [fd_ heap_ page_table_ lru_list_ set_fd set_heap].
  rewrite lookup_insert_eq. do 4 (split; [done|]). split.
  - unfold EvictIfNeeded, bind at 1, get. rewrite decide_False by done.
    rewrite Hrev. cbn [app length] in Heq |- *. rewrite Heq.
    by rewrite !reverse_involutive.
  - intros Hok. split; [by apply Hclean|].
    by destruct (flush_to_fd_shape _ _ _ _ _ _ Hflush) as (_ & _ & _ & _ & _ & ->).
Qed.

Lemma eviction_flushes_before_removal_witness :
  ∃ st',
    EvictIfNeeded
      (mkPool (mkFile [] [IoPartial 2; IoInterrupted]) 1 4
         {[0 := set_dirty (set_loaded (set_data (Page_new 1 4) (replicate 4 "X"%byte)) true) true]}
         1 {[1 := 0]} [1] 0 1 [])
    = Ok (tt, st') ∧
    content (fd_ st') = replicate 4 x00 ++ replicate 4 "X"%byte ∧
    page_table_ st' !! 1 = None.
Proof.
  destruct (eviction_flushes_before_removal
              (mkPool (mkFile [] [IoPartial 2; IoInterrupted]) 1 4
                 {[0 := set_dirty (set_loaded (set_data (Page_new 1 4)
                                                 (replicate 4 "X"%byte)) true) true]}
                 1 {[1 := 0]} [1] 0 1 [])
              [] [] 1 0
              (set_dirty (set_loaded (set_data (Page_new 1 4)
                                        (replicate 4 "X"%byte)) true) true))
    as (ok & p' & fd' & st1 & Hflush & Hfl & Hfd & Hheap & Htab & Hl & Heq & Hok).
  - apply (bool_decide_unpack _). vm_compute. exact I.
  - vm_compute. lia.
  - reflexivity.
  - constructor.
  - reflexivity.
  - reflexivity.
  - reflexivity.
  - reflexivity.
  - reflexivity.
  - eexists. split; [exact Heq|]. simpl.
    vm_compute in Hflush. injection Hflush as <- <- <-.
    rewrite Hfd, Htab. split; reflexivity.
Defined.

(** A flush that fails for good does not stop the eviction: the dirty page
    is removed from the table and the list, the file never receives its
    bytes, and a later read of the page yields zeros. *)
Lemma failed_flush_still_evicts :
  let new := LRUBufferPool_new "db" {[8 := 1]}
               (Some (mkFile [] [IoPartial 7; IoFailed])) in
  (∃ st', exec (write_page 5 8 (replicate 8 "X"%byte) ;;
                write_page 6 8 (replicate 8 "Y"%byte)) new = Ok (tt, st') ∧
     page_table_ st' !! 5 = None ∧ (5 ∉ lru_list_ st') ∧
     content (fd_ st') = []) ∧
  (∃ st', exec (write_page 5 8 (replicate 8 "X"%byte) ;;
                write_page 6 8 (replicate 8 "Y"%byte) ;;
                read_page 5 8 (replicate 8 "Q"%byte)) new
          = Ok (replicate 8 x00, st')).
Proof.
  split; eexists; vm_compute; repeat split; try reflexivity.
  intros Hin. apply list_elem_of_singleton in Hin. discriminate.
Qed.

(** ** The file, byte by byte *)

Lemma lookup_file_page (c : list byte) (off n i : nat) :
  file_page c off n !! i
  = if decide (i < n) then Some (byte_at c (off + i)) else None.
Proof.
  unfold file_page, byte_at. pose proof (length_bytes_from c off n) as Hlen.
  case_decide as Hi.
  - destruct (decide (i < length (bytes_from c off n))) as [Hin|Hout].
    + rewrite lookup_app_l by done. unfold bytes_from.
      rewrite lookup_take_lt, lookup_drop by lia.
      destruct (c !! (off + i)) eqn:Hc; [done|].
      apply lookup_ge_None in Hc. lia.
    + rewrite lookup_app_r by lia.
      rewrite (lookup_ge_None_2 c (off + i)) by lia. simpl.
      apply lookup_replicate_2. lia.
  - apply lookup_ge_None. rewrite length_app, length_replicate. lia.
Qed.

Lemma byte_at_store_at (c d : list byte) (off i : nat) :
  byte_at (store_at c off d) i
  = if decide (off ≤ i < off + length d) then byte_at d (i - off) else byte_at c i.
Proof.
  unfold store_at. destruct d as [|b d]; [simpl; case_decide; [lia|done]|].
  set (d' := b :: d). unfold byte_at.
  destruct (decide (i < off)) as [Hlt|Hge].
  - rewrite decide_False by lia.
    destruct (decide (i < length c)) as [Hc|Hc].
    + rewrite lookup_app_l by (rewrite length_take; lia).
      by rewrite lookup_take_lt.
    + rewrite lookup_app_r by (rewrite length_take; lia).
      rewrite length_take.
      rewrite lookup_app_l by (rewrite length_replicate; lia).
      rewrite lookup_replicate_2 by lia.
      by rewrite (lookup_ge_None_2 c i) by lia.
  - assert (length (take off c ++ replicate (off - length c) zero_byte) = off) as Hpre.
    { rewrite length_app, length_take, length_replicate. lia. }
    rewrite app_assoc, lookup_app_r by lia. rewrite Hpre.
    case_decide as Hin.
    + by rewrite lookup_app_l by lia.
    + rewrite lookup_app_r by lia. rewrite lookup_drop. do 2 f_equal. lia.
Qed.

Lemma page_ranges_disjoint (j k s : nat) :
  j ≠ k → j * s + s ≤ k * s ∨ k * s + s ≤ j * s.
Proof.
  intros Hne. destruct (decide (j < k)).
  - left. replace (j * s + s) with (S j * s) by lia.
    apply Nat.mul_le_mono_r. lia.
  - right. replace (k * s + s) with (S k * s) by lia.
    apply Nat.mul_le_mono_r. lia.
Qed.

(** ** The I/O loops under interruptions and short transfers *)

Lemma file_page_ext (c c' : list byte) (off n : nat) :
  (∀ i, i < n → byte_at c (off + i) = byte_at c' (off + i)) →
  file_page c off n = file_page c' off n.
Proof.
  intros Hext. apply list_eq. intros i. rewrite !lookup_file_page.
  case_decide; [|done]. by rewrite Hext.
Qed.

Lemma file_page_of_bytes (c d : list byte) (off n : nat) :
  length d = n →
  (∀ i, i < n → byte_at c (off + i) = byte_at d i) →
  file_page c off n = d.
Proof.
  intros Hlen Hext. apply list_eq. intros i. rewrite lookup_file_page.
  case_decide as Hi.
  - rewrite Hext by done. unfold byte_at.
    destruct (d !! i) eqn:Hd; [done|]. apply lookup_ge_None in Hd. lia.
  - symmetry. apply lookup_ge_None. lia.
Qed.

Lemma file_page_past_end (c : list byte) (off n : nat) :
  length c ≤ off → file_page c off n = replicate n zero_byte.
Proof.
  intros Hoff. apply list_eq. intros i. rewrite lookup_file_page.
  case_decide as Hi.
  - unfold byte_at. rewrite (lookup_ge_None_2 c) by lia. simpl.
    symmetry. by apply lookup_replicate_2.
  - symmetry. apply lookup_ge_None. rewrite length_replicate. lia.
Qed.

(** What a short read returns is the start of the page as the file has
    it. *)
Lemma file_page_prefix (c : list byte) (off n m : nat) :
  m ≤ n →
  file_page c off n
  = bytes_from c off m
      ++ file_page c (off + length (bytes_from c off m))
           (n - length (bytes_from c off m)).
Proof.
  intros Hm. pose proof (length_bytes_from c off m) as Hlen.
  apply list_eq. intros i. rewrite lookup_file_page.
  destruct (decide (i < length (bytes_from c off m))) as [Hi|Hi].
  - rewrite lookup_app_l by done. rewrite decide_True by lia.
    unfold bytes_from, byte_at. rewrite lookup_take_lt, lookup_drop by lia.
    destruct (c !! (off + i)) eqn:Hc; [done|].
    apply lookup_ge_None in Hc. lia.
  - rewrite lookup_app_r by lia. rewrite lookup_file_page.
    case_decide; [rewrite decide_True by lia|by rewrite decide_False by lia].
    do 2 f_equal. lia.
Qed.

Lemma pread_script (f f' : File) (count off : nat) (r : sys_result (list byte)) :
  pread f count off = (r, f') →
  (no_failure f → no_failure f' ∧ r ≠ SysErr EIO) ∧
  (∀ bs, r = SysRet bs →
     ∃ m, bs = bytes_from (content f) off m ∧ m ≤ count ∧ (0 < count → 0 < m)).
Proof.
  unfold pread, no_failure. intros Hp.
  destruct f as [c [|[] sc]]; simplify_eq/=; split.
  all: try (intros Hnf; split; [|done]; intros Hin; apply Hnf; by right).
  all: try (intros bs ?; simplify_eq; eexists; split; [done|]; lia).
  all: try done.
  intros Hnf. exfalso. apply Hnf. by left.
Qed.

Lemma pwrite_script (f f' : File) (src : list byte) (count off : nat)
    (r : sys_result nat) :
  pwrite f src count off = (r, f') →
  no_failure f → no_failure f' ∧ r ≠ SysErr EIO.
Proof.
  unfold pwrite, no_failure. intros Hp Hnf.
  destruct f as [c [|ev sc]]; simpl in *.
  - simplify_eq. split; [by intros ?%elem_of_nil|done].
  - destruct ev; simplify_eq.
    + split; [intros Hin; apply Hnf; by right|done].
    + split; [intros Hin; apply Hnf; by right|done].
    + exfalso. apply Hnf. by left.
Qed.

(** A load on a file that does not fail fills the buffer with the page as
    the file has it, however the reads are interrupted or cut short. *)
Lemma load_loop_no_fail (f : File) (off size : nat) (data : list byte) (total : nat) :
  no_failure f → length data = size → total ≤ size →
  ∃ f',
    load_loop f off size data total
    = (true, take total data ++ file_page (content f) (off + total) (size - total), f') ∧
    content f' = content f ∧ no_failure f'.
Proof.
  funelim (load_loop f off size data total); intros Hnf Hlen Htot;
    try match goal with
        | Hp : pread _ _ _ = _ |- _ =>
            let Hc := fresh "Hc" in let Hs' := fresh "Hs" in let Hb := fresh "Hb" in
            let Hsc := fresh "Hsc" in let Hbs := fresh "Hbs" in
            pose proof (pread_inv _ _ _ _ _ Hp) as (Hc & Hs' & Hb);
            pose proof (pread_script _ _ _ _ _ Hp) as (Hsc & Hbs);
            destruct (Hsc Hnf) as [Hnf' Hne]
        end.
  - exists f. split; [|done].
    replace (size - total) with 0 by lia. unfold file_page, bytes_from. simpl.
    rewrite take_ge by lia. by rewrite app_nil_r.
  - destruct (H Hnf' Hlen Htot) as (f1 & Heq1 & Hc1 & Hnf1).
    exists f1. rewrite Heq1, Hc1, Hc. done.
  - done.
  - exists f'. split; [|done].
    destruct (Hbs _ eq_refl) as (m & Hbsm & Hm & Hpos).
    assert (length (content f) ≤ file_offset + total) as Hend.
    { pose proof (length_bytes_from (content f) (file_offset + total) m) as Hl.
      rewrite <- Hbsm in Hl. lia. }
    rewrite file_page_past_end by done.
    unfold memset_zero. rewrite (drop_ge data) by lia. by rewrite app_nil_r.
  - destruct (Hbs _ eq_refl) as (m & Hbsm & Hm & Hpos).
    specialize (Hb _ eq_refl).
    destruct (H Hnf') as (f1 & Heq1 & Hc1 & Hnf1).
    { rewrite length_memcpy_into; lia. }
    { lia. }
    exists f1. rewrite Heq1, Hc1, Hc. split; [|done]. do 2 f_equal.
    rewrite (file_page_prefix (content f) (file_offset + total) (size - total) m Hm).
    rewrite <- Hbsm. rewrite app_assoc. f_equal.
    + unfold memcpy_into. rewrite app_assoc.
      rewrite take_app_le, take_ge; [done| |];
        rewrite length_app, length_take; lia.
    + f_equal; lia.
Qed.

Lemma byte_at_take_drop (tmp : list byte) (total w j : nat) :
  j < w → byte_at (take w (drop total tmp)) j = byte_at tmp (total + j).
Proof. intros Hj. unfold byte_at. by rewrite lookup_take_lt, lookup_drop. Qed.

(** A flush on a file that does not fail ends with the whole buffer in the
    file, and changes no byte outside its range, however the writes are
    interrupted or cut short. *)
Lemma flush_loop_no_fail (f : File) (off size : nat) (tmp : list byte) (total : nat) :
  no_failure f → length tmp = size → total ≤ size →
  ∃ f',
    flush_loop f off size tmp total = (true, f') ∧ no_failure f' ∧
    ∀ i, byte_at (content f') i
         = if decide (off + total ≤ i < off + size) then byte_at tmp (i - off)
           else byte_at (content f) i.
Proof.
  funelim (flush_loop f off size tmp total); intros Hnf Hlen Htot;
    try match goal with
        | Hp : pwrite _ _ _ _ = _ |- _ =>
            let Hs := fresh "Hs" in let Hw := fresh "Hw" in let He := fresh "He" in
            pose proof (pwrite_inv _ _ _ _ _ _ Hp) as (Hs & Hw & He);
            destruct (pwrite_script _ _ _ _ _ _ Hp Hnf) as [Hnf' Hne]
        end.
  - exists f. do 2 (split; [done|]). intros i. by rewrite decide_False by lia.
  - destruct (Hw _ eq_refl) as [Hle Hc].
    destruct (H Hnf' Hlen) as (f1 & Heq1 & Hnf1 & Hbytes); [lia|].
    exists f1. do 2 (split; [done|]). intros i. rewrite Hbytes, Hc.
    rewrite byte_at_store_at.
    assert (length (take w (drop total tmp)) = w) as ->.
    { rewrite length_take, length_drop. lia. }
    destruct (decide (file_offset + (total + w) ≤ i < file_offset + size)).
    + by rewrite decide_True by lia.
    + destruct (decide (file_offset + total ≤ i < file_offset + total + w)).
      * rewrite decide_True by lia. rewrite byte_at_take_drop by lia.
        f_equal. lia.
      * by rewrite decide_False by lia.
  - destruct (H Hnf' Hlen Htot) as (f1 & Heq1 & Hnf1 & Hbytes).
    exists f1. do 2 (split; [done|]). intros i.
    by rewrite Hbytes, (He _ eq_refl).
  - done.
Qed.

Lemma flush_to_fd_no_fail (p : Page) (f : File) (off : nat) :
  no_failure f → loaded_ p = true → dirty_ p = true →
  length (data_ p) = page_size_ p →
  ∃ f',
    flush_to_fd p f off = (true, set_dirty p false, f') ∧ no_failure f' ∧
    ∀ i, byte_at (content f') i
         = if decide (off ≤ i < off + page_size_ p) then byte_at (data_ p) (i - off)
           else byte_at (content f) i.
Proof.
  intros Hnf Hl Hd Hlen. unfold flush_to_fd. rewrite Hl, Hd. simpl.
  assert (memcpy_into (replicate (page_size_ p) zero_byte) 0
            (take (page_size_ p) (data_ p)) = data_ p) as ->.
  { unfold memcpy_into. simpl. rewrite take_ge by lia.
    rewrite drop_ge, app_nil_r; [done|]. rewrite length_replicate. lia. }
  destruct (flush_loop_no_fail f off (page_size_ p) (data_ p) 0 Hnf Hlen)
    as (f' & Heq & Hnf' & Hbytes); [lia|].
  exists f'. rewrite Heq. do 2 (split; [done|]).
  intros i. rewrite Hbytes. by rewrite Nat.add_0_r.
Qed.

Lemma fresh_page_no_fail (no page_size : nat) (fd : File) :
  no_failure fd →
  ∃ fd',
    fresh_page no page_size fd
    = (mkPage no page_size (file_page (content fd) (no * page_size) page_size)
         0 false true 0, fd') ∧
    content fd' = content fd ∧ no_failure fd'.
Proof.
  intros Hnf. unfold fresh_page, load_from_fd.
  destruct (load_loop_no_fail fd (no * page_size) page_size
              (data_ (Page_new no page_size)) 0 Hnf)
    as (fd' & Heq & Hc & Hnf'); [apply Page_new_length|lia|].
  exists fd'. simpl in *. rewrite Heq. simpl.
  by rewrite Nat.add_0_r, Nat.sub_0_r.
Qed.

(** ** Round trips: what each step does to the pages *)

Lemma resident_set_heap (st : Pool) (l n : nat) (q : Page) (fd : File) (j : nat) :
  resident (set_fd (set_heap st (<[l := q]> (heap_ st)) n) fd) j
  = match page_table_ st !! j with
    | Some l' => if decide (l' = l) then Some q else heap_ st !! l'
    | None => None
    end.
Proof.
  unfold resident. simpl. destruct (page_table_ st !! j) as [l'|]; [|done]. simpl.
  case_decide as Hl; [subst; by rewrite lookup_insert_eq|].
  by rewrite lookup_insert_ne.
Qed.

Lemma resident_set_heap' (st : Pool) (l n : nat) (q : Page) (j : nat) :
  resident (set_heap st (<[l := q]> (heap_ st)) n) j
  = match page_table_ st !! j with
    | Some l' => if decide (l' = l) then Some q else heap_ st !! l'
    | None => None
    end.
Proof. exact (resident_set_heap st l n q (fd_ st) j). Qed.

Lemma good_wf (st : Pool) : good st → wf st.
Proof. by intros (? & _). Qed.

Lemma good_resident (st : Pool) (k l : nat) :
  good st → page_table_ st !! k = Some l →
  ∃ p, heap_ st !! l = Some p ∧ resident st k = Some p ∧ frame_ok st k p.
Proof.
  intros (Hwf & _ & _ & _ & Hok) Hk.
  apply wf_unfold in Hwf as (_ & _ & Hlive). destruct (Hlive _ _ Hk) as [p Hp].
  assert (resident st k = Some p) as Hres by (unfold resident; by rewrite Hk).
  exists p. repeat split; try done; by apply (Hok k p Hres).
Qed.

Lemma set_heap_same (st : Pool) (l : nat) (p : Page) :
  heap_ st !! l = Some p →
  set_heap st (<[l := p]> (heap_ st)) (next_loc_ st) = st.
Proof. intros Hp. unfold set_heap. rewrite insert_id by done. apply Pool_eta. Qed.

(** On a file that does not fail, [FlushPage] on a resident page succeeds,
    leaves the page clean and changes no page as the pool presents it. *)
Lemma good_FlushPage (st st1 : Pool) (k l : nat) (ok : bool) :
  good st → page_table_ st !! k = Some l → FlushPage l st = Ok (ok, st1) →
  good st1 ∧ (∀ j, page_view st1 j = page_view st j) ∧
  pool_page_size_ st1 = pool_page_size_ st ∧
  page_table_ st1 = page_table_ st ∧ lru_list_ st1 = lru_list_ st ∧
  ∃ p', heap_ st1 !! l = Some p' ∧ dirty_ p' = false.
Proof.
  intros Hgood Hk Hfl.
  destruct (good_resident st k l Hgood Hk) as (p & Hp & Hres & Hfok).
  destruct Hfok as (Hid & Hsz & Hlen & Hpin & Hloaded & Hclean).
  pose proof Hgood as (Hwf & Hnf & Hinj & Hbound & Hok).
  destruct (FlushPage_inv _ _ _ _ _ Hp Hfl) as (p' & fd' & -> & _ & _ & _ & _ & _ & Hflush).
  destruct (dirty_ p) eqn:Hdirty.
  - destruct (flush_to_fd_no_fail p (fd_ st) (page_id_ p * pool_page_size_ st))
      as (f' & Hfeq & Hnf' & Hbytes); try done; try congruence.
    rewrite Hfeq in Hflush. injection Hflush as <- <- <-. simpl.
    assert (∀ j, on_disk
                   (set_fd (set_heap st (<[l := set_dirty p false]> (heap_ st))
                              (next_loc_ st)) f') j
                 = if decide (j = page_id_ p) then data_ p else on_disk st j) as Hdisk.
    { intros j. unfold on_disk. simpl. case_decide as Hj.
      - subst j. apply file_page_of_bytes; [done|]. intros i Hi.
        rewrite Hbytes, decide_True by lia. f_equal. lia.
      - apply file_page_ext. intros i Hi. rewrite Hbytes.
        rewrite decide_False; [done|].
        destruct (page_ranges_disjoint j (page_id_ p) (pool_page_size_ st) Hj); lia. }
    split; [|split; [|split; [done|split; [done|split; [done|]]]]].
    + split; [by eapply wf_heap_update|]. split; [done|]. split; [done|]. split.
      * intros l' Hl'. simpl in Hl'. apply lookup_insert_is_Some' in Hl' as [->|Hl'];
          [apply Hbound; by eexists|by apply Hbound].
      * intros j q Hj. rewrite resident_set_heap in Hj.
        destruct (page_table_ st !! j) as [l'|] eqn:Hjl; [|done].
        case_decide as Hl'.
        -- subst l'. simplify_eq. assert (j = page_id_ p) as -> by by eapply Hinj.
           repeat split; try done. intros _. rewrite Hdisk.
           by rewrite decide_True.
        -- assert (resident st j = Some q) as Hq by (unfold resident; by rewrite Hjl).
           destruct (Hok j q Hq) as (? & ? & ? & ? & ? & Hcq).
           repeat split; try done. intros Hd. rewrite Hdisk.
           rewrite decide_False; [by apply Hcq|].
           intros ->. apply Hl'. congruence.
    + intros j. unfold page_view. rewrite resident_set_heap. unfold resident.
      destruct (page_table_ st !! j) as [l'|] eqn:Hjl; simpl.
      * case_decide as Hl'; [subst l'; by rewrite Hp|].
        destruct (heap_ st !! l') eqn:Hq; [done|].
        rewrite Hdisk. rewrite decide_False; [done|].
        intros ->. apply Hl'. congruence.
      * rewrite Hdisk. rewrite decide_False; [done|].
        intros ->. congruence.
    + exists (set_dirty p false). split; [|done]. simpl. by rewrite lookup_insert_eq.
  - destruct Hflush as (-> & -> & ->).
    replace (set_fd (set_heap st (<[l := p]> (heap_ st)) (next_loc_ st)) (fd_ st))
      with st.
    + do 5 (split; [done|]). by exists p.
    + unfold set_fd, set_heap. simpl. rewrite insert_id by done.
      by rewrite Pool_eta.
Qed.

Lemma wf_erase (st : Pool) (front back : list nat) (pid : nat) :
  wf st → lru_list_ st = front ++ pid :: back →
  wf (set_lru_list (set_page_table st (delete pid (page_table_ st))) (front ++ back)).
Proof.
  intros (Hnd & Hdom & Hlive)%wf_unfold Hlru. rewrite Hlru in Hnd, Hdom.
  destruct (elem_of_remove_middle _ _ _ Hnd) as [Hnd' Hin].
  apply wf_unfold. split; [|split]; simpl.
  - done.
  - intros k. rewrite Hin, lookup_delete_is_Some, Hdom. naive_solver.
  - intros k l' Hk. apply lookup_delete_Some in Hk as [_ Hk]. eauto.
Qed.

(** Dropping a clean page from the table changes no page as the pool
    presents it: the file has the same bytes. *)
Lemma good_erase (st : Pool) (front back : list nat) (pid l : nat) (p : Page) :
  good st → lru_list_ st = front ++ pid :: back →
  page_table_ st !! pid = Some l → heap_ st !! l = Some p → dirty_ p = false →
  let st' := set_lru_list (set_page_table st (delete pid (page_table_ st)))
               (front ++ back) in
  good st' ∧ (∀ j, page_view st' j = page_view st j).
Proof.
  intros Hgood Hlru Hl Hp Hclean st'.
  destruct (good_resident st pid l Hgood Hl) as (p0 & Hp0 & Hres & Hfok).
  rewrite Hp in Hp0. simplify_eq.
  destruct Hgood as (Hwf & Hscript & Hinj & Hbound & Hok).
  assert (∀ j, resident st' j = if decide (j = pid) then None else resident st j)
    as Hres'.
  { intros j. unfold resident, st'. simpl. case_decide as Hj.
    - subst j. by rewrite lookup_delete_eq.
    - by rewrite lookup_delete_ne. }
  split.
  - split; [by apply wf_erase|]. split; [done|]. split; [|split; [done|]].
    + intros k1 k2 l' H1 H2. unfold st' in H1, H2. simpl in H1, H2.
      apply lookup_delete_Some in H1 as [_ H1].
      apply lookup_delete_Some in H2 as [_ H2]. by eapply Hinj.
    + intros j q Hj. rewrite Hres' in Hj. case_decide; [done|]. by apply Hok.
  - intros j. unfold page_view. rewrite Hres'. case_decide as Hj; [|done].
    subst j. rewrite Hres. destruct Hfok as (_ & _ & _ & _ & _ & Hdisk).
    symmetry. by apply Hdisk.
Qed.

Lemma good_evicted (st st1 : Pool) :
  good st → evicted st st1 →
  good st1 ∧ (∀ j, page_view st1 j = page_view st j) ∧
  pool_page_size_ st1 = pool_page_size_ st ∧
  (∀ k, page_table_ st !! k = None → page_table_ st1 !! k = None).
Proof.
  intros Hgood Hev.
  destruct Hev as [|Hfull Hall|front back pid l p ok st2 Hge Hlru Hback Hl Hp Hpin Hfl].
  - done.
  - done.
  - destruct (good_FlushPage st st2 pid l ok Hgood Hl Hfl)
      as (Hgood2 & Hview2 & Hps2 & Htab2 & Hlru2 & p' & Hp' & Hclean).
    rewrite <- Htab2. rewrite <- Htab2 in Hl. rewrite <- Hlru2 in Hlru.
    destruct (good_erase st2 front back pid l p' Hgood2 Hlru Hl Hp' Hclean)
      as [Hgood' Hview'].
    split; [done|]. split; [|split; [done|]].
    + intros j. by rewrite Hview', Hview2.
    + intros k Hk. simpl. apply lookup_delete_None. right. congruence.
Qed.

(** On a file that does not fail, the page a miss publishes holds the
    bytes of the file, and no page changes as the pool presents it. *)
Lemma good_publish (st : Pool) (no : nat) :
  good st → page_table_ st !! no = None →
  let st' := publish no (pool_page_size_ st) st in
  good st' ∧ (∀ j, page_view st' j = page_view st j) ∧
  ∃ p, heap_ st' !! next_loc_ st = Some p ∧ data_ p = page_view st no ∧
    frame_ok st' no p.
Proof.
  intros Hgood Hno st'.
  pose proof Hgood as (Hwf & Hnf & Hinj & Hbound & Hok).
  apply wf_unfold in Hwf as Hwf'. destruct Hwf' as (_ & _ & Hlive).
  set (pnew := mkPage no (pool_page_size_ st)
                 (file_page (content (fd_ st)) (no * pool_page_size_ st)
                    (pool_page_size_ st)) 0 false true 0).
  destruct (fresh_page_no_fail no (pool_page_size_ st) (fd_ st) Hnf)
    as (fd' & Hfresh & Hcontent & Hnf').
  fold pnew in Hfresh.
  assert (st' = set_lru_list
                  (set_page_table
                     (set_fd (set_heap st (<[next_loc_ st := pnew]> (heap_ st))
                                (S (next_loc_ st))) fd')
                     (<[no := next_loc_ st]> (page_table_ st)))
                  (no :: lru_list_ st)) as Hst'.
  { unfold st', publish. by rewrite Hfresh. }
  assert (∀ j, resident st' j = if decide (j = no) then Some pnew else resident st j)
    as Hres'.
  { intros j. rewrite Hst'. unfold resident. simpl. case_decide as Hj.
    - subst j. rewrite lookup_insert_eq. simpl. by rewrite lookup_insert_eq.
    - rewrite lookup_insert_ne by done.
      destruct (page_table_ st !! j) as [l'|] eqn:Hjl; [|done]. simpl.
      rewrite lookup_insert_ne; [done|].
      intros <-. specialize (Hbound (next_loc_ st) (Hlive _ _ Hjl)). lia. }
  assert (∀ j, on_disk st' j = on_disk st j) as Hdisk.
  { intros j. rewrite Hst'. unfold on_disk. simpl. by rewrite Hcontent. }
  assert (frame_ok st' no pnew) as Hfok.
  { unfold frame_ok. rewrite Hdisk. rewrite Hst'. simpl.
    repeat split; try done. apply length_file_page. }
  assert (page_view st no = data_ pnew) as Hview.
  { unfold page_view, resident. rewrite Hno. done. }
  split; [|split].
  - split; [by apply wf_publish|]. rewrite Hst'. simpl. split; [done|].
    split; [|split].
    + intros k1 k2 l H1 H2.
      apply lookup_insert_Some in H1 as [[<- <-]|[Hne1 H1]];
        apply lookup_insert_Some in H2 as [[<- Heq]|[Hne2 H2]]; try done.
      * specialize (Hbound _ (Hlive _ _ H2)). lia.
      * subst l. specialize (Hbound _ (Hlive _ _ H1)). lia.
      * by eapply Hinj.
    + intros l Hl. apply lookup_insert_is_Some' in Hl as [<-|Hl]; [lia|].
      specialize (Hbound _ Hl). lia.
    + intros j q Hj. rewrite <- Hst' in Hj |- *. rewrite Hres' in Hj.
      case_decide as Hjno.
      * by simplify_eq.
      * specialize (Hok j q Hj). unfold frame_ok in *. rewrite Hdisk.
        replace (pool_page_size_ st') with (pool_page_size_ st); [done|].
        by rewrite Hst'.
  - intros j. unfold page_view at 1. rewrite Hres', Hdisk. case_decide as Hj.
    + subst j. done.
    + done.
  - exists pnew. rewrite Hst' at 1. simpl. rewrite lookup_insert_eq. done.
Qed.

(** Counters, the log and the order of the list do not matter for [good]
    and for the pages the pool presents. *)
Lemma good_same_pages (st st' : Pool) :
  good st → wf st' →
  fd_ st' = fd_ st → pool_page_size_ st' = pool_page_size_ st →
  heap_ st' = heap_ st → next_loc_ st' = next_loc_ st →
  page_table_ st' = page_table_ st →
  good st' ∧ (∀ j, page_view st' j = page_view st j).
Proof.
  intros (Hwf & Hnf & Hinj & Hbound & Hok) Hwf' Hfd Hps Hheap Hnext Htab.
  assert (∀ j, resident st' j = resident st j) as Hres.
  { intros j. unfold resident. by rewrite Htab, Hheap. }
  assert (∀ j, on_disk st' j = on_disk st j) as Hdisk.
  { intros j. unfold on_disk. by rewrite Hfd, Hps. }
  split.
  - split; [done|]. rewrite Hfd, Htab, Hheap, Hnext. do 3 (split; [done|]).
    intros j q Hj. rewrite Hres in Hj. specialize (Hok j q Hj).
    unfold frame_ok in *. by rewrite Hps, Hdisk.
  - intros j. unfold page_view. by rewrite Hres, Hdisk.
Qed.

(** Replacing the frame of a resident page by another good frame. *)
Lemma good_set_frame (st : Pool) (k l : nat) (q : Page) :
  good st → page_table_ st !! k = Some l → frame_ok st k q →
  let st' := set_heap st (<[l := q]> (heap_ st)) (next_loc_ st) in
  good st' ∧ page_view st' k = data_ q ∧
  (∀ j, j ≠ k → page_view st' j = page_view st j) ∧
  pool_page_size_ st' = pool_page_size_ st.
Proof.
  intros Hgood Hk Hq st'.
  destruct (good_resident st k l Hgood Hk) as (p & Hp & Hres & _).
  destruct Hgood as (Hwf & Hscript & Hinj & Hbound & Hok).
  assert (∀ j, resident st' j = if decide (j = k) then Some q else resident st j)
    as Hres'.
  { intros j. unfold st'.
    rewrite (resident_set_heap' st l (next_loc_ st) q j). unfold resident.
    destruct (page_table_ st !! j) as [l'|] eqn:Hjl.
    - case_decide as Hl'.
      + subst l'. assert (j = k) as -> by by eapply Hinj. by rewrite decide_True.
      + rewrite decide_False; [done|]. intros ->. congruence.
    - rewrite decide_False; [done|]. intros ->. congruence. }
  split; [|split; [|split; [|done]]].
  - split; [by eapply wf_set_heap|]. split; [done|]. split; [done|]. split.
    + intros l' Hl'. unfold st' in Hl'. simpl in Hl'.
      apply lookup_insert_is_Some' in Hl' as [<-|Hl']; apply Hbound; [by eexists|done].
    + intros j p' Hj. rewrite Hres' in Hj. case_decide.
      * by simplify_eq.
      * by apply Hok.
  - unfold page_view. rewrite Hres'. by rewrite decide_True.
  - intros j Hj. unfold page_view. rewrite Hres'. by rewrite decide_False.
Qed.

Lemma good_GetPage (st : Pool) (no : nat) :
  good st →
  ∃ l p st1,
    GetPage no (pool_page_size_ st) st = Ok (Some l, st1) ∧ good st1 ∧
    (∀ j, page_view st1 j = page_view st j) ∧
    pool_page_size_ st1 = pool_page_size_ st ∧
    page_table_ st1 !! no = Some l ∧ heap_ st1 !! l = Some p ∧
    frame_ok st1 no p ∧ data_ p = page_view st no.
Proof.
  intros Hgood. destruct (page_table_ st !! no) as [l|] eqn:Hno.
  - destruct (good_resident st no l Hgood Hno) as (p & Hp & Hres & Hfok).
    exists l, p. eexists. split; [by apply GetPage_hit|].
    destruct (good_same_pages st
                (set_lru_list (set_hit_count st (fetch_add_1 (hit_count_ st)))
                   (no :: filter (λ x, x ≠ no) (lru_list_ st))) Hgood)
      as [Hgood' Hview']; try done.
    { apply wf_touch; [by apply good_wf|by eexists]. }
    split; [done|]. split; [done|]. simpl. do 3 (split; [done|]).
    split; [done|]. unfold page_view. by rewrite Hres.
  - destruct (GetPage_miss no (pool_page_size_ st) st (good_wf _ Hgood) Hno)
      as (st1 & Hev & Heq).
    destruct (good_same_pages st (set_miss_count st (fetch_add_1 (miss_count_ st))) Hgood)
      as [Hgood0 Hview0]; try done.
    { by apply wf_set_miss_count, good_wf. }
    destruct (good_evicted _ _ Hgood0 Hev) as (Hgood1 & Hview1 & Hps1 & Hnone).
    simpl in Hps1. rewrite <- Hps1 in Heq |- *.
    specialize (Hnone no Hno).
    destruct (good_publish st1 no Hgood1 Hnone) as (Hgood2 & Hview2 & p & Hp & Hdata & Hfok).
    exists (next_loc_ st1), p. eexists. split; [exact Heq|].
    split; [done|]. split; [|split; [done|split; [|split; [done|split; [done|]]]]].
    + intros j. by rewrite Hview2, Hview1, Hview0.
    + unfold publish. simpl. by rewrite lookup_insert_eq.
    + by rewrite Hdata, Hview1, Hview0.
Qed.

Lemma read_frame (p : Page) (s : nat) (buf : list byte) (n : nat) (out : list byte) :
  page_size_ p = s → length (data_ p) = s → loaded_ p = true →
  ReadAt (pin p) 0 (Some buf) s = Ok (n, out) →
  out = data_ p ++ drop s buf.
Proof.
  intros Hs Hlen Hl. unfold ReadAt, pin. simpl. rewrite Hs, Hl. simpl.
  case_decide as H0; intros ?; simplify_eq.
  - assert (page_size_ p = 0) as Hz by lia. rewrite Hz in *.
    by rewrite (nil_length_inv _ Hlen).
  - rewrite Nat.sub_0_r, Nat.min_id. unfold memcpy_into. simpl.
    rewrite (take_ge (data_ p)) by lia. by rewrite Hlen.
Qed.

Lemma write_frame (p p' : Page) (s : nat) (buf : list byte) (n : nat) :
  page_size_ p = s → length (data_ p) = s → pin_count_ p = 0%Z →
  loaded_ p = true →
  WriteAt (pin p) 0 (Some buf) s = Ok (n, p') →
  let q := (unpin p').2 in
  page_id_ q = page_id_ p ∧ page_size_ q = s ∧ length (data_ q) = s ∧
  pin_count_ q = 0%Z ∧ loaded_ q = true ∧
  (s = 0 → q = p) ∧ (0 < s → dirty_ q = true) ∧
  (length buf = s → data_ q = buf).
Proof.
  intros Hs Hlen Hpin Hl. unfold WriteAt, pin. simpl. rewrite Hs, Hpin.
  case_decide as H0; intros ?; simplify_eq; unfold unpin; simpl.
  - assert (page_size_ p = 0) as Hz by lia.
    do 3 (split; [done|]). split; [reflexivity|]. split; [done|].
    split; [|split; [lia|]].
    + intros _. destruct p; simpl in *; subst. reflexivity.
    + intros Hb. rewrite Hz in *.
      by rewrite (nil_length_inv _ Hlen), (nil_length_inv _ Hb).
  - rewrite Nat.sub_0_r, Nat.min_id.
    do 2 (split; [done|]). split; [|split; [reflexivity|]].
    + unfold memcpy_into. simpl. rewrite length_app, length_take, length_drop. lia.
    + do 3 (split; [done || lia|]).
      intros Hb. unfold memcpy_into. simpl.
      rewrite take_ge by lia. rewrite drop_ge by lia. by rewrite app_nil_r.
Qed.

(** A read returns the page as the pool presents it and changes no page. *)
Lemma good_read_page (st : Pool) (no : nat) (buf : list byte) :
  good st →
  ∃ out st',
    read_page no (pool_page_size_ st) buf st = Ok (out, st') ∧ good st' ∧
    (∀ j, page_view st' j = page_view st j) ∧
    pool_page_size_ st' = pool_page_size_ st ∧
    out = page_view st no ++ drop (pool_page_size_ st) buf.
Proof.
  intros Hgood.
  destruct (good_GetPage st no Hgood)
    as (l & p & st1 & Hget & Hgood1 & Hview1 & Hps1 & Hl & Hp & Hfok & Hdata).
  destruct Hfok as (Hid & Hsz & Hlen & Hpin & Hloaded & _).
  destruct (read_page_spec no (pool_page_size_ st) buf _ _ _ _ Hget Hp)
    as (n & out & Hrd & Heq).
  rewrite pin_unpin_zero, set_heap_same in Heq by done.
  exists out, st1. do 4 (split; [done|]).
  rewrite <- Hdata. eapply read_frame; [| |done|exact Hrd]; congruence.
Qed.

(** A write changes the page it names, and no other. *)
Lemma good_write_page (st : Pool) (no : nat) (buf : list byte) :
  good st →
  ∃ st',
    write_page no (pool_page_size_ st) buf st = Ok (tt, st') ∧ good st' ∧
    (∀ j, j ≠ no → page_view st' j = page_view st j) ∧
    pool_page_size_ st' = pool_page_size_ st ∧
    (length buf = pool_page_size_ st → page_view st' no = buf).
Proof.
  intros Hgood.
  destruct (good_GetPage st no Hgood)
    as (l & p & st1 & Hget & Hgood1 & Hview1 & Hps1 & Hl & Hp & Hfok & Hdata).
  pose proof Hfok as (Hid & Hsz & Hlen & Hpin & Hloaded & Hclean).
  destruct (write_page_spec no (pool_page_size_ st) buf _ _ _ _ Hget Hp)
    as (n & p' & Hwr & Heq).
  destruct (write_frame p p' (pool_page_size_ st) buf n) as
    (Hqid & Hqsz & Hqlen & Hqpin & Hqloaded & Hq0 & Hqdirty & Hqbuf);
    try done; try congruence.
  assert (frame_ok st1 no (unpin p').2) as Hqok.
  { unfold frame_ok. rewrite Hps1. repeat split; try done; try congruence.
    intros Hd. destruct (decide (pool_page_size_ st = 0)) as [Hz|Hnz].
    - rewrite (Hq0 Hz). apply Hclean. by rewrite <- (Hq0 Hz).
    - rewrite Hqdirty in Hd by lia. done. }
  destruct (good_set_frame st1 no l _ Hgood1 Hl Hqok) as (Hgood' & Hview' & Hother & Hps').
  eexists. split; [exact Heq|]. split; [done|]. split; [|split; [congruence|]].
  - intros j Hj. by rewrite Hother, Hview1.
  - intros Hb. rewrite Hview'. by apply Hqbuf.
Qed.

Lemma good_FlushAll (st : Pool) :
  good st →
  ∃ st', FlushAll st = Ok (tt, st') ∧ good st' ∧
    (∀ j, page_view st' j = page_view st j) ∧
    pool_page_size_ st' = pool_page_size_ st.
Proof.
  intros Hgood.
  destruct (FlushAll_preserves
              (λ s, good s ∧ (∀ j, page_view s j = page_view st j) ∧
                    pool_page_size_ s = pool_page_size_ st) st)
    as (st' & Heq & (Hgood' & Hview' & Hps') & _); try done.
  - by intros s ((_ & ?) & _)%proj1.
  - intros s k l ok s1 (Hs & Hv & Hp) Hk Hfl.
    destruct (good_FlushPage s s1 k l ok Hs Hk Hfl) as (Hs1 & Hv1 & Hp1 & _).
    split; [done|]. split; [|congruence].
    intros j. by rewrite Hv1, Hv.
  - by exists st'.
Qed.

(** One operation of the configured size on a good state. *)
Lemma good_run_op (st : Pool) (o : op) :
  good st → sized (pool_page_size_ st) o →
  ∃ r st', run_op o st = Ok (r, st') ∧ good st' ∧
    pool_page_size_ st' = pool_page_size_ st ∧
    ∀ j, op_writes o ≠ Some j → page_view st' j = page_view st j.
Proof.
  intros Hgood Hsized. destruct o as [no s buf|no s buf|]; simpl.
  - destruct Hsized as [?|Hs]; [done|]. simpl in Hs. simplify_eq.
    destruct (good_read_page st no buf Hgood) as (out & st' & Heq & ? & ? & ? & _).
    exists out, st'. do 3 (split; [done|]). auto.
  - destruct Hsized as [?|Hs]; [done|]. simpl in Hs. simplify_eq.
    destruct (good_write_page st no buf Hgood) as (st' & Heq & ? & Hother & ? & _).
    exists buf, st'. split; [unfold bind; by rewrite Heq|]. do 2 (split; [done|]).
    intros j Hj. apply Hother. congruence.
  - destruct (good_FlushAll st Hgood) as (st' & Heq & ? & ? & ?).
    exists [], st'. split; [unfold bind; by rewrite Heq|]. do 2 (split; [done|]).
    auto.
Qed.

Lemma good_run_ops (st : Pool) (os : list op) :
  good st → Forall (sized (pool_page_size_ st)) os →
  ∃ st', run_ops os st = Ok (tt, st') ∧ good st' ∧
    pool_page_size_ st' = pool_page_size_ st ∧
    ∀ j, Forall (λ o, op_writes o ≠ Some j) os → page_view st' j = page_view st j.
Proof.
  revert st. induction os as [|o os IH]; intros st Hgood Hsized.
  { exists st. by do 3 (split; [done|]). }
  apply Forall_cons in Hsized as [Ho Hos].
  destruct (good_run_op st o Hgood Ho) as (r & st1 & Heq1 & Hgood1 & Hps1 & Hview1).
  rewrite <- Hps1 in Hos.
  destruct (IH st1 Hgood1 Hos) as (st' & Heq' & Hgood' & Hps' & Hview').
  exists st'. split; [simpl; unfold bind; by rewrite Heq1|].
  split; [done|]. split; [congruence|].
  intros j [Hj Hjs]%Forall_cons. rewrite Hview' by done. by apply Hview1.
Qed.

Lemma good_new (file_name : string) (cfg : gmap nat nat) (f : File) (st0 : Pool) :
  LRUBufferPool_new file_name cfg (Some f) = Ok st0 → no_failure f → good st0.
Proof.
  intros Hnew Hnf. split; [by eapply wf_new|].
  unfold LRUBufferPool_new in Hnew.
  destruct (map_begin cfg) as [[s n]|]; simplify_eq; simpl;
    (split; [done|]); (split; [by intros ? ? ? ?%lookup_empty_Some|]);
    (split; [by intros ? [? ?%lookup_empty_Some]|]);
    intros k p Hk; unfold resident in Hk; simpl in Hk;
    by rewrite lookup_empty in Hk.
Qed.

(** ** Round trip through the pool *)

(** C1 as the code has it.  Take a pool on a backing file whose reads and
    writes do not fail for good (they may be interrupted or cut short),
    used by one operation at a time with requests of the configured page
    size.  After any operations, [write_page] of [b] to page [k], then any
    operations that do not write [k] (reads, writes to other pages,
    flushes, as many as it takes to evict [k] and load it again), a
    [read_page] of [k] returns and yields [b].  This holds for every page
    number and every capacity. *)
Theorem write_read_round_trip (file_name : string) (cfg : gmap nat nat)
    (f : File) (st0 : Pool) (ops1 ops2 : list op) (k : nat)
    (b r0 : list byte) :
  LRUBufferPool_new file_name cfg (Some f) = Ok st0 →
  no_failure f →
  Forall (sized (pool_page_size_ st0)) (ops1 ++ ops2) →
  Forall (λ o, op_writes o ≠ Some k) ops2 →
  length b = pool_page_size_ st0 → length r0 = pool_page_size_ st0 →
  ∃ st',
    (run_ops ops1 ;;
     (write_page k (pool_page_size_ st0) b ;;
      (run_ops ops2 ;;
       read_page k (pool_page_size_ st0) r0))) st0
    = Ok (b, st').
Proof.
  intros Hnew Hnf [Hs1 Hs2]%Forall_app Hnw Hb Hr.
  pose proof (good_new _ _ _ _ Hnew Hnf) as Hgood0.
  destruct (good_run_ops st0 ops1 Hgood0 Hs1) as (st1 & Heq1 & Hgood1 & Hps1 & _).
  rewrite <- Hps1 in *.
  destruct (good_write_page st1 k b Hgood1) as (st2 & Heq2 & Hgood2 & _ & Hps2 & Hview2).
  rewrite <- Hps2 in *.
  destruct (good_run_ops st2 ops2 Hgood2 Hs2) as (st3 & Heq3 & Hgood3 & Hps3 & Hview3).
  rewrite <- Hps3 in *.
  destruct (good_read_page st3 k r0 Hgood3) as (out & st4 & Heq4 & _ & _ & _ & Hout).
  exists st4. unfold bind. rewrite Heq1, Heq2, Heq3, Heq4. do 2 f_equal.
  rewrite Hout, (Hview3 k Hnw), (Hview2 Hb).
  rewrite drop_ge by lia. by rewrite app_nil_r.
Qed.

Lemma write_read_round_trip_witness :
  ∃ st',
    (run_ops [] ;;
     (write_page 5 8 (replicate 8 "X"%byte) ;;
      (run_ops [OpWrite 6 8 (replicate 8 "Y"%byte);
                OpWrite 7 8 (replicate 8 "Z"%byte)] ;;
       read_page 5 8 (replicate 8 "Q"%byte))))
      (mkPool (mkFile [] [IoInterrupted; IoPartial 7; IoPartial 2; IoInterrupted;
                          IoPartial 0; IoPartial 1])
         1 8 ∅ 0 ∅ [] 0 0 [])
    = Ok (replicate 8 "X"%byte, st').
Proof.
  refine (write_read_round_trip "db" {[8 := 1]}
            (mkFile [] [IoInterrupted; IoPartial 7; IoPartial 2; IoInterrupted;
                        IoPartial 0; IoPartial 1])
            (mkPool (mkFile [] [IoInterrupted; IoPartial 7; IoPartial 2; IoInterrupted;
                                IoPartial 0; IoPartial 1])
               1 8 ∅ 0 ∅ [] 0 0 [])
            [] [OpWrite 6 8 (replicate 8 "Y"%byte); OpWrite 7 8 (replicate 8 "Z"%byte)]
            5 (replicate 8 "X"%byte) (replicate 8 "Q"%byte) _ _ _ _ _ _).
  - reflexivity.
  - apply (bool_decide_unpack _). vm_compute. exact I.
  - repeat constructor; by right.
  - repeat constructor; simpl; congruence.
  - reflexivity.
  - reflexivity.
Defined.

(** Two runs on which a page written and read back does not come back:
    requests of a size other than the configured one (the page is flushed
    at [id * page_size_] and loaded from [id * size]), and a load that
    fails for good after the eviction. *)
Lemma round_trip_broken :
  (∃ st', exec (write_page 1 4 (replicate 4 "X"%byte) ;;
                (write_page 2 4 (replicate 4 "Y"%byte) ;;
                 read_page 1 4 (replicate 4 "Q"%byte)))
            (LRUBufferPool_new "db" {[8 := 1]} (Some (mkFile [] [])))
          = Ok (replicate 4 x00, st')) ∧
  (∃ st', exec (write_page 5 8 (replicate 8 "X"%byte) ;;
                (write_page 6 8 (replicate 8 "Y"%byte) ;;
                 (write_page 7 8 (replicate 8 "Z"%byte) ;;
                  read_page 5 8 (replicate 8 "Q"%byte))))
            (LRUBufferPool_new "db" {[8 := 2]}
               (Some (mkFile [] [IoPartial 7; IoPartial 7; IoPartial 7;
                                 IoPartial 7; IoPartial 7; IoFailed])))
          = Ok (replicate 8 "Q"%byte, st')).
Proof. split; eexists; vm_compute; reflexivity. Qed.

(** * Further properties of the code *)

(** ** Pages: pins, byte access, load and flush *)

(** X1.  [pin] adds one to the pin count, and an [unpin] right after a
    [pin] returns the count the page had before and restores the page, for
    every count from 0 up to [INT_MAX - 1]: a [PinGuard] leaves no trace. *)
Theorem pin_then_unpin (p : Page) :
  (0 ≤ pin_count_ p < int_max)%Z →
  pin_count_ (pin p) = (pin_count_ p + 1)%Z ∧
  unpin (pin p) = (pin_count_ p, p).
Proof.
  intros Hrange. unfold unpin, pin. simpl.
  rewrite (wrap_int_id (pin_count_ p + 1)) by (unfold int_min, int_max in *; lia).
  split; [done|].
  destruct (Z.leb_spec (pin_count_ p + 1) 0) as [Hle|Hgt]; [lia|].
  replace (pin_count_ p + 1 - 1)%Z with (pin_count_ p) by lia.
  rewrite wrap_int_id by (unfold int_min, int_max in *; lia).
  by destruct p.
Qed.

Lemma pin_then_unpin_witness :
  unpin (pin (set_pin_count (Page_new 3 8) 2))
  = (2%Z, set_pin_count (Page_new 3 8) 2).
Proof.
  refine (proj2 (pin_then_unpin (set_pin_count (Page_new 3 8) 2) _)).
  vm_compute. split; congruence.
Defined.

(** X2.  What [WriteAt] stores, [ReadAt] at the same offset returns: after
    writing [len] bytes of [buf] at an offset inside the page, also into a
    page that was not loaded before, reading [len] bytes there yields the
    same count and the first [min len (size - offset)] bytes of [buf]. *)
Theorem WriteAt_then_ReadAt (p : Page) (offset len : nat) (buf out : list byte) :
  length (data_ p) = page_size_ p → len ≤ length buf →
  offset < page_size_ p →
  ∃ p' out',
    WriteAt p offset (Some buf) len = Ok (len `min` (page_size_ p - offset), p') ∧
    ReadAt p' offset (Some out) len = Ok (len `min` (page_size_ p - offset), out') ∧
    take (len `min` (page_size_ p - offset)) out'
    = take (len `min` (page_size_ p - offset)) buf.
Proof.
  intros Hlen Hbuf Hoff. set (n := len `min` (page_size_ p - offset)).
  unfold WriteAt. rewrite decide_False by lia. simpl. fold n.
  eexists _, _. split; [done|].
  unfold ReadAt. simpl. rewrite decide_False by lia. fold n.
  split; [done|].
  assert (length (take n buf) = n) as Hn by (rewrite length_take; lia).
  assert (take n (drop offset (memcpy_into (data_ p) offset (take n buf)))
          = take n buf) as ->.
  { unfold memcpy_into. rewrite drop_app_length'; [|rewrite length_take; lia].
    rewrite take_app_length'; done. }
  unfold memcpy_into. simpl. by rewrite take_app_length'.
Qed.

Lemma WriteAt_then_ReadAt_witness :
  ∃ p' out',
    WriteAt (Page_new 3 4) 2 (Some ["a"; "b"; "c"]%byte) 3 = Ok (2, p') ∧
    ReadAt p' 2 (Some ["q"; "q"; "q"]%byte) 3 = Ok (2, out') ∧
    take 2 out' = ["a"; "b"]%byte.
Proof.
  destruct (WriteAt_then_ReadAt (Page_new 3 4) 2 3 ["a"; "b"; "c"]%byte
              ["q"; "q"; "q"]%byte) as (p' & out' & Hw & Hr & Ht).
  - reflexivity.
  - simpl. lia.
  - simpl. lia.
  - exists p', out'. split; [exact Hw|]. split; [exact Hr|exact Ht].
Defined.

(** X3.  On a file that does not fail for good, [load_from_fd] returns
    true however its reads are interrupted or cut short: the buffer then
    holds the bytes of the file from the offset on, with zeros from the end
    of the file on (all zeros for a page past the end), the page is loaded
    and clean, its id, size and pin count are as before, and the file keeps
    its content. *)
Theorem load_from_fd_reads_file (p : Page) (f : File) (off : nat) :
  no_failure f → length (data_ p) = page_size_ p →
  ∃ f',
    load_from_fd p f off
    = (true,
       set_dirty (set_loaded (set_data p (file_page (content f) off (page_size_ p)))
                    true) false,
       f') ∧
    content f' = content f ∧ no_failure f' ∧
    (length (content f) ≤ off →
       file_page (content f) off (page_size_ p) = replicate (page_size_ p) zero_byte) ∧
    (off + page_size_ p ≤ length (content f) →
       file_page (content f) off (page_size_ p)
       = take (page_size_ p) (drop off (content f))).
Proof.
  intros Hnf Hlen. unfold load_from_fd.
  destruct (load_loop_no_fail f off (page_size_ p) (data_ p) 0 Hnf Hlen)
    as (f' & Heq & Hc & Hnf'); [lia|].
  exists f'. rewrite Heq. simpl. rewrite Nat.add_0_r, Nat.sub_0_r.
  do 3 (split; [done|]). split.
  - apply file_page_past_end.
  - intros Hin. unfold file_page.
    rewrite length_bytes_from.
    replace (page_size_ p - page_size_ p `min` (length (content f) - off)) with 0 by lia.
    simpl. by rewrite app_nil_r.
Qed.

Lemma load_from_fd_reads_file_witness :
  ∃ f',
    load_from_fd (Page_new 1 4)
      (mkFile ["a"; "b"; "c"; "d"; "e"; "f"]%byte [IoPartial 0; IoInterrupted]) 4
    = (true,
       mkPage 1 4 ["e"; "f"; "000"; "000"]%byte 0 false true 0, f').
Proof.
  destruct (load_from_fd_reads_file (Page_new 1 4)
              (mkFile ["a"; "b"; "c"; "d"; "e"; "f"]%byte [IoPartial 0; IoInterrupted]) 4)
    as (f' & Heq & _).
  - apply (bool_decide_unpack _). vm_compute. exact I.
  - reflexivity.
  - exists f'. exact Heq.
Defined.

(** X4.  When [load_from_fd] returns false, a read has failed for good;
    the page then keeps its id, size, pin count, buffer length, and its
    [loaded] and [dirty] flags, and the file keeps its content. *)
Theorem load_from_fd_failure (p p' : Page) (f f' : File) (off : nat) :
  length (data_ p) = page_size_ p →
  load_from_fd p f off = (false, p', f') →
  IoFailed ∈ script f ∧
  page_id_ p' = page_id_ p ∧ page_size_ p' = page_size_ p ∧
  pin_count_ p' = pin_count_ p ∧ length (data_ p') = page_size_ p ∧
  loaded_ p' = loaded_ p ∧ dirty_ p' = dirty_ p ∧
  content f' = content f.
Proof.
  intros Hlen Hload.
  destruct (load_from_fd_shape _ _ _ _ _ _ Hlen Hload)
    as (Hid & Hsz & Hpin & Hlen' & Hc & _ & Hl & Hd).
  split; [|done].
  destruct (decide (IoFailed ∈ script f)) as [Hin|Hnf]; [done|].
  unfold load_from_fd in Hload.
  destruct (load_loop_no_fail f off (page_size_ p) (data_ p) 0 Hnf Hlen)
    as (f1 & Heq & _); [lia|].
  rewrite Heq in Hload. discriminate.
Qed.

Lemma load_from_fd_failure_witness :
  loaded_ (load_from_fd (Page_new 1 4)
             (mkFile ["a"; "b"; "c"; "d"]%byte [IoPartial 0; IoFailed]) 0).1.2
  = false.
Proof.
  destruct (load_from_fd (Page_new 1 4)
              (mkFile ["a"; "b"; "c"; "d"]%byte [IoPartial 0; IoFailed]) 0)
    as [[ok p'] f'] eqn:Hload.
  assert (ok = false) as -> by (vm_compute in Hload; congruence).
  destruct (load_from_fd_failure _ _ _ _ _ (Page_new_length 1 4) Hload)
    as (_ & _ & _ & _ & _ & Hl & _).
  exact Hl.
Defined.

(** X5.  The outcomes of [flush_to_fd], whatever the file does: a page
    that is not loaded gives false and a clean page gives true, both without
    touching the page or the file; a true result leaves the page clean with
    its buffer as it was and, for a page that was dirty, the file holding
    the whole buffer at the offset; a false result leaves the page as it
    was, still dirty if it was. *)
Theorem flush_to_fd_outcomes (p p' : Page) (f f' : File) (off : nat) (ok : bool) :
  length (data_ p) = page_size_ p →
  flush_to_fd p f off = (ok, p', f') →
  (loaded_ p = false → ok = false ∧ p' = p ∧ f' = f) ∧
  (loaded_ p = true → dirty_ p = false → ok = true ∧ p' = p ∧ f' = f) ∧
  (ok = true →
     dirty_ p' = false ∧ data_ p' = data_ p ∧
     (dirty_ p = true → bytes_from (content f') off (page_size_ p) = data_ p)) ∧
  (ok = false → p' = p).
Proof.
  intros Hlen Hfl.
  destruct (flush_to_fd_shape _ _ _ _ _ _ Hfl) as (Hp & Hok & Hko & Hclean & _ & Hbytes).
  split; [|split; [|split]].
  - intros Hl. unfold flush_to_fd in Hfl. rewrite Hl in Hfl. simpl in Hfl.
    by simplify_eq.
  - intros Hl Hd. unfold flush_to_fd in Hfl. rewrite Hl, Hd in Hfl. simpl in Hfl.
    by simplify_eq.
  - intros ->. destruct (Hok eq_refl) as [_ Hd]. split; [done|]. split.
    + by destruct Hp as [->| ->].
    + intros Hdirty. by apply Hbytes.
  - done.
Qed.

Lemma flush_to_fd_outcomes_witness :
  ∃ p' f',
    flush_to_fd (mkPage 1 2 ["a"; "b"]%byte 0 true true 0)
      (mkFile [] [IoInterrupted; IoPartial 0]) 2 = (true, p', f') ∧
    dirty_ p' = false ∧ bytes_from (content f') 2 2 = ["a"; "b"]%byte.
Proof.
  destruct (flush_to_fd (mkPage 1 2 ["a"; "b"]%byte 0 true true 0)
              (mkFile [] [IoInterrupted; IoPartial 0]) 2) as [[ok p'] f'] eqn:Hfl.
  assert (ok = true) as -> by (vm_compute in Hfl; congruence).
  destruct (flush_to_fd_outcomes (mkPage 1 2 ["a"; "b"]%byte 0 true true 0)
              _ _ _ _ _ eq_refl Hfl) as (_ & _ & Hok & _).
  destruct (Hok eq_refl) as (Hd & _ & Hb).
  exists p', f'. split; [reflexivity|]. split; [exact Hd|]. exact (Hb eq_refl).
Defined.

(** X6.  On a file that does not fail for good, flushing a loaded dirty
    page succeeds however its writes are interrupted or cut short, and
    changes the file only inside the page's byte range: every byte of the
    range holds the buffer's byte, every byte outside it is as before (a
    byte of a gap before the range, created when the file was shorter,
    reads as zero). *)
Theorem flush_to_fd_confined (p : Page) (f : File) (off : nat) :
  no_failure f → loaded_ p = true → dirty_ p = true →
  length (data_ p) = page_size_ p →
  ∃ f',
    flush_to_fd p f off = (true, set_dirty p false, f') ∧ no_failure f' ∧
    (∀ i, off ≤ i < off + page_size_ p →
          byte_at (content f') i = byte_at (data_ p) (i - off)) ∧
    (∀ i, ¬ off ≤ i < off + page_size_ p →
          byte_at (content f') i = byte_at (content f) i).
Proof.
  intros Hnf Hl Hd Hlen.
  destruct (flush_to_fd_no_fail p f off Hnf Hl Hd Hlen) as (f' & Heq & Hnf' & Hbytes).
  exists f'. do 2 (split; [done|]). split.
  - intros i Hi. rewrite Hbytes. by rewrite decide_True.
  - intros i Hi. rewrite Hbytes. by rewrite decide_False.
Qed.

Lemma flush_to_fd_confined_witness :
  ∃ f',
    flush_to_fd (mkPage 1 2 ["a"; "b"]%byte 0 true true 0)
      (mkFile ["x"; "y"; "z"; "w"; "v"]%byte [IoPartial 0]) 2
    = (true, mkPage 1 2 ["a"; "b"]%byte 0 false true 0, f') ∧
    byte_at (content f') 1 = "y"%byte ∧ byte_at (content f') 4 = "v"%byte.
Proof.
  destruct (flush_to_fd_confined (mkPage 1 2 ["a"; "b"]%byte 0 true true 0)
              (mkFile ["x"; "y"; "z"; "w"; "v"]%byte [IoPartial 0]) 2)
    as (f' & Heq & _ & _ & Hout).
  - apply (bool_decide_unpack _). vm_compute. exact I.
  - reflexivity.
  - reflexivity.
  - reflexivity.
  - exists f'. split; [exact Heq|]. split.
    + rewrite Hout by (simpl; lia). reflexivity.
    + rewrite Hout by (simpl; lia). reflexivity.
Defined.

(** X7.  What a flush has written, a load reads back: after [flush_to_fd]
    has returned true for a dirty page, [load_from_fd] of a new page of the
    same size at the same offset, on the resulting file if it does not fail
    for good, returns true and fills the buffer with the flushed bytes. *)
Theorem flush_then_load (p p' : Page) (f f' : File) (off : nat) (id' : nat) :
  length (data_ p) = page_size_ p → dirty_ p = true →
  flush_to_fd p f off = (true, p', f') → no_failure f' →
  ∃ q f'',
    load_from_fd (Page_new id' (page_size_ p)) f' off = (true, q, f'') ∧
    data_ q = data_ p ∧ loaded_ q = true ∧ dirty_ q = false ∧
    content f'' = content f'.
Proof.
  intros Hlen Hd Hfl Hnf.
  destruct (flush_to_fd_shape _ _ _ _ _ _ Hfl) as (_ & _ & _ & _ & _ & Hbytes).
  specialize (Hbytes eq_refl Hd Hlen).
  unfold load_from_fd.
  destruct (load_loop_no_fail f' off (page_size_ p)
              (data_ (Page_new id' (page_size_ p))) 0 Hnf)
    as (f'' & Heq & Hc & _); [apply Page_new_length|lia|].
  simpl in *. rewrite Heq. simpl. eexists _, f''. split; [done|]. simpl.
  split; [|done].
  rewrite Nat.add_0_r, Nat.sub_0_r. unfold file_page. rewrite Hbytes, Hlen.
  by rewrite Nat.sub_diag, app_nil_r.
Qed.

Lemma flush_then_load_witness :
  ∃ q f'',
    load_from_fd (Page_new 7 2)
      (flush_to_fd (mkPage 1 2 ["a"; "b"]%byte 0 true true 0)
         (mkFile ["x"]%byte [IoPartial 0]) 2).2 2 = (true, q, f'') ∧
    data_ q = ["a"; "b"]%byte.
Proof.
  destruct (flush_to_fd (mkPage 1 2 ["a"; "b"]%byte 0 true true 0)
              (mkFile ["x"]%byte [IoPartial 0]) 2) as [[ok p'] f'] eqn:Hfl.
  assert (ok = true) as -> by (vm_compute in Hfl; congruence).
  assert (no_failure f') as Hnf.
  { assert (f' = mkFile ["x"; "000"; "a"; "b"]%byte []) as ->
      by (vm_compute in Hfl; congruence).
    apply (bool_decide_unpack _). vm_compute. exact I. }
  destruct (flush_then_load (mkPage 1 2 ["a"; "b"]%byte 0 true true 0)
              _ _ _ 2 7 eq_refl eq_refl Hfl Hnf)
    as (q & f'' & Hload & Hdata & _).
  exists q, f''. split; [exact Hload|exact Hdata].
Defined.

(** ** The pool: recency order, pins, counters and warnings *)

Lemma filter_ne_id (x : nat) (l : list nat) : x ∉ l → filter (λ y, y ≠ x) l = l.
Proof.
  induction l as [|a l IH]; intros Hx; [done|].
  apply not_elem_of_cons in Hx as [Hne Hx].
  rewrite filter_cons_True by done. f_equal. auto.
Qed.

(** What [EvictIfNeeded] leaves alone. *)
Lemma evicted_effect (st st1 : Pool) :
  evicted st st1 →
  hit_count_ st1 = hit_count_ st ∧ miss_count_ st1 = miss_count_ st ∧
  capacity_ st1 = capacity_ st ∧ pool_page_size_ st1 = pool_page_size_ st ∧
  (log_ st1 = log_ st ∨
   log_ st1 = log_ st ++ [LogAllPinned] ∧
   ¬ size (page_table_ st) < capacity_ st ∧ all_pinned st) ∧
  (∀ k l p, page_table_ st !! k = Some l → heap_ st !! l = Some p →
            pin_count_ p ≠ 0%Z → page_table_ st1 !! k = Some l).
Proof.
  intros [Hroom | Hfull Hall | front back pid l p ok st1' Hfull Hlru Hback Hpid Hp Hpin Hfl].
  - do 4 (split; [done|]). split; [by left|]. done.
  - simpl. do 4 (split; [done|]). split; [by right|]. done.
  - destruct (FlushPage_inv _ _ _ _ _ Hp Hfl) as (p' & fd' & -> & _). simpl.
    do 4 (split; [done|]). split; [by left|].
    intros k l0 p0 Hk Hp0 Hpin0.
    destruct (decide (k = pid)) as [->|Hne]; [|by rewrite lookup_delete_ne].
    simplify_eq.
Qed.

(** What one [GetPage] does to the fields around the frames. *)
Lemma GetPage_effect (no page_size : nat) (st : Pool) :
  wf st →
  ∃ l p st1, GetPage no page_size st = Ok (Some l, st1) ∧ wf st1 ∧
    heap_ st1 !! l = Some p ∧
    capacity_ st1 = capacity_ st ∧ pool_page_size_ st1 = pool_page_size_ st ∧
    ((hit_count_ st1 + miss_count_ st1) `mod` 2 ^ 64
     = (hit_count_ st + miss_count_ st + 1) `mod` 2 ^ 64)%N ∧
    (log_ st1 = log_ st ∨
     log_ st1 = log_ st ++ [LogAllPinned] ∧
     ¬ size (page_table_ st) < capacity_ st ∧ all_pinned st) ∧
    (∀ k l p, page_table_ st !! k = Some l → heap_ st !! l = Some p →
              pin_count_ p ≠ 0%Z → page_table_ st1 !! k = Some l).
Proof.
  intros Hwf.
  destruct (GetPage_total no page_size st Hwf)
    as (l & p & st1 & Heq & Hwf1 & _ & Hp & _ & Hcap & Hps).
  exists l, p, st1. do 5 (split; [done|]).
  destruct (page_table_ st !! no) as [l0|] eqn:Hno.
  - rewrite (GetPage_hit no page_size st l0 Hno) in Heq. simplify_eq. simpl.
    split; [|split; [by left|done]].
    unfold fetch_add_1. rewrite N.Div0.add_mod_idemp_l. f_equal. lia.
  - destruct (GetPage_miss no page_size st Hwf Hno) as (st0 & Hev & Heq').
    rewrite Heq' in Heq. simplify_eq.
    destruct (evicted_effect _ _ Hev) as (Hh & Hm & _ & _ & Hlog & Hstay).
    simpl in *. rewrite Hh, Hm.
    split; [|split; [done|]].
    + unfold fetch_add_1. rewrite N.Div0.add_mod_idemp_r. f_equal. lia.
    + intros k l1 p1 Hk Hp1 Hpin1.
      assert (k ≠ no) by (intros ->; congruence).
      rewrite lookup_insert_ne by done. by eapply Hstay.
Qed.

(** What one public operation does to the fields around the frames. *)
Lemma run_op_effect (st : Pool) (o : op) :
  wf st →
  ∃ r st', run_op o st = Ok (r, st') ∧ wf st' ∧
    capacity_ st' = capacity_ st ∧ pool_page_size_ st' = pool_page_size_ st ∧
    ((hit_count_ st' + miss_count_ st') `mod` 2 ^ 64
     = (hit_count_ st + miss_count_ st + (if is_request o then 1 else 0))
         `mod` 2 ^ 64)%N ∧
    (log_ st' = log_ st ∨
     log_ st' = log_ st ++ [LogAllPinned] ∧
     ¬ size (page_table_ st) < capacity_ st ∧ all_pinned st) ∧
    (∀ k l p, page_table_ st !! k = Some l → heap_ st !! l = Some p →
              pin_count_ p ≠ 0%Z → page_table_ st' !! k = Some l).
Proof.
  intros Hwf. destruct o as [no s buf|no s buf|]; simpl.
  - destruct (GetPage_effect no s st Hwf)
      as (l & p & st1 & Heq & Hwf1 & Hp & Hcap & Hps & Hcnt & Hlog & Hstay).
    destruct (read_page_spec no s buf st st1 l p Heq Hp) as (n & out & _ & Hrd).
    eexists _, _. split; [exact Hrd|].
    split; [by eapply wf_set_heap|]. simpl. done.
  - destruct (GetPage_effect no s st Hwf)
      as (l & p & st1 & Heq & Hwf1 & Hp & Hcap & Hps & Hcnt & Hlog & Hstay).
    destruct (write_page_spec no s buf st st1 l p Heq Hp) as (n & p' & _ & Hwr).
    eexists _, _. split; [unfold bind; rewrite Hwr; reflexivity|].
    split; [by eapply wf_set_heap|]. simpl. done.
  - destruct (FlushAll_preserves
                (λ st', wf st' ∧ capacity_ st' = capacity_ st ∧
                        pool_page_size_ st' = pool_page_size_ st ∧
                        hit_count_ st' = hit_count_ st ∧
                        miss_count_ st' = miss_count_ st ∧
                        log_ st' = log_ st) st)
      as (st' & Heq & (Hwf' & Hcap & Hps & Hh & Hm & Hlog) & Htab).
    + intros st' [Hwf' _]. apply Hwf'.
    + intros st' k l ok st1 (Hwf' & Hcap & Hps & Hh & Hm & Hlog) Hk Hfl.
      split; [by eapply wf_FlushPage|].
      apply wf_unfold in Hwf' as (_ & _ & Hlive).
      destruct (Hlive _ _ Hk) as [p Hp].
      destruct (FlushPage_inv _ _ _ _ _ Hp Hfl) as (p' & fd' & -> & _). done.
    + done.
    + eexists _, st'. split; [unfold bind; rewrite Heq; reflexivity|].
      split; [done|]. rewrite Hcap, Hps, Hh, Hm, Hlog, Htab, N.add_0_r.
      do 3 (split; [done|]). split; [by left|]. done.
Qed.

(** A test for [unpinned] that can be evaluated. *)
Lemma unpinned_check (st : Pool) :
  map_Forall (λ _ l, from_option pin_count_ 0%Z (heap_ st !! l) = 0%Z) (page_table_ st) →
  unpinned st.
Proof.
  intros HF k p Hk. unfold resident in Hk.
  destruct (page_table_ st !! k) as [l|] eqn:Hl; [|done]. simpl in Hk.
  specialize (HF k l Hl). simpl in HF. by rewrite Hk in HF.
Qed.

(** X8.  A hit does no I/O and only reorders the list: [GetPage] of a
    resident page returns its handle, moves the page number from where it
    was in [lru_list_] to the front, keeps the other page numbers in their
    order, and leaves the table, the frames, the file and the miss counter
    as they were. *)
Theorem hit_moves_to_front (st : Pool) (no page_size : nat) (l : nat) :
  wf st → page_table_ st !! no = Some l →
  ∃ st' l1 l2,
    GetPage no page_size st = Ok (Some l, st') ∧
    lru_list_ st = l1 ++ no :: l2 ∧ lru_list_ st' = no :: l1 ++ l2 ∧
    page_table_ st' = page_table_ st ∧ heap_ st' = heap_ st ∧
    fd_ st' = fd_ st ∧ miss_count_ st' = miss_count_ st.
Proof.
  intros (Hnd & Hdom & _)%wf_unfold Hno.
  assert (no ∈ lru_list_ st) as Hin by (apply Hdom; eauto).
  apply list_elem_of_split in Hin as (l1 & l2 & Hlru).
  rewrite Hlru in Hnd. apply NoDup_app in Hnd as (_ & Hl1 & Hnd).
  apply NoDup_cons in Hnd as [Hl2 _].
  eexists _, l1, l2. split; [by apply GetPage_hit|]. simpl.
  split; [done|]. split; [|done].
  rewrite Hlru, filter_app, filter_cons_False by naive_solver.
  rewrite !filter_ne_id; [done|done|].
  intros Hin. apply (Hl1 no Hin). by left.
Qed.

Lemma hit_moves_to_front_witness :
  ∃ st' l1 l2,
    GetPage 2 8 (mkPool (mkFile [] []) 3 8
                   {[0 := Page_new 1 8; 1 := Page_new 2 8; 2 := Page_new 3 8]} 3
                   {[1 := 0; 2 := 1; 3 := 2]} [3; 2; 1] 0 3 [])
    = Ok (Some 1, st') ∧
    [3; 2; 1] = l1 ++ 2 :: l2 ∧ lru_list_ st' = 2 :: l1 ++ l2.
Proof.
  destruct (hit_moves_to_front
              (mkPool (mkFile [] []) 3 8
                 {[0 := Page_new 1 8; 1 := Page_new 2 8; 2 := Page_new 3 8]} 3
                 {[1 := 0; 2 := 1; 3 := 2]} [3; 2; 1] 0 3 []) 2 8 1)
    as (st' & l1 & l2 & Heq & Hl & Hl' & _).
  - apply (bool_decide_unpack _). vm_compute. exact I.
  - reflexivity.
  - exists st', l1, l2. split; [exact Heq|]. split; [exact Hl|exact Hl'].
Defined.

(** X9.  The victim is the least recently used page: on a full pool with
    no page pinned, a miss removes the page number at the back of
    [lru_list_] and no other, puts the requested page at the front, and
    leaves the number of resident pages as it was. *)
Theorem miss_evicts_least_recent (st : Pool) (no page_size : nat)
    (front : list nat) (victim : nat) :
  wf st → unpinned st → page_table_ st !! no = None →
  ¬ size (page_table_ st) < capacity_ st →
  lru_list_ st = front ++ [victim] →
  ∃ l st',
    GetPage no page_size st = Ok (Some l, st') ∧
    lru_list_ st' = no :: front ∧
    page_table_ st' !! victim = None ∧ page_table_ st' !! no = Some l ∧
    (∀ k, k ≠ victim → k ≠ no → page_table_ st' !! k = page_table_ st !! k) ∧
    size (page_table_ st') = size (page_table_ st).
Proof.
  intros Hwf Hunp Hno Hfull Hlru.
  apply wf_unfold in Hwf as Hwf'. destruct Hwf' as (Hnd & Hdom & Hlive).
  assert (∀ k, k ∈ lru_list_ st → ∃ p, resident st k = Some p ∧ pin_count_ p = 0%Z)
    as Hres.
  { intros k [l Hk]%Hdom. destruct (Hlive _ _ Hk) as [p Hp].
    assert (resident st k = Some p) as Hr by (unfold resident; rewrite Hk; done).
    exists p. split; [done|]. by eapply Hunp. }
  destruct (GetPage_miss no page_size st Hwf Hno) as (st1 & Hev & Heq).
  eexists _, _. split; [exact Heq|].
  inversion Hev as [Hroom | Hfull' Hall | front' back pid l p ok st1' _ Hlru' Hback Hpid Hp Hpin Hfl];
    simpl in *.
  - done.
  - exfalso. destruct (Hres victim) as (p & Hr & Hpin).
    { rewrite Hlru. apply elem_of_app. right. by left. }
    by apply (Hall victim p).
  - subst st1. destruct back as [|k back].
    + rewrite Hlru in Hlru'. apply app_inj_tail in Hlru' as [-> ->].
      destruct (FlushPage_inv (set_miss_count st (fetch_add_1 (miss_count_ st)))
                  _ _ _ _ Hp Hfl) as (p' & fd' & -> & _). simpl in *.
      assert (pid ≠ no) as Hne by (intros ->; congruence).
      rewrite app_nil_r. split; [done|].
      split; [by rewrite lookup_insert_ne, lookup_delete_eq|].
      split; [by rewrite lookup_insert_eq|]. split.
      * intros k Hk1 Hk2. by rewrite lookup_insert_ne, lookup_delete_ne.
      * rewrite map_size_insert_None by (by rewrite lookup_delete_ne).
        rewrite map_size_delete_Some by eauto.
        assert (size (page_table_ st) ≠ 0); [|lia].
        intros Hz%map_size_empty_inv. rewrite Hz in Hpid. by rewrite lookup_empty in Hpid.
    + exfalso. apply Forall_cons in Hback as [Hk _].
      destruct (Hres k) as (q & Hr & Hq).
      { rewrite Hlru'. apply elem_of_app. right. right. by left. }
      by apply (Hk q).
Qed.

Lemma miss_evicts_least_recent_witness :
  ∃ l st',
    GetPage 4 8 (mkPool (mkFile [] []) 3 8
                   {[0 := Page_new 1 8; 1 := Page_new 2 8; 2 := Page_new 3 8]} 3
                   {[1 := 0; 2 := 1; 3 := 2]} [3; 2; 1] 0 3 [])
    = Ok (Some l, st') ∧
    lru_list_ st' = [4; 3; 2] ∧ page_table_ st' !! 1 = None.
Proof.
  destruct (miss_evicts_least_recent
              (mkPool (mkFile [] []) 3 8
                 {[0 := Page_new 1 8; 1 := Page_new 2 8; 2 := Page_new 3 8]} 3
                 {[1 := 0; 2 := 1; 3 := 2]} [3; 2; 1] 0 3 []) 4 8 [3; 2] 1)
    as (l & st' & Heq & Hl & Hv & _).
  - apply (bool_decide_unpack _). vm_compute. exact I.
  - apply unpinned_check. apply (bool_decide_unpack _). vm_compute. exact I.
  - reflexivity.
  - vm_compute. lia.
  - reflexivity.
  - exists l, st'. split; [exact Heq|]. split; [exact Hl|exact Hv].
Defined.

(** X10.  A pinned page is never evicted: whatever the operation
    ([read_page] or [write_page] of any page, [FlushAll]), the capacity and
    the I/O faults, a resident page whose pin count is not 0 is still in the
    table, under the same handle, when the operation returns. *)
Theorem pinned_page_stays (st : Pool) (o : op) (k l : nat) (p : Page) :
  wf st → page_table_ st !! k = Some l → heap_ st !! l = Some p →
  pin_count_ p ≠ 0%Z →
  ∃ r st', run_op o st = Ok (r, st') ∧ page_table_ st' !! k = Some l.
Proof.
  intros Hwf Hk Hp Hpin.
  destruct (run_op_effect st o Hwf) as (r & st' & Heq & _ & _ & _ & _ & _ & Hstay).
  exists r, st'. split; [done|]. by eapply Hstay.
Qed.

Lemma pinned_page_stays_witness :
  ∃ r st',
    run_op (OpRead 4 8 (replicate 8 "Q"%byte))
      (mkPool (mkFile [] []) 2 8
         {[0 := set_pin_count (Page_new 1 8) 1; 1 := Page_new 2 8]} 2
         {[1 := 0; 2 := 1]} [2; 1] 0 2 [])
    = Ok (r, st') ∧ page_table_ st' !! 1 = Some 0.
Proof.
  apply (pinned_page_stays
           (mkPool (mkFile [] []) 2 8
              {[0 := set_pin_count (Page_new 1 8) 1; 1 := Page_new 2 8]} 2
              {[1 := 0; 2 := 1]} [2; 1] 0 2 [])
           (OpRead 4 8 (replicate 8 "Q"%byte)) 1 0
           (set_pin_count (Page_new 1 8) 1)).
  - apply (bool_decide_unpack _). vm_compute. exact I.
  - reflexivity.
  - reflexivity.
  - vm_compute. congruence.
Defined.

(** X11.  The two counters count the requests: every run of public
    operations on a consistent pool returns, and afterwards
    [hit_count_ + miss_count_] has grown, modulo 2^64, by the number of
    [read_page] and [write_page] calls of the run; [FlushAll] counts
    nothing. *)
Theorem counters_count_requests (st : Pool) (os : list op) :
  wf st →
  ∃ st', run_ops os st = Ok (tt, st') ∧
    ((hit_count_ st' + miss_count_ st') `mod` 2 ^ 64
     = (hit_count_ st + miss_count_ st + N.of_nat (requests os)) `mod` 2 ^ 64)%N.
Proof.
  revert st. induction os as [|o os IH]; intros st Hwf.
  - exists st. split; [done|]. unfold requests. simpl. by rewrite N.add_0_r.
  - destruct (run_op_effect st o Hwf) as (r & st1 & Heq & Hwf1 & _ & _ & Hcnt & _).
    destruct (IH st1 Hwf1) as (st' & Heq' & Hcnt').
    exists st'. split; [simpl; unfold bind; by rewrite Heq|].
    rewrite Hcnt'. rewrite <- N.Div0.add_mod_idemp_l, Hcnt, N.Div0.add_mod_idemp_l.
    f_equal.
    assert (requests (o :: os) = (if is_request o then 1 else 0) + requests os) as ->
      by (unfold requests; rewrite filter_cons; destruct (is_request o);
          [rewrite decide_True by done|rewrite decide_False by (by intros [])];
          done).
    destruct (is_request o); lia.
Qed.

Lemma counters_count_requests_witness :
  ∃ st',
    run_ops [OpWrite 1 8 (replicate 8 "X"%byte); OpFlushAll;
             OpRead 1 8 (replicate 8 "Q"%byte); OpRead 2 8 (replicate 8 "Q"%byte)]
      (mkPool (mkFile [] []) 1 8 ∅ 0 ∅ [] 0 0 [])
    = Ok (tt, st') ∧
    ((hit_count_ st' + miss_count_ st') `mod` 2 ^ 64 = 3)%N.
Proof.
  apply (counters_count_requests (mkPool (mkFile [] []) 1 8 ∅ 0 ∅ [] 0 0 [])
           [OpWrite 1 8 (replicate 8 "X"%byte); OpFlushAll;
            OpRead 1 8 (replicate 8 "Q"%byte); OpRead 2 8 (replicate 8 "Q"%byte)]).
  apply (bool_decide_unpack _). vm_compute. exact I.
Defined.

Lemma seq_run_op_log (st : Pool) (o : op) :
  seq_inv st → 1 ≤ capacity_ st →
  ∃ r st', run_op o st = Ok (r, st') ∧ seq_inv st' ∧
    capacity_ st' = capacity_ st ∧ log_ st' = log_ st.
Proof.
  intros Hinv Hcap.
  destruct (seq_inv_run_op st o Hinv Hcap) as (r & st' & Heq & Hinv' & Hcap').
  exists r, st'. do 3 (split; [done|]).
  destruct Hinv as (Hwf & Hunp & Hsize).
  destruct (run_op_effect st o Hwf) as (r' & st'' & Heq' & _ & _ & _ & _ & Hlog & _).
  rewrite Heq in Heq'. simplify_eq.
  destruct Hlog as [Hlog|(_ & Hfull & Hall)]; [done|]. exfalso.
  destruct (map_choose (page_table_ st)) as (k & l & Hk).
  { intros Hempty. rewrite Hempty, map_size_empty in Hfull. lia. }
  apply wf_unfold in Hwf as (_ & _ & Hlive). destruct (Hlive _ _ Hk) as [p Hp].
  assert (resident st k = Some p) as Hr by (unfold resident; rewrite Hk; done).
  apply (Hall k p Hr). by eapply Hunp.
Qed.

(** X12.  A pool with room for at least one page that is used by one
    operation at a time never writes a warning: after any run of public
    operations from the constructor on, whatever the I/O faults, the log
    holds neither the line about a page it failed to get nor the line
    about all pages being pinned. *)
Theorem sequential_run_logs_nothing (file_name : string) (cfg : gmap nat nat)
    (f : File) (st0 : Pool) (os : list op) :
  LRUBufferPool_new file_name cfg (Some f) = Ok st0 → 1 ≤ capacity_ st0 →
  ∃ st, run_ops os st0 = Ok (tt, st) ∧ log_ st = [].
Proof.
  intros Hnew Hcap.
  assert (log_ st0 = []) as Hlog0.
  { unfold LRUBufferPool_new in Hnew.
    destruct (map_begin cfg) as [[s c]|]; by simplify_eq. }
  pose proof (seq_inv_new _ _ _ _ Hnew) as Hinv. rewrite <- Hlog0. clear Hnew Hlog0.
  revert st0 Hcap Hinv. induction os as [|o os IH]; intros st Hcap Hinv.
  - by exists st.
  - destruct (seq_run_op_log st o Hinv Hcap) as (r & st1 & Heq & Hinv1 & Hcap1 & Hlog1).
    destruct (IH st1) as (st' & Heq' & Hlog'); [lia|done|].
    exists st'. split; [simpl; unfold bind; by rewrite Heq|congruence].
Qed.

Lemma sequential_run_logs_nothing_witness :
  ∃ st,
    run_ops [OpWrite 1 8 (replicate 8 "X"%byte); OpRead 2 8 (replicate 8 "Q"%byte);
             OpFlushAll; OpRead 1 8 (replicate 8 "Q"%byte)]
      (mkPool (mkFile [] [IoFailed; IoInterrupted]) 1 8 ∅ 0 ∅ [] 0 0 [])
    = Ok (tt, st) ∧ log_ st = [].
Proof.
  apply (sequential_run_logs_nothing "db" {[8 := 1]}
           (mkFile [] [IoFailed; IoInterrupted])).
  - reflexivity.
  - simpl. lia.
Defined.

(** ** Durability: [FlushAll], the destructor and a new pool *)

Lemma FlushPage_clean_mono (st st1 : Pool) (l : nat) (p : Page) (ok : bool) :
  heap_ st !! l = Some p → FlushPage l st = Ok (ok, st1) →
  ∀ l2, clean_at st l2 → clean_at st1 l2.
Proof.
  intros Hp Hfl l2 Hclean q Hq.
  destruct (FlushPage_inv _ _ _ _ _ Hp Hfl) as (p' & fd' & -> & Hp' & _).
  simpl in Hq. destruct (decide (l = l2)) as [->|Hne].
  - rewrite lookup_insert_eq in Hq. simplify_eq.
    destruct Hp' as [->| ->]; [by apply Hclean|done].
  - rewrite lookup_insert_ne in Hq by done. by apply Hclean.
Qed.

Lemma flush_each_clean (pages : list (nat * nat)) (st : Pool) :
  good st → (∀ k l, (k, l) ∈ pages → page_table_ st !! k = Some l) →
  ∃ st', flush_each pages st = Ok (tt, st') ∧ good st' ∧
    (∀ j, page_view st' j = page_view st j) ∧
    pool_page_size_ st' = pool_page_size_ st ∧
    page_table_ st' = page_table_ st ∧
    (∀ l, clean_at st l → clean_at st' l) ∧
    (∀ k l, (k, l) ∈ pages → clean_at st' l).
Proof.
  revert st. induction pages as [|[k l] pages IH]; intros st Hgood Hin.
  - exists st. do 6 (split; [done|]). by intros ? ? ?%elem_of_nil.
  - assert (page_table_ st !! k = Some l) as Hk by (apply Hin; by left).
    pose proof (good_wf _ Hgood) as Hwf.
    apply wf_unfold in Hwf as (_ & _ & Hlive). destruct (Hlive _ _ Hk) as [p Hp].
    destruct (FlushPage_spec st l p Hp) as (ok & p' & fd' & Hfl & _).
    destruct (good_FlushPage _ _ _ _ _ Hgood Hk Hfl)
      as (Hgood1 & Hview1 & Hps1 & Htab1 & _ & q & Hq & Hqd).
    pose proof (FlushPage_clean_mono _ _ _ _ _ Hp Hfl) as Hmono1.
    destruct (IH _ Hgood1) as (st' & Heq & Hgood' & Hview' & Hps' & Htab' & Hmono' & Hcl').
    { intros k2 l2 Hin2. rewrite Htab1. apply Hin. by right. }
    exists st'. split; [simpl; unfold bind; by rewrite Hfl|].
    split; [done|]. split; [intros j; by rewrite Hview', Hview1|].
    split; [congruence|]. split; [congruence|].
    split; [intros l2 Hl2; by apply Hmono', Hmono1|].
    intros k2 l2 [Heq2|Hin2]%elem_of_cons; [|by eapply Hcl'].
    simplify_eq. apply Hmono'. intros q' Hq'. congruence.
Qed.

Lemma good_FlushAll_clean (st : Pool) :
  good st →
  ∃ st', FlushAll st = Ok (tt, st') ∧ good st' ∧
    pool_page_size_ st' = pool_page_size_ st ∧
    page_table_ st' = page_table_ st ∧
    (∀ k p, resident st' k = Some p → dirty_ p = false) ∧
    (∀ j, page_view st' j = page_view st j) ∧
    (∀ j, on_disk st' j = page_view st j).
Proof.
  intros Hgood.
  destruct (flush_each_clean (map_to_list (page_table_ st)) st Hgood)
    as (st' & Heq & Hgood' & Hview & Hps & Htab & _ & Hclean).
  { by intros k l ?%elem_of_map_to_list. }
  assert (∀ k p, resident st' k = Some p → dirty_ p = false) as Hall.
  { intros k p Hr. unfold resident in Hr.
    destruct (page_table_ st' !! k) as [l|] eqn:Hk; [|done]. simpl in Hr.
    apply (Hclean k l); [|done]. apply elem_of_map_to_list. by rewrite <- Htab. }
  exists st'. split; [unfold FlushAll, bind, get; exact Heq|].
  do 5 (split; [done|]).
  intros j. rewrite <- Hview. unfold page_view.
  destruct (resident st' j) as [p|] eqn:Hr; [|done].
  destruct Hgood' as (_ & _ & _ & _ & Hok).
  destruct (Hok j p Hr) as (_ & _ & _ & _ & _ & Hdisk).
  symmetry. apply Hdisk. by eapply Hall.
Qed.

(** X13.  [FlushAll] makes the pool's contents durable: on a pool used by
    one operation at a time with the configured page size, over a file that
    does not fail for good, [FlushAll] returns, leaves every resident page
    clean and resident, and afterwards the file holds, for every page
    number, the bytes the pool presented for it before the call. *)
Theorem FlushAll_makes_durable (st : Pool) :
  good st →
  ∃ st', FlushAll st = Ok (tt, st') ∧
    page_table_ st' = page_table_ st ∧
    (∀ k p, resident st' k = Some p → dirty_ p = false) ∧
    (∀ j, on_disk st' j = page_view st j) ∧
    (∀ j, page_view st' j = page_view st j).
Proof.
  intros Hgood.
  destruct (good_FlushAll_clean st Hgood)
    as (st' & Heq & _ & _ & Htab & Hall & Hview & Hdisk).
  by exists st'.
Qed.

Lemma FlushAll_makes_durable_witness :
  ∃ st st', 
    run_ops [OpWrite 1 2 ["a"; "b"]%byte; OpWrite 0 2 ["c"; "d"]%byte]
      (mkPool (mkFile [] [IoPartial 0; IoInterrupted]) 2 2 ∅ 0 ∅ [] 0 0 [])
    = Ok (tt, st) ∧
    FlushAll st = Ok (tt, st') ∧
    on_disk st' 0 = page_view st 0 ∧ on_disk st' 1 = page_view st 1.
Proof.
  destruct (good_run_ops
              (mkPool (mkFile [] [IoPartial 0; IoInterrupted]) 2 2 ∅ 0 ∅ [] 0 0 [])
              [OpWrite 1 2 ["a"; "b"]%byte; OpWrite 0 2 ["c"; "d"]%byte])
    as (st & Heq & Hgood & _).
  - apply (good_new "db" {[2 := 2]} (mkFile [] [IoPartial 0; IoInterrupted]));
      [reflexivity|]. apply (bool_decide_unpack _). vm_compute. exact I.
  - repeat constructor; by right.
  - destruct (FlushAll_makes_durable st Hgood) as (st' & Hfl & _ & _ & Hdisk & _).
    exists st, st'. split; [exact Heq|]. split; [exact Hfl|].
    split; apply Hdisk.
Defined.

(** X14.  A pool that is destroyed leaves its contents to the next one:
    the destructor of a pool (used by one operation at a time with the
    configured page size, over a file that does not fail for good) returns,
    and a pool constructed afterwards with the same page size on the file
    it leaves behind reads, for every page number, the bytes the old pool
    presented for it. *)
Theorem destroyed_pool_is_restored (st : Pool) :
  good st →
  ∃ f', LRUBufferPool_delete st = Ok f' ∧ no_failure f' ∧
    ∀ file_name cfg f2 st2 j buf,
      content f2 = content f' → no_failure f2 →
      LRUBufferPool_new file_name cfg (Some f2) = Ok st2 →
      pool_page_size_ st2 = pool_page_size_ st →
      ∃ st3,
        read_page j (pool_page_size_ st) buf st2
        = Ok (page_view st j ++ drop (pool_page_size_ st) buf, st3).
Proof.
  intros Hgood.
  destruct (good_FlushAll_clean st Hgood)
    as (st' & Heq & Hgood' & Hps & _ & _ & _ & Hdisk).
  exists (fd_ st'). unfold LRUBufferPool_delete. rewrite Heq.
  split; [done|]. split; [apply Hgood'|].
  intros file_name cfg f2 st2 j buf Hc Hnf Hnew Hps2.
  pose proof (good_new _ _ _ _ Hnew Hnf) as Hgood2.
  assert (fd_ st2 = f2 ∧ page_table_ st2 = ∅) as [Hfd2 Htab2].
  { unfold LRUBufferPool_new in Hnew.
    destruct (map_begin cfg) as [[s c]|]; by simplify_eq. }
  destruct (good_read_page st2 j buf Hgood2) as (out & st3 & Hrd & _ & _ & _ & Hout).
  rewrite Hps2 in Hrd, Hout. exists st3. rewrite Hrd. do 2 f_equal.
  rewrite Hout. f_equal. rewrite <- Hdisk.
  unfold page_view, resident. rewrite Htab2, lookup_empty. simpl.
  unfold on_disk. by rewrite Hfd2, Hc, Hps2, Hps.
Qed.

Lemma destroyed_pool_is_restored_witness :
  ∃ st f' st3,
    run_ops [OpWrite 1 2 ["a"; "b"]%byte; OpWrite 0 2 ["c"; "d"]%byte]
      (mkPool (mkFile [] [IoPartial 0; IoInterrupted]) 1 2 ∅ 0 ∅ [] 0 0 [])
    = Ok (tt, st) ∧
    LRUBufferPool_delete st = Ok f' ∧
    read_page 1 2 ["q"; "q"]%byte
      (mkPool (mkFile (content f') [IoInterrupted]) 1 2 ∅ 0 ∅ [] 0 0 [])
    = Ok (["a"; "b"]%byte, st3).
Proof.
  destruct (good_run_ops
              (mkPool (mkFile [] [IoPartial 0; IoInterrupted]) 1 2 ∅ 0 ∅ [] 0 0 [])
              [OpWrite 1 2 ["a"; "b"]%byte; OpWrite 0 2 ["c"; "d"]%byte])
    as (st & Heq & Hgood & Hps & _).
  - apply (good_new "db" {[2 := 1]} (mkFile [] [IoPartial 0; IoInterrupted]));
      [reflexivity|]. apply (bool_decide_unpack _). vm_compute. exact I.
  - repeat constructor; by right.
  - destruct (destroyed_pool_is_restored st Hgood) as (f' & Hdel & _ & Hnext).
    destruct (Hnext "db" {[2 := 1]} (mkFile (content f') [IoInterrupted])
                (mkPool (mkFile (content f') [IoInterrupted]) 1 2 ∅ 0 ∅ [] 0 0 [])
                1 ["q"; "q"]%byte)
      as (st3 & Hrd).
    + reflexivity.
    + apply (bool_decide_unpack _). vm_compute. exact I.
    + reflexivity.
    + by rewrite Hps.
    + exists st, f', st3. split; [exact Heq|]. split; [exact Hdel|].
      rewrite Hps in Hrd. simpl in Hrd. rewrite Hrd. do 2 f_equal.
      vm_compute in Heq. injection Heq as <-. reflexivity.
Defined.

(** X15.  A page that was never written reads as the file has it: on a
    pool built on a file that does not fail for good and used by one
    operation at a time with the configured page size, after any operations
    that do not write page [j], [read_page] of [j] returns the bytes of the
    original file at [j * page_size], with zeros from the end of the file
    on. *)
Theorem unwritten_page_reads_file (file_name : string) (cfg : gmap nat nat)
    (f : File) (st0 : Pool) (os : list op) (j : nat) (buf : list byte) :
  LRUBufferPool_new file_name cfg (Some f) = Ok st0 → no_failure f →
  Forall (sized (pool_page_size_ st0)) os →
  Forall (λ o, op_writes o ≠ Some j) os →
  ∃ st',
    (run_ops os ;; read_page j (pool_page_size_ st0) buf) st0
    = Ok (file_page (content f) (j * pool_page_size_ st0) (pool_page_size_ st0)
            ++ drop (pool_page_size_ st0) buf, st').
Proof.
  intros Hnew Hnf Hsized Hnw.
  pose proof (good_new _ _ _ _ Hnew Hnf) as Hgood0.
  assert (fd_ st0 = f ∧ page_table_ st0 = ∅) as [Hfd0 Htab0].
  { unfold LRUBufferPool_new in Hnew.
    destruct (map_begin cfg) as [[s c]|]; by simplify_eq. }
  destruct (good_run_ops st0 os Hgood0 Hsized) as (st & Heq & Hgood & Hps & Hview).
  destruct (good_read_page st j buf Hgood) as (out & st' & Hrd & _ & _ & _ & Hout).
  rewrite Hps in Hrd, Hout.
  exists st'. unfold bind. rewrite Heq, Hrd. do 2 f_equal.
  rewrite Hout, (Hview j Hnw). f_equal.
  unfold page_view, resident. rewrite Htab0, lookup_empty. simpl.
  unfold on_disk. by rewrite Hfd0.
Qed.

Lemma unwritten_page_reads_file_witness :
  ∃ st',
    (run_ops [OpWrite 0 2 ["x"; "y"]%byte; OpFlushAll] ;;
     read_page 1 2 ["q"; "q"]%byte)
      (mkPool (mkFile ["a"; "b"; "c"]%byte [IoPartial 0]) 1 2 ∅ 0 ∅ [] 0 0 [])
    = Ok (["c"; "000"]%byte, st').
Proof.
  refine (unwritten_page_reads_file "db" {[2 := 1]}
            (mkFile ["a"; "b"; "c"]%byte [IoPartial 0])
            (mkPool (mkFile ["a"; "b"; "c"]%byte [IoPartial 0]) 1 2 ∅ 0 ∅ [] 0 0 [])
            [OpWrite 0 2 ["x"; "y"]%byte; OpFlushAll] 1 ["q"; "q"]%byte _ _ _ _).
  - reflexivity.
  - apply (bool_decide_unpack _). vm_compute. exact I.
  - constructor; [by right|]. constructor; [by left|]. constructor.
  - constructor; [done|]. constructor; [done|]. constructor.
Defined.


(** * SimpleBufferPool *)

(** ** Page offsets *)

Lemma size_t_wrap_small (x : N) : (x < 2 ^ 64)%N → SimpleBufferPool.size_t_wrap x = x.
Proof. intros Hx. unfold SimpleBufferPool.size_t_wrap. by apply N.mod_small. Qed.

Lemma size_t_wrap_add_r (a b : N) :
  SimpleBufferPool.size_t_wrap (a + SimpleBufferPool.size_t_wrap b)
  = SimpleBufferPool.size_t_wrap (a + b).
Proof. unfold SimpleBufferPool.size_t_wrap. by rewrite N.Div0.add_mod_idemp_r. Qed.

Lemma size_t_wrap_add_l (a b : N) :
  SimpleBufferPool.size_t_wrap (SimpleBufferPool.size_t_wrap a + b)
  = SimpleBufferPool.size_t_wrap (a + b).
Proof. unfold SimpleBufferPool.size_t_wrap. by rewrite N.Div0.add_mod_idemp_l. Qed.

Lemma total_pages_cons (r : N * N) (ranges : list (N * N)) :
  SimpleBufferPool.total_pages (r :: ranges)
  = (r.2 + SimpleBufferPool.total_pages ranges)%N.
Proof. done. Qed.

Lemma total_bytes_cons (r : N * N) (ranges : list (N * N)) :
  SimpleBufferPool.total_bytes (r :: ranges)
  = (r.1 * r.2 + SimpleBufferPool.total_bytes ranges)%N.
Proof. done. Qed.

Lemma offset_walk_out_of_range (ranges : list (N * N)) (b n : N) :
  (SimpleBufferPool.total_pages ranges ≤ n)%N →
  SimpleBufferPool.offset_walk ranges b n = SimpleBufferPool.size_t_minus_one.
Proof.
  revert b n. induction ranges as [|[s c] ranges IH]; intros b n Hn; [done|].
  rewrite total_pages_cons in Hn. simpl in *.
  destruct (N.leb_spec c n) as [Hle|Hgt]; [|lia].
  apply IH. lia.
Qed.

Lemma offset_walk_in_range (pre post : list (N * N)) (s c b n : N) :
  (n < c)%N →
  SimpleBufferPool.offset_walk (pre ++ (s, c) :: post) b
    (SimpleBufferPool.total_pages pre + n)
  = SimpleBufferPool.size_t_wrap (b + SimpleBufferPool.total_bytes pre + n * s).
Proof.
  intros Hn. revert b. induction pre as [|[s0 c0] pre IH]; intros b.
  - change (SimpleBufferPool.total_pages []) with 0%N.
    change (SimpleBufferPool.total_bytes []) with 0%N.
    rewrite N.add_0_l, N.add_0_r. simpl.
    destruct (N.leb_spec c n) as [Hle|Hgt]; [lia|].
    by rewrite size_t_wrap_add_r.
  - rewrite total_pages_cons, total_bytes_cons. simpl.
    destruct (N.leb_spec c0 (c0 + SimpleBufferPool.total_pages pre + n)) as [Hle|Hgt];
      [|lia].
    replace (c0 + SimpleBufferPool.total_pages pre + n - c0)%N
      with (SimpleBufferPool.total_pages pre + n)%N by lia.
    rewrite IH, size_t_wrap_add_r.
    rewrite <- !N.add_assoc, size_t_wrap_add_l. f_equal. lia.
Qed.

(** Without overflow, the page at [n] lies inside the bytes the ranges
    describe, from [b] on. *)
Lemma offset_walk_bounds (ranges : list (N * N)) (b n : N) :
  (b + SimpleBufferPool.total_bytes ranges < 2 ^ 64)%N →
  (n < SimpleBufferPool.total_pages ranges)%N →
  ∃ s, SimpleBufferPool.size_walk ranges n = Some s ∧
    (b ≤ SimpleBufferPool.offset_walk ranges b n)%N ∧
    (SimpleBufferPool.offset_walk ranges b n + s
     ≤ b + SimpleBufferPool.total_bytes ranges)%N.
Proof.
  revert b n. induction ranges as [|[s0 c0] ranges IH]; intros b n Hb Hn.
  { simpl in Hn. lia. }
  rewrite total_pages_cons in Hn. rewrite total_bytes_cons in *. simpl in *.
  destruct (N.leb_spec c0 n) as [Hle|Hgt].
  - rewrite (size_t_wrap_small (s0 * c0)) by lia.
    rewrite (size_t_wrap_small (b + s0 * c0)) by lia.
    destruct (IH (b + s0 * c0)%N (n - c0)%N) as (s & Hs & Hlo & Hhi); [lia|lia|].
    exists s. split; [done|]. lia.
  - exists s0. split; [done|].
    assert (n * s0 + s0 ≤ s0 * c0)%N by nia.
    rewrite (size_t_wrap_small (n * s0)) by lia.
    rewrite (size_t_wrap_small (b + n * s0)) by lia. lia.
Qed.

Lemma offset_walk_monotone (ranges : list (N * N)) (b i j s : N) :
  (b + SimpleBufferPool.total_bytes ranges < 2 ^ 64)%N →
  (i < j)%N → (j < SimpleBufferPool.total_pages ranges)%N →
  SimpleBufferPool.size_walk ranges i = Some s →
  (SimpleBufferPool.offset_walk ranges b i + s
   ≤ SimpleBufferPool.offset_walk ranges b j)%N.
Proof.
  revert b i j. induction ranges as [|[s0 c0] ranges IH]; intros b i j Hb Hij Hj Hs.
  { simpl in Hj. lia. }
  rewrite total_pages_cons in Hj. rewrite total_bytes_cons in *. simpl in *.
  destruct (N.leb_spec c0 i) as [Hi|Hi].
  - destruct (N.leb_spec c0 j) as [Hcj|Hcj]; [|lia].
    rewrite (size_t_wrap_small (s0 * c0)) by lia.
    rewrite (size_t_wrap_small (b + s0 * c0)) by lia.
    apply IH; [lia|lia|lia|done].
  - simplify_eq.
    assert (i * s + s ≤ s * c0)%N by nia.
    rewrite (size_t_wrap_small (i * s)) by lia.
    rewrite (size_t_wrap_small (b + i * s)) by lia.
    destruct (N.leb_spec c0 j) as [Hcj|Hcj].
    + rewrite (size_t_wrap_small (s * c0)) by lia.
      rewrite (size_t_wrap_small (b + s * c0)) by lia.
      destruct (offset_walk_bounds ranges (b + s * c0)%N (j - c0)%N)
        as (s' & _ & Hlo & _); [lia|lia|]. lia.
    + assert (i * s + s ≤ j * s)%N by nia.
      assert (j * s + s ≤ s * c0)%N by nia.
      rewrite (size_t_wrap_small (j * s)) by lia.
      rewrite (size_t_wrap_small (b + j * s)) by lia. lia.
Qed.

(** X16.  A page number past the configured pages is dropped: when [no] is
    at least the sum of the page counts, [page_start_offset] returns
    [size_t(-1)], and [read_page] and [write_page] of the simple pool then
    return after writing one line to the log, with the caller's buffer, the
    file and the descriptors untouched. *)
Theorem simple_pool_drops_out_of_range (st : SimpleBufferPool.t) (ndebug : bool)
    (no page_size : N) (buf : list byte) (t_idx : Z) :
  (SimpleBufferPool.total_pages
     (SimpleBufferPool.map_entries (SimpleBufferPool.page_no_info_ st)) ≤ no)%N →
  SimpleBufferPool.page_start_offset (SimpleBufferPool.page_no_info_ st) no
  = SimpleBufferPool.size_t_minus_one ∧
  SimpleBufferPool.read_page ndebug no page_size buf t_idx st
  = SimpleBufferPool.Done
      (buf, SimpleBufferPool.log st (SimpleBufferPool.LogReadOutOfRange no)) ∧
  SimpleBufferPool.write_page ndebug no page_size buf t_idx st
  = SimpleBufferPool.Done
      (SimpleBufferPool.log st (SimpleBufferPool.LogWriteOutOfRange no)).
Proof.
  intros Hno.
  assert (SimpleBufferPool.page_start_offset (SimpleBufferPool.page_no_info_ st) no
          = SimpleBufferPool.size_t_minus_one) as Hoff
    by (by apply offset_walk_out_of_range).
  split; [done|].
  unfold SimpleBufferPool.read_page, SimpleBufferPool.write_page.
  rewrite Hoff, N.eqb_refl. done.
Qed.

Lemma simple_pool_drops_out_of_range_witness :
  SimpleBufferPool.read_page false 5 2 ["q"; "q"]%byte 0
    (SimpleBufferPool.mk (mkFile ["a"; "b"]%byte []) {[2%N := 3%N; 4%N := 2%N]}
       (replicate 32 (SimpleBufferPool.mkDesc 3 0)) [])
  = SimpleBufferPool.Done
      (["q"; "q"]%byte,
       SimpleBufferPool.mk (mkFile ["a"; "b"]%byte []) {[2%N := 3%N; 4%N := 2%N]}
         (replicate 32 (SimpleBufferPool.mkDesc 3 0))
         [SimpleBufferPool.LogReadOutOfRange 5]).
Proof.
  refine (proj1 (proj2 (simple_pool_drops_out_of_range
            (SimpleBufferPool.mk (mkFile ["a"; "b"]%byte []) {[2%N := 3%N; 4%N := 2%N]}
               (replicate 32 (SimpleBufferPool.mkDesc 3 0)) [])
            false 5 2 ["q"; "q"]%byte 0 _))).
  vm_compute. congruence.
Defined.

(** X17.  Pages are laid out range by range in the order of the
    configuration's keys: when the entries before the range [(s, c)] are
    [pre], page [n] of that range ([n < c]) starts, modulo 2^64, at the sum
    of [size * count] over [pre] plus [n * s]. *)
Theorem page_start_offset_closed_form (cfg : gmap N N) (pre post : list (N * N))
    (s c n : N) :
  SimpleBufferPool.map_entries cfg = pre ++ (s, c) :: post → (n < c)%N →
  SimpleBufferPool.page_start_offset cfg (SimpleBufferPool.total_pages pre + n)
  = ((SimpleBufferPool.total_bytes pre + n * s) `mod` 2 ^ 64)%N.
Proof.
  intros Hcfg Hn. unfold SimpleBufferPool.page_start_offset. rewrite Hcfg.
  rewrite offset_walk_in_range by done. by rewrite N.add_0_l.
Qed.

Lemma page_start_offset_closed_form_witness :
  SimpleBufferPool.page_start_offset {[16%N := 2%N; 8%N := 3%N]} 4 = 40%N.
Proof.
  refine (page_start_offset_closed_form {[16%N := 2%N; 8%N := 3%N]}
            [(8, 3)]%N [] 16 2 1 _ _).
  - reflexivity.
  - reflexivity.
Defined.

(** X18.  Pages do not overlap: when the configured bytes fit into
    [size_t], each configured page lies inside the configured bytes and
    ends where a page with a larger number starts, or before. *)
Theorem simple_pool_pages_do_not_overlap (cfg : gmap N N) (i j : N) :
  (SimpleBufferPool.total_bytes (SimpleBufferPool.map_entries cfg) < 2 ^ 64)%N →
  (i < j)%N →
  (j < SimpleBufferPool.total_pages (SimpleBufferPool.map_entries cfg))%N →
  ∃ si sj,
    SimpleBufferPool.page_size_of cfg i = Some si ∧
    SimpleBufferPool.page_size_of cfg j = Some sj ∧
    (SimpleBufferPool.page_start_offset cfg i + si
     ≤ SimpleBufferPool.page_start_offset cfg j)%N ∧
    (SimpleBufferPool.page_start_offset cfg j + sj
     ≤ SimpleBufferPool.total_bytes (SimpleBufferPool.map_entries cfg))%N.
Proof.
  intros Hb Hij Hj.
  unfold SimpleBufferPool.page_size_of, SimpleBufferPool.page_start_offset.
  destruct (offset_walk_bounds (SimpleBufferPool.map_entries cfg) 0 i)
    as (si & Hsi & _ & _); [lia|lia|].
  destruct (offset_walk_bounds (SimpleBufferPool.map_entries cfg) 0 j)
    as (sj & Hsj & _ & Hhi); [lia|lia|].
  exists si, sj. do 2 (split; [done|]). split; [|lia].
  apply offset_walk_monotone; [lia|done|done|done].
Qed.

Lemma simple_pool_pages_do_not_overlap_witness :
  ∃ si sj,
    SimpleBufferPool.page_size_of {[16%N := 2%N; 8%N := 3%N]} 2 = Some si ∧
    SimpleBufferPool.page_size_of {[16%N := 2%N; 8%N := 3%N]} 3 = Some sj ∧
    (SimpleBufferPool.page_start_offset {[16%N := 2%N; 8%N := 3%N]} 2 + si
     ≤ SimpleBufferPool.page_start_offset {[16%N := 2%N; 8%N := 3%N]} 3)%N ∧
    (SimpleBufferPool.page_start_offset {[16%N := 2%N; 8%N := 3%N]} 3 + sj
     ≤ SimpleBufferPool.total_bytes
         (SimpleBufferPool.map_entries {[16%N := 2%N; 8%N := 3%N]}))%N.
Proof.
  apply (simple_pool_pages_do_not_overlap {[16%N := 2%N; 8%N := 3%N]} 2 3).
  - vm_compute. reflexivity.
  - vm_compute. reflexivity.
  - vm_compute. reflexivity.
Defined.

(** ** Requests of the simple pool *)

Lemma fd_index_nonneg (t_idx : Z) :
  (0 ≤ t_idx)%Z → ∃ i, SimpleBufferPool.fd_index t_idx = Some i ∧ i < 32.
Proof.
  intros Ht. unfold SimpleBufferPool.fd_index.
  pose proof (Z.rem_bound_pos t_idx 32 Ht) as Hrem.
  destruct (Z.ltb_spec (Z.rem t_idx 32) 0) as [Hlt|Hge]; [lia|].
  eexists. split; [done|]. lia.
Qed.

Lemma bytes_from_store_at (c d : list byte) (off : nat) :
  bytes_from (store_at c off d) off (length d) = d.
Proof.
  pose proof (bytes_from_store_at_extend c [] d off) as H. simpl in H.
  rewrite Nat.add_0_r in H. apply H. unfold bytes_from. by rewrite take_0.
Qed.

(** The steps of a request up to the transfer, for a page in the file. *)
Lemma simple_pool_seek (st : SimpleBufferPool.t) (no : N) (t_idx : Z) :
  length (SimpleBufferPool.fds_ st) = 32 → (0 ≤ t_idx)%Z →
  (SimpleBufferPool.page_start_offset (SimpleBufferPool.page_no_info_ st) no < 2 ^ 63)%N →
  (SimpleBufferPool.page_start_offset (SimpleBufferPool.page_no_info_ st) no
   =? SimpleBufferPool.size_t_minus_one)%N = false ∧
  ∃ i d,
    SimpleBufferPool.fd_index t_idx = Some i ∧
    SimpleBufferPool.fds_ st !! i = Some d ∧
    SimpleBufferPool.lseek d
      (SimpleBufferPool.page_start_offset (SimpleBufferPool.page_no_info_ st) no)
    = Some (SimpleBufferPool.mkDesc (SimpleBufferPool.fd d)
              (N.to_nat (SimpleBufferPool.page_start_offset
                           (SimpleBufferPool.page_no_info_ st) no))).
Proof.
  intros Hfds Ht Hoff. split.
  - apply N.eqb_neq. unfold SimpleBufferPool.size_t_minus_one. lia.
  - destruct (fd_index_nonneg t_idx Ht) as (i & Hi & Hlt).
    destruct (lookup_lt_is_Some_2 (SimpleBufferPool.fds_ st) i) as [d Hd]; [lia|].
    exists i, d. do 2 (split; [done|]).
    unfold SimpleBufferPool.lseek.
    destruct (N.leb_spec (2 ^ 63)
                (SimpleBufferPool.page_start_offset
                   (SimpleBufferPool.page_no_info_ st) no)) as [Hle|Hgt]; [lia|done].
Qed.

Lemma simple_pool_write_full (st : SimpleBufferPool.t) (ndebug : bool)
    (no page_size : N) (buf : list byte) (t_idx : Z) :
  script (SimpleBufferPool.file_ st) = [] →
  length (SimpleBufferPool.fds_ st) = 32 → (0 ≤ t_idx)%Z →
  (SimpleBufferPool.page_start_offset (SimpleBufferPool.page_no_info_ st) no < 2 ^ 63)%N →
  length buf = N.to_nat page_size →
  ∃ st',
    SimpleBufferPool.write_page ndebug no page_size buf t_idx st
    = SimpleBufferPool.Done st' ∧
    SimpleBufferPool.file_ st'
    = mkFile (store_at (content (SimpleBufferPool.file_ st))
                (N.to_nat (SimpleBufferPool.page_start_offset
                             (SimpleBufferPool.page_no_info_ st) no)) buf) [] ∧
    SimpleBufferPool.page_no_info_ st' = SimpleBufferPool.page_no_info_ st ∧
    length (SimpleBufferPool.fds_ st') = 32 ∧
    SimpleBufferPool.log_ st' = SimpleBufferPool.log_ st.
Proof.
  intros Hscript Hfds Ht Hoff Hbuf.
  destruct (simple_pool_seek st no t_idx Hfds Ht Hoff) as (Hne & i & d & Hi & Hd & Hseek).
  unfold SimpleBufferPool.write_page. rewrite Hne, Hi, Hd, Hseek. simpl.
  unfold pwrite. rewrite Hscript.
  rewrite decide_False by lia. rewrite decide_True by done.
  eexists. split; [done|]. simpl.
  rewrite take_ge by lia. rewrite length_insert. done.
Qed.

(** X19.  What the simple pool writes it reads back: for a page whose
    offset [lseek] accepts, on a file whose calls transfer in full,
    [write_page] of a buffer of [page_size] bytes returns, and a
    [read_page] of the same page and size afterwards, through any
    descriptor, returns with these bytes at the start of the caller's
    buffer. *)
Theorem simple_pool_write_then_read (st : SimpleBufferPool.t) (ndebug : bool)
    (no page_size : N) (buf buf0 : list byte) (t1 t2 : Z) :
  script (SimpleBufferPool.file_ st) = [] →
  length (SimpleBufferPool.fds_ st) = 32 → (0 ≤ t1)%Z → (0 ≤ t2)%Z →
  (SimpleBufferPool.page_start_offset (SimpleBufferPool.page_no_info_ st) no < 2 ^ 63)%N →
  length buf = N.to_nat page_size → N.to_nat page_size ≤ length buf0 →
  ∃ st1 st2,
    SimpleBufferPool.write_page ndebug no page_size buf t1 st
    = SimpleBufferPool.Done st1 ∧
    SimpleBufferPool.read_page ndebug no page_size buf0 t2 st1
    = SimpleBufferPool.Done (buf ++ drop (length buf) buf0, st2) ∧
    SimpleBufferPool.file_ st2 = SimpleBufferPool.file_ st1 ∧
    SimpleBufferPool.log_ st2 = SimpleBufferPool.log_ st.
Proof.
  intros Hscript Hfds Ht1 Ht2 Hoff Hbuf Hbuf0.
  destruct (simple_pool_write_full st ndebug no page_size buf t1)
    as (st1 & Hw & Hfile & Hcfg & Hfds1 & Hlog1); [done..|].
  exists st1.
  destruct (simple_pool_seek st1 no t2 Hfds1 Ht2) as (Hne & i & d & Hi & Hd & Hseek);
    [by rewrite Hcfg|].
  assert (∃ st2,
            SimpleBufferPool.read_page ndebug no page_size buf0 t2 st1
            = SimpleBufferPool.Done (buf ++ drop (length buf) buf0, st2) ∧
            SimpleBufferPool.file_ st2 = SimpleBufferPool.file_ st1 ∧
            SimpleBufferPool.log_ st2 = SimpleBufferPool.log_ st1)
    as (st2 & Hr & Hf2 & Hlog2).
  { unfold SimpleBufferPool.read_page. rewrite Hne, Hi, Hd, Hseek. simpl.
    unfold pread. rewrite Hfile. simpl. rewrite Hcfg, <- Hbuf.
    rewrite bytes_from_store_at.
    rewrite decide_False by lia. rewrite decide_True by done.
    eexists. split; [done|]. simpl. rewrite ?Hfile. done. }
  exists st2. split; [done|]. split; [done|]. split; [done|]. congruence.
Qed.

Lemma simple_pool_write_then_read_witness :
  ∃ st1 st2,
    SimpleBufferPool.write_page false 3 2 ["a"; "b"]%byte 5
      (SimpleBufferPool.mk (mkFile [] []) {[2%N := 4%N]}
         (replicate 32 (SimpleBufferPool.mkDesc 3 0)) [])
    = SimpleBufferPool.Done st1 ∧
    SimpleBufferPool.read_page false 3 2 ["q"; "q"; "q"]%byte 40 st1
    = SimpleBufferPool.Done (["a"; "b"; "q"]%byte, st2).
Proof.
  destruct (simple_pool_write_then_read
              (SimpleBufferPool.mk (mkFile [] []) {[2%N := 4%N]}
                 (replicate 32 (SimpleBufferPool.mkDesc 3 0)) [])
              false 3 2 ["a"; "b"]%byte ["q"; "q"; "q"]%byte 5 40)
    as (st1 & st2 & Hw & Hr & _).
  - reflexivity.
  - reflexivity.
  - lia.
  - lia.
  - vm_compute. reflexivity.
  - reflexivity.
  - vm_compute. lia.
  - exists st1, st2. split; [exact Hw|exact Hr].
Defined.

(** X20.  The simple pool cannot read what the file does not hold: when
    the file ends before the end of the requested page and the request asks
    for at least one byte, [read_page] logs a size mismatch and stops at its
    [assert], without any I/O fault; built with [NDEBUG] it returns with
    only the bytes the file has copied into the caller's buffer. *)
Theorem simple_pool_read_past_end (st : SimpleBufferPool.t) (no page_size : N)
    (buf : list byte) (t_idx : Z) :
  script (SimpleBufferPool.file_ st) = [] →
  length (SimpleBufferPool.fds_ st) = 32 → (0 ≤ t_idx)%Z →
  (SimpleBufferPool.page_start_offset (SimpleBufferPool.page_no_info_ st) no < 2 ^ 63)%N →
  N.to_nat page_size ≤ length buf → (0 < page_size)%N →
  length (content (SimpleBufferPool.file_ st))
  < N.to_nat (SimpleBufferPool.page_start_offset (SimpleBufferPool.page_no_info_ st) no)
    + N.to_nat page_size →
  SimpleBufferPool.read_page false no page_size buf t_idx st = SimpleBufferPool.Aborted ∧
  ∃ st',
    SimpleBufferPool.read_page true no page_size buf t_idx st
    = SimpleBufferPool.Done
        (memcpy_into buf 0
           (drop (N.to_nat (SimpleBufferPool.page_start_offset
                              (SimpleBufferPool.page_no_info_ st) no))
              (content (SimpleBufferPool.file_ st))), st') ∧
    SimpleBufferPool.file_ st' = SimpleBufferPool.file_ st ∧
    ∃ r, SimpleBufferPool.log_ st'
         = SimpleBufferPool.log_ st ++ [SimpleBufferPool.LogReadMismatch r page_size] ∧
         (0 ≤ r < Z.of_N page_size)%Z.
Proof.
  intros Hscript Hfds Ht Hoff Hbuf Hpos Hend.
  destruct (simple_pool_seek st no t_idx Hfds Ht Hoff) as (Hne & i & d & Hi & Hd & Hseek).
  set (off := N.to_nat (SimpleBufferPool.page_start_offset
                          (SimpleBufferPool.page_no_info_ st) no)) in *.
  assert (bytes_from (content (SimpleBufferPool.file_ st)) off (N.to_nat page_size)
          = drop off (content (SimpleBufferPool.file_ st))) as Hbytes.
  { unfold bytes_from. apply take_ge. rewrite length_drop. lia. }
  assert (∀ ndebug, ∃ st',
            SimpleBufferPool.read_page ndebug no page_size buf t_idx st
            = SimpleBufferPool.assert_ ndebug false
                (memcpy_into buf 0 (drop off (content (SimpleBufferPool.file_ st))),
                 st') ∧
            SimpleBufferPool.file_ st' = SimpleBufferPool.file_ st ∧
            ∃ r, SimpleBufferPool.log_ st'
                 = SimpleBufferPool.log_ st
                     ++ [SimpleBufferPool.LogReadMismatch r page_size] ∧
                 (0 ≤ r < Z.of_N page_size)%Z) as Hread.
  { intros ndebug. unfold SimpleBufferPool.read_page. rewrite Hne, Hi, Hd, Hseek.
    simpl. unfold pread. rewrite Hscript. fold off. rewrite Hbytes.
    rewrite decide_False by (rewrite length_drop; lia).
    rewrite decide_False by (rewrite length_drop; lia).
    eexists. split; [done|]. simpl.
    split; [by destruct (SimpleBufferPool.file_ st)|].
    eexists. split; [done|]. rewrite length_drop. lia. }
  split.
  - by destruct (Hread false) as (st' & -> & _).
  - destruct (Hread true) as (st' & -> & Hrest). by exists st'.
Qed.

Lemma simple_pool_read_past_end_witness :
  SimpleBufferPool.read_page false 1 2 ["q"; "q"]%byte 0
    (SimpleBufferPool.mk (mkFile ["a"; "b"; "c"]%byte []) {[2%N := 4%N]}
       (replicate 32 (SimpleBufferPool.mkDesc 3 0)) [])
  = SimpleBufferPool.Aborted.
Proof.
  refine (proj1 (simple_pool_read_past_end
            (SimpleBufferPool.mk (mkFile ["a"; "b"; "c"]%byte []) {[2%N := 4%N]}
               (replicate 32 (SimpleBufferPool.mkDesc 3 0)) [])
            1 2 ["q"; "q"]%byte 0 _ _ _ _ _ _ _)).
  - reflexivity.
  - reflexivity.
  - lia.
  - vm_compute. reflexivity.
  - vm_compute. lia.
  - lia.
  - vm_compute. lia.
Defined.

(** X21.  A write of the simple pool stays inside its page: when the
    configured bytes fit into [off_t], [write_page] of a configured page
    with the page's configured size stores the buffer at the page's offset
    and leaves every byte of every other configured page as it was. *)
Theorem simple_pool_write_keeps_other_pages (st : SimpleBufferPool.t)
    (ndebug : bool) (i j si sj : N) (buf : list byte) (t_idx : Z) :
  script (SimpleBufferPool.file_ st) = [] →
  length (SimpleBufferPool.fds_ st) = 32 → (0 ≤ t_idx)%Z →
  (SimpleBufferPool.total_bytes
     (SimpleBufferPool.map_entries (SimpleBufferPool.page_no_info_ st)) < 2 ^ 63)%N →
  i ≠ j →
  SimpleBufferPool.page_size_of (SimpleBufferPool.page_no_info_ st) i = Some si →
  SimpleBufferPool.page_size_of (SimpleBufferPool.page_no_info_ st) j = Some sj →
  length buf = N.to_nat si →
  ∃ st',
    SimpleBufferPool.write_page ndebug i si buf t_idx st = SimpleBufferPool.Done st' ∧
    bytes_from (content (SimpleBufferPool.file_ st'))
      (N.to_nat (SimpleBufferPool.page_start_offset
                   (SimpleBufferPool.page_no_info_ st) i)) (N.to_nat si) = buf ∧
    ∀ x,
      N.to_nat (SimpleBufferPool.page_start_offset
                  (SimpleBufferPool.page_no_info_ st) j) ≤ x
      < N.to_nat (SimpleBufferPool.page_start_offset
                    (SimpleBufferPool.page_no_info_ st) j) + N.to_nat sj →
      byte_at (content (SimpleBufferPool.file_ st')) x
      = byte_at (content (SimpleBufferPool.file_ st)) x.
Proof.
  intros Hscript Hfds Ht Hbytes Hij Hsi Hsj Hbuf.
  set (cfg := SimpleBufferPool.page_no_info_ st) in *.
  set (ranges := SimpleBufferPool.map_entries cfg) in *.
  assert (∀ n s, SimpleBufferPool.size_walk ranges n = Some s →
                 (n < SimpleBufferPool.total_pages ranges)%N) as Hin.
  { clear. induction ranges as [|[s0 c0] ranges IH]; intros n s Hs; [done|].
    rewrite total_pages_cons. simpl in *.
    destruct (N.leb_spec c0 n) as [Hle|Hgt]; [|lia].
    specialize (IH _ _ Hs). lia. }
  pose proof (Hin _ _ Hsi) as Hi. pose proof (Hin _ _ Hsj) as Hj.
  unfold SimpleBufferPool.page_size_of in Hsi, Hsj. fold cfg ranges in Hsi, Hsj.
  destruct (offset_walk_bounds ranges 0 i) as (si' & Hsi' & _ & Hhi); [lia|done|].
  destruct (offset_walk_bounds ranges 0 j) as (sj' & Hsj' & _ & Hhj); [lia|done|].
  simplify_eq.
  change (SimpleBufferPool.offset_walk ranges 0 i)
    with (SimpleBufferPool.page_start_offset cfg i) in *.
  change (SimpleBufferPool.offset_walk ranges 0 j)
    with (SimpleBufferPool.page_start_offset cfg j) in *.
  destruct (simple_pool_write_full st ndebug i si buf t_idx)
    as (st' & Hw & Hfile & _); [done|done|done|fold cfg; lia|done|].
  exists st'. split; [done|]. rewrite Hfile. simpl. fold cfg. split.
  - rewrite <- Hbuf. apply bytes_from_store_at.
  - intros x Hx. rewrite byte_at_store_at. rewrite decide_False; [done|].
    assert ((SimpleBufferPool.page_start_offset cfg i + si
             ≤ SimpleBufferPool.page_start_offset cfg j)%N ∨
            (SimpleBufferPool.page_start_offset cfg j + sj
             ≤ SimpleBufferPool.page_start_offset cfg i)%N) as Hdisj.
    { destruct (N.lt_ge_cases i j) as [Hlt|Hge].
      - left. apply (offset_walk_monotone ranges 0 i j si); [lia|done|done|done].
      - right. apply (offset_walk_monotone ranges 0 j i sj); [lia|lia|done|done]. }
    lia.
Qed.

Lemma simple_pool_write_keeps_other_pages_witness :
  ∃ st',
    SimpleBufferPool.write_page false 1 2 ["a"; "b"]%byte 0
      (SimpleBufferPool.mk (mkFile ["u"; "v"; "w"; "x"; "y"; "z"]%byte [])
         {[2%N := 3%N]} (replicate 32 (SimpleBufferPool.mkDesc 3 0)) [])
    = SimpleBufferPool.Done st' ∧
    byte_at (content (SimpleBufferPool.file_ st')) 5 = "z"%byte.
Proof.
  destruct (simple_pool_write_keeps_other_pages
              (SimpleBufferPool.mk (mkFile ["u"; "v"; "w"; "x"; "y"; "z"]%byte [])
                 {[2%N := 3%N]} (replicate 32 (SimpleBufferPool.mkDesc 3 0)) [])
              false 1 2 2 2 ["a"; "b"]%byte 0)
    as (st' & Hw & _ & Hother).
  - reflexivity.
  - reflexivity.
  - lia.
  - vm_compute. reflexivity.
  - lia.
  - reflexivity.
  - reflexivity.
  - reflexivity.
  - exists st'. split; [exact Hw|]. rewrite Hother; [reflexivity|].
    vm_compute. lia.
Defined.

(** ** The constructor of the simple pool *)

Lemma filter_positive_id (fds : list Z) :
  Forall (λ x, (0 < x)%Z) fds → filter (λ x, (0 < x)%Z) fds = fds.
Proof.
  induction 1 as [|x fds Hx _ IH]; [done|].
  rewrite filter_cons_True by done. by rewrite IH.
Qed.

Lemma open_loop_succeeds (open_result : nat → Z) (todo i : nat) (fds : list Z) :
  (∀ m, m < todo → (0 < open_result (i + m)%nat)%Z) →
  SimpleBufferPool.open_loop open_result i todo fds
  = inl (fds ++ (open_result <$> seq i todo)).
Proof.
  revert i fds. induction todo as [|todo IH]; intros i fds Hall; simpl.
  - by rewrite app_nil_r.
  - pose proof (Hall 0 ltac:(lia)) as H0. rewrite Nat.add_0_r in H0.
    destruct (Z.leb_spec (open_result i) 0) as [Hle|Hgt]; [lia|].
    rewrite IH, <- app_assoc; [done|].
    intros m Hm. replace (S i + m) with (i + S m) by lia. apply Hall. lia.
Qed.

Lemma open_loop_fails (open_result : nat → Z) (todo i k : nat) (fds : list Z) :
  k < todo → (∀ m, m < k → (0 < open_result (i + m)%nat)%Z) →
  (open_result (i + k)%nat ≤ 0)%Z → Forall (λ x, (0 < x)%Z) fds →
  SimpleBufferPool.open_loop open_result i todo fds
  = inr (fds ++ (open_result <$> seq i k)).
Proof.
  revert i k fds. induction todo as [|todo IH]; intros i k fds Hk Hall Hfail Hfds;
    [lia|]. simpl.
  destruct k as [|k].
  - rewrite Nat.add_0_r in Hfail.
    destruct (Z.leb_spec (open_result i) 0) as [Hle|Hgt]; [|lia].
    simpl. by rewrite app_nil_r, filter_positive_id.
  - pose proof (Hall 0 ltac:(lia)) as H0. rewrite Nat.add_0_r in H0.
    destruct (Z.leb_spec (open_result i) 0) as [Hle|Hgt]; [lia|].
    rewrite (IH (S i) k); simpl.
    + by rewrite <- app_assoc.
    + lia.
    + intros m Hm. replace (S (i + m)) with (i + S m) by lia. apply Hall. lia.
    + by replace (S (i + k)) with (i + S k) by lia.
    + apply Forall_app. split; [done|]. by constructor.
Qed.

(** X22.  The constructor of the simple pool opens the file 32 times.
    When every call returns a positive descriptor the pool holds these 32
    descriptors in the order of the calls and nothing is closed.  When call
    [k] is the first to return a value that is not positive (a failure, or
    descriptor 0), the constructor throws, after closing exactly the [k]
    descriptors opened before; a descriptor 0 returned by that call stays
    open. *)
Theorem simple_pool_constructor (file_name : string) (cfg : gmap N N)
    (open_result : nat → Z) (errno : Z) (f : File) :
  ((∀ i, i < 32 → (0 < open_result i)%Z) →
   SimpleBufferPool.SimpleBufferPool_new file_name cfg open_result errno f
   = (Ok (SimpleBufferPool.mk f cfg
            ((λ i, SimpleBufferPool.mkDesc (open_result i) 0) <$> seq 0 32) []),
      [])) ∧
  (∀ k, k < 32 → (∀ i, i < k → (0 < open_result i)%Z) →
        (open_result k ≤ 0)%Z →
   SimpleBufferPool.SimpleBufferPool_new file_name cfg open_result errno f
   = (Throw ("Cannot open source file: " +:+ file_name +:+ " errno=" +:+ pretty errno),
      open_result <$> seq 0 k)).
Proof.
  unfold SimpleBufferPool.SimpleBufferPool_new. split.
  - intros Hall. rewrite (open_loop_succeeds open_result 32 0 []) by done.
    rewrite app_nil_l, <- list_fmap_compose. done.
  - intros k Hk Hall Hfail.
    rewrite (open_loop_fails open_result 32 0 k []) by done. done.
Qed.

Lemma simple_pool_constructor_witness :
  SimpleBufferPool.SimpleBufferPool_new "db" {[2%N := 4%N]}
    (λ i, if decide (i = 2) then 0%Z else (Z.of_nat i + 3)%Z) 24 (mkFile [] [])
  = (Throw "Cannot open source file: db errno=24", [3%Z; 4%Z]).
Proof.
  refine (proj2 (simple_pool_constructor "db" {[2%N := 4%N]}
                   (λ i, if decide (i = 2) then 0%Z else (Z.of_nat i + 3)%Z) 24
                   (mkFile [] [])) 2 _ _ _).
  - lia.
  - intros i Hi. destruct i as [|[|i]]; simpl; lia.
  - simpl. lia.
Defined.

(** * The server *)

(** ** The socket loops *)

Lemma memcpy_into_nil (buf : list byte) (at_ : nat) : memcpy_into buf at_ [] = buf.
Proof. unfold memcpy_into. simpl. by rewrite Nat.add_0_r, take_drop. Qed.

Lemma memcpy_into_app (buf b1 b2 : list byte) (at_ : nat) :
  at_ ≤ length buf →
  memcpy_into (memcpy_into buf at_ b1) (at_ + length b1) b2
  = memcpy_into buf at_ (b1 ++ b2).
Proof.
  intros Hat. unfold memcpy_into.
  assert (length (take at_ buf ++ b1) = at_ + length b1) as Hlen
    by (rewrite length_app, length_take; lia).
  rewrite (app_assoc (take at_ buf) b1).
  rewrite take_app_length' by done.
  rewrite drop_app_ge by lia. rewrite Hlen, drop_drop.
  rewrite length_app, <- !app_assoc. do 3 f_equal. f_equal. lia.
Qed.

Lemma sock_read_inv (c c' : Server.Conn) (count : nat) (r : sys_result (list byte)) :
  Server.sock_read c count = (r, c') →
  Server.outgoing c' = Server.outgoing c ∧ Server.log_ c' = Server.log_ c ∧
  (IoFailed ∉ Server.events c → (IoFailed ∉ Server.events c') ∧ r ≠ SysErr EIO) ∧
  (∀ e, r = SysErr e → Server.incoming c' = Server.incoming c) ∧
  (∀ bs, r = SysRet bs →
     ∃ m, bs = take m (Server.incoming c) ∧
       Server.incoming c' = drop m (Server.incoming c) ∧
       m ≤ count ∧ (0 < count → 0 < m)).
Proof.
  unfold Server.sock_read. intros Hr.
  destruct c as [inc out [|ev sc] lg]; simpl in *.
  - simplify_eq. simpl. do 2 (split; [done|]).
    split; [by intros _; split; [intros ?%elem_of_nil|]|].
    split; [done|]. intros bs ?. simplify_eq. exists count. done.
  - destruct ev; simplify_eq; simpl; do 2 (split; [done|]).
    + split; [intros Hnf; split; [|done]; intros Hin; apply Hnf; by right|].
      split; [done|]. intros bs ?. simplify_eq.
      exists (count `min` S n). repeat split; lia.
    + split; [intros Hnf; split; [|done]; intros Hin; apply Hnf; by right|].
      split; [done|]. done.
    + split; [intros Hnf; exfalso; apply Hnf; by left|].
      split; [done|]. done.
Qed.

Lemma sock_write_inv (c c' : Server.Conn) (src : list byte) (count : nat)
    (r : sys_result nat) :
  Server.sock_write c src count = (r, c') →
  Server.incoming c' = Server.incoming c ∧ Server.log_ c' = Server.log_ c ∧
  (IoFailed ∉ Server.events c → (IoFailed ∉ Server.events c') ∧ r ≠ SysErr EIO) ∧
  (∀ e, r = SysErr e → Server.outgoing c' = Server.outgoing c) ∧
  (∀ w, r = SysRet w →
     Server.outgoing c' = Server.outgoing c ++ take w src ∧
     w ≤ count ∧ (0 < count → 0 < w)).
Proof.
  unfold Server.sock_write. intros Hr.
  destruct c as [inc out [|ev sc] lg]; simpl in *.
  - simplify_eq. simpl. do 2 (split; [done|]).
    split; [by intros _; split; [intros ?%elem_of_nil|]|].
    split; [done|]. intros w ?. simplify_eq. done.
  - destruct ev; simplify_eq; simpl; do 2 (split; [done|]).
    + split; [intros Hnf; split; [|done]; intros Hin; apply Hnf; by right|].
      split; [done|]. intros w ?. simplify_eq. repeat split; lia.
    + split; [intros Hnf; split; [|done]; intros Hin; apply Hnf; by right|].
      split; [done|]. done.
    + split; [intros Hnf; exfalso; apply Hnf; by left|].
      split; [done|]. done.
Qed.

(** A read loop on a connection that does not fail, when the bytes are
    there. *)
Lemma read_loop_go_exact (c : Server.Conn) (buf : list byte) (at_ count : nat) (ret : Z) :
  IoFailed ∉ Server.events c → at_ ≤ length buf →
  count ≤ length (Server.incoming c) →
  ∃ c',
    Server.read_loop_go c buf at_ count ret
    = (ret, memcpy_into buf at_ (take count (Server.incoming c)), c') ∧
    Server.incoming c' = drop count (Server.incoming c) ∧
    Server.outgoing c' = Server.outgoing c ∧ Server.log_ c' = Server.log_ c ∧
    IoFailed ∉ Server.events c'.
Proof.
  funelim (Server.read_loop_go c buf at_ count ret); intros Hnf Hat Hcount;
    try match goal with
        | Hp : Server.sock_read _ _ = _ |- _ =>
            let Ho := fresh "Ho" in let Hl := fresh "Hl" in let Hf := fresh "Hf" in
            let He := fresh "He" in let Hb := fresh "Hb" in
            pose proof (sock_read_inv _ _ _ _ Hp) as (Ho & Hl & Hf & He & Hb);
            destruct (Hf Hnf) as [Hnf' Hne]
        end.
  - exists c. simplify_eq. by rewrite take_0, memcpy_into_nil, drop_0.
  - specialize (He _ eq_refl).
    destruct (H Hnf' Hat) as (c1 & Heq1 & Hi1 & Ho1 & Hl1 & Hnf1); [by rewrite He|].
    exists c1. rewrite Heq1, He, Hi1, Ho1, Hl1, He. done.
  - done.
  - destruct (Hb _ eq_refl) as (m & Hbs & Hin & Hm & Hpos).
    exfalso. assert (length bs = m); [|lia].
    rewrite Hbs, length_take. lia.
  - destruct (Hb _ eq_refl) as (m & Hbs & Hin & Hm & Hpos).
    assert (length bs = m) as Hlen by (rewrite Hbs, length_take; lia).
    destruct (H Hnf') as (c1 & Heq1 & Hi1 & Ho1 & Hl1 & Hnf1).
    { unfold memcpy_into. rewrite length_app, length_take, length_app, length_drop. lia. }
    { rewrite Hin, length_drop. lia. }
    exists c1. rewrite Heq1, Hi1, Ho1, Hl1, Hin, Ho, Hl, Hlen, drop_drop.
    split; [|split; [f_equal; lia|done]]. do 2 f_equal.
    rewrite <- Hlen at 1. rewrite memcpy_into_app by done. f_equal.
    rewrite Hbs, take_drop_commute.
    replace (m + (count - m)) with count by lia.
    rewrite <- (take_drop m (take count (Server.incoming c))) at 2.
    rewrite take_take. by replace (m `min` count) with m by lia.
Qed.

(** A read loop on a connection that does not fail, when the peer closes
    before the bytes are there. *)
Lemma read_loop_go_short (c : Server.Conn) (buf : list byte) (at_ count : nat) (ret : Z) :
  IoFailed ∉ Server.events c → at_ ≤ length buf →
  length (Server.incoming c) < count →
  ∃ c',
    Server.read_loop_go c buf at_ count ret
    = (0%Z, memcpy_into buf at_ (Server.incoming c), c') ∧
    Server.incoming c' = [] ∧
    Server.outgoing c' = Server.outgoing c ∧
    Server.log_ c' = Server.log_ c ++ [Server.LogReadDisconnected] ∧
    IoFailed ∉ Server.events c'.
Proof.
  funelim (Server.read_loop_go c buf at_ count ret); intros Hnf Hat Hcount;
    try match goal with
        | Hp : Server.sock_read _ _ = _ |- _ =>
            let Ho := fresh "Ho" in let Hl := fresh "Hl" in let Hf := fresh "Hf" in
            let He := fresh "He" in let Hb := fresh "Hb" in
            pose proof (sock_read_inv _ _ _ _ Hp) as (Ho & Hl & Hf & He & Hb);
            destruct (Hf Hnf) as [Hnf' Hne]
        end.
  - lia.
  - specialize (He _ eq_refl).
    destruct (H Hnf' Hat) as (c1 & Heq1 & Hi1 & Ho1 & Hl1 & Hnf1); [by rewrite He|].
    exists c1. rewrite Heq1, He, Hi1, Ho1, Hl1, Ho, Hl. done.
  - done.
  - destruct (Hb _ eq_refl) as (m & Hbs & Hin & Hm & Hpos).
    assert (Server.incoming c = []) as Hempty.
    { apply length_zero_iff_nil.
      assert (length bs = m `min` length (Server.incoming c))
        by (by rewrite Hbs, length_take). lia. }
    eexists. split; [by rewrite Hempty, memcpy_into_nil|]. simpl.
    rewrite Hin, Hempty, drop_nil, Ho, Hl. done.
  - destruct (Hb _ eq_refl) as (m & Hbs & Hin & Hm & Hpos).
    assert (length bs = m `min` length (Server.incoming c)) as Hlen
      by (by rewrite Hbs, length_take).
    destruct (H Hnf') as (c1 & Heq1 & Hi1 & Ho1 & Hl1 & Hnf1).
    { unfold memcpy_into. rewrite length_app, length_take, length_app, length_drop. lia. }
    { rewrite Hin, length_drop. lia. }
    exists c1. rewrite Heq1, Hi1, Ho1, Hl1, Hin, Ho, Hl.
    split; [|done]. do 2 f_equal.
    rewrite memcpy_into_app by done. f_equal.
    by rewrite Hbs, take_drop.
Qed.

(** A write loop on a connection that does not fail. *)
Lemma write_loop_go_exact (c : Server.Conn) (buf : list byte) (at_ count : nat) (ret : Z) :
  IoFailed ∉ Server.events c → at_ + count ≤ length buf →
  ∃ c',
    Server.write_loop_go c buf at_ count ret = (ret, c') ∧
    Server.outgoing c' = Server.outgoing c ++ take count (drop at_ buf) ∧
    Server.incoming c' = Server.incoming c ∧ Server.log_ c' = Server.log_ c ∧
    IoFailed ∉ Server.events c'.
Proof.
  funelim (Server.write_loop_go c buf at_ count ret); intros Hnf Hcount;
    try match goal with
        | Hp : Server.sock_write _ _ _ = _ |- _ =>
            let Hi := fresh "Hi" in let Hl := fresh "Hl" in let Hf := fresh "Hf" in
            let He := fresh "He" in let Hb := fresh "Hb" in
            pose proof (sock_write_inv _ _ _ _ _ Hp) as (Hi & Hl & Hf & He & Hb);
            destruct (Hf Hnf) as [Hnf' Hne]
        end.
  - exists c. simplify_eq. by rewrite take_0, app_nil_r.
  - specialize (He _ eq_refl).
    destruct (H Hnf' Hcount) as (c1 & Heq1 & Ho1 & Hi1 & Hl1 & Hnf1).
    exists c1. rewrite Heq1, Ho1, Hi1, Hl1, He, Hi, Hl. done.
  - done.
  - destruct (Hb _ eq_refl) as (_ & _ & Hpos). lia.
  - destruct (Hb _ eq_refl) as (Hout & Hle & _).
    destruct (H Hnf') as (c1 & Heq1 & Ho1 & Hi1 & Hl1 & Hnf1); [lia|].
    exists c1. rewrite Heq1, Ho1, Hi1, Hl1, Hout, Hi, Hl.
    split; [done|]. split; [|done].
    rewrite <- app_assoc. f_equal.
    replace (drop (at_ + sendcnt) buf) with (drop sendcnt (drop at_ buf))
      by (by rewrite drop_drop).
    rewrite <- (take_drop sendcnt (take count (drop at_ buf))).
    rewrite take_take. replace (sendcnt `min` count) with sendcnt by lia.
    f_equal. rewrite take_drop_commute.
    by replace (sendcnt + (count - sendcnt)) with count by lia.
Qed.

(** X23.  [read_loop] gathers exactly [count] bytes however the reads are
    interrupted or cut short: on a connection whose calls do not fail for
    good, when the peer sends at least [count] bytes the loop returns
    [count] (as an [int]) with the first [count] bytes of the stream at the
    start of the buffer, and leaves the rest of the stream unread; when the
    peer closes before that, it returns 0 after logging the disconnection,
    with the stream used up. *)
Theorem read_loop_reads_exactly (c : Server.Conn) (buf : list byte) (count : nat) :
  IoFailed ∉ Server.events c →
  (count ≤ length (Server.incoming c) →
   ∃ c',
     Server.read_loop c buf count
     = (wrap_int (Z.of_nat count),
        memcpy_into buf 0 (take count (Server.incoming c)), c') ∧
     Server.incoming c' = drop count (Server.incoming c) ∧
     Server.outgoing c' = Server.outgoing c ∧ Server.log_ c' = Server.log_ c) ∧
  (length (Server.incoming c) < count →
   ∃ c',
     Server.read_loop c buf count
     = (0%Z, memcpy_into buf 0 (Server.incoming c), c') ∧
     Server.incoming c' = [] ∧ Server.outgoing c' = Server.outgoing c ∧
     Server.log_ c' = Server.log_ c ++ [Server.LogReadDisconnected]).
Proof.
  intros Hnf. unfold Server.read_loop. split; intros Hcount.
  - destruct (read_loop_go_exact c buf 0 count (wrap_int (Z.of_nat count)) Hnf)
      as (c' & Heq & Hi & Ho & Hl & _); [lia|done|].
    by exists c'.
  - destruct (read_loop_go_short c buf 0 count (wrap_int (Z.of_nat count)) Hnf)
      as (c' & Heq & Hi & Ho & Hl & _); [lia|done|].
    by exists c'.
Qed.

Lemma read_loop_reads_exactly_witness :
  ∃ c',
    Server.read_loop
      (Server.mkConn ["a"; "b"; "c"; "d"; "e"]%byte []
         [IoPartial 0; IoInterrupted; IoPartial 1] [])
      ["q"; "q"; "q"; "q"]%byte 4
    = (4%Z, ["a"; "b"; "c"; "d"]%byte, c') ∧
    Server.incoming c' = ["e"]%byte.
Proof.
  destruct (proj1 (read_loop_reads_exactly
              (Server.mkConn ["a"; "b"; "c"; "d"; "e"]%byte []
                 [IoPartial 0; IoInterrupted; IoPartial 1] [])
              ["q"; "q"; "q"; "q"]%byte 4
              ltac:(apply (bool_decide_unpack _); vm_compute; exact I))
              ltac:(simpl; lia))
    as (c' & Heq & Hi & _).
  exists c'. split; [exact Heq|exact Hi].
Defined.

(** X24.  [write_loop] sends all of [count] bytes however the writes are
    interrupted or cut short: on a connection whose calls do not fail for
    good it returns [count] (as an [int]) after appending the first [count]
    bytes of the buffer to what the peer receives, and logs nothing. *)
Theorem write_loop_writes_all (c : Server.Conn) (buf : list byte) (count : nat) :
  IoFailed ∉ Server.events c → count ≤ length buf →
  ∃ c',
    Server.write_loop c buf count = (wrap_int (Z.of_nat count), c') ∧
    Server.outgoing c' = Server.outgoing c ++ take count buf ∧
    Server.incoming c' = Server.incoming c ∧ Server.log_ c' = Server.log_ c.
Proof.
  intros Hnf Hcount. unfold Server.write_loop.
  destruct (write_loop_go_exact c buf 0 count (wrap_int (Z.of_nat count)) Hnf)
    as (c' & Heq & Ho & Hi & Hl & _); [lia|].
  exists c'. by rewrite drop_0 in Ho.
Qed.

Lemma write_loop_writes_all_witness :
  ∃ c',
    Server.write_loop
      (Server.mkConn [] ["x"]%byte [IoInterrupted; IoPartial 0; IoPartial 0] [])
      ["a"; "b"; "c"; "d"]%byte 3
    = (3%Z, c') ∧
    Server.outgoing c' = ["x"; "a"; "b"; "c"]%byte.
Proof.
  destruct (write_loop_writes_all
              (Server.mkConn [] ["x"]%byte [IoInterrupted; IoPartial 0; IoPartial 0] [])
              ["a"; "b"; "c"; "d"]%byte 3)
    as (c' & Heq & Ho & _).
  - apply (bool_decide_unpack _). vm_compute. exact I.
  - simpl. lia.
  - exists c'. split; [exact Heq|exact Ho].
Defined.

(** ** Headers *)

Lemma to_N_byte_of_N (n : N) : Byte.to_N (Server.byte_of_N n) = (n `mod` 256)%N.
Proof.
  unfold Server.byte_of_N.
  destruct (Byte.of_N (n `mod` 256)) as [b|] eqn:Hb; simpl.
  - by apply Byte.to_of_N.
  - apply Byte.of_N_None_iff in Hb.
    pose proof (N.mod_upper_bound n 256). lia.
Qed.

Lemma length_enc32 (n : nat) : length (Server.enc32 n) = 4.
Proof. done. Qed.

Lemma le32_enc32 (n : nat) (rest : list byte) :
  (N.of_nat n < 2 ^ 32)%N → Server.le32 (Server.enc32 n ++ rest) = n.
Proof.
  intros Hv. unfold Server.le32, Server.enc32. simpl.
  rewrite !to_N_byte_of_N.
  set (v := N.of_nat n) in *.
  assert (v `mod` 256 + 256 * ((v / 256) `mod` 256
            + 256 * ((v / 65536) `mod` 256
                     + 256 * ((v / 16777216) `mod` 256 + 256 * 0))) = v)%N as ->.
  { change (2 ^ 32)%N with 4294967296%N in Hv.
    zify. Z.to_euclidean_division_equations. lia. }
  unfold v. lia.
Qed.

Lemma length_encode_header (ty : N) (no s : nat) :
  length (Server.encode_header ty no s) = 9.
Proof. done. Qed.

Lemma parse_header_encode (ty : N) (no s : nat) :
  (ty < 256)%N → (N.of_nat no < 2 ^ 32)%N → (N.of_nat s < 2 ^ 32)%N →
  Server.parse_header (Server.encode_header ty no s) = Server.mkHeader ty no s ∧
  Server.page_size_bytes (Server.encode_header ty no s) = Server.enc32 s.
Proof.
  intros Hty Hno Hs. split; [|done].
  unfold Server.parse_header, Server.encode_header. f_equal.
  - simpl. rewrite to_N_byte_of_N. by apply N.mod_small.
  - change (drop 1 (Server.byte_of_N ty :: Server.enc32 no ++ Server.enc32 s))
      with (Server.enc32 no ++ Server.enc32 s).
    by apply le32_enc32.
  - change (drop 5 (Server.byte_of_N ty :: Server.enc32 no ++ Server.enc32 s))
      with (Server.enc32 s ++ []).
    by apply le32_enc32.
Qed.

(** ** Requests over the LRU pool *)

Lemma length_page_view (st : Pool) (k : nat) :
  good st → length (page_view st k) = pool_page_size_ st.
Proof.
  intros (_ & _ & _ & _ & Hok). unfold page_view.
  destruct (resident st k) as [p|] eqn:Hr.
  - by destruct (Hok _ _ Hr) as (_ & _ & Hlen & _).
  - unfold on_disk. apply length_file_page.
Qed.

Lemma WriteAt_take (p : Page) (off len : nat) (buf : list byte) :
  WriteAt p off (Some (take len buf)) len = WriteAt p off (Some buf) len.
Proof.
  unfold WriteAt. case_decide; [done|]. rewrite take_take.
  by replace ((len `min` (page_size_ p - off)) `min` len)
    with (len `min` (page_size_ p - off)) by lia.
Qed.

(** [write_page] looks at the first [page_size] bytes of the buffer only. *)
Lemma write_page_take (no s : nat) (buf : list byte) (st : Pool) :
  write_page no s (take s buf) st = write_page no s buf st.
Proof.
  unfold write_page, bind.
  destruct (GetPage no s st) as [[[l|] st1]| |]; [|done..].
  destruct (PinGuard_enter l st1) as [[[] st2]| |]; [|done..].
  destruct (deref l st2) as [[p st3]| |]; [|done..].
  by rewrite WriteAt_take.
Qed.

Lemma read_header (c : Server.Conn) (ty : N) (no s : nat) (rest : list byte) :
  IoFailed ∉ Server.events c →
  Server.incoming c = Server.encode_header ty no s ++ rest →
  ∃ c1,
    Server.read_loop c (replicate 9 zero_byte) 9
    = (9%Z, Server.encode_header ty no s, c1) ∧
    Server.incoming c1 = rest ∧ Server.outgoing c1 = Server.outgoing c ∧
    Server.log_ c1 = Server.log_ c ∧ IoFailed ∉ Server.events c1.
Proof.
  intros Hnf Hin. unfold Server.read_loop.
  destruct (read_loop_go_exact c (replicate 9 zero_byte) 0 9 (wrap_int (Z.of_nat 9)) Hnf)
    as (c1 & Heq & Hi & Ho & Hl & Hnf1).
  { lia. }
  { rewrite Hin, length_app, length_encode_header. lia. }
  exists c1. rewrite Heq, Hi, Hin.
  rewrite take_app_length' by done. rewrite drop_app_length' by done.
  done.
Qed.

Lemma serve_get (fuel : nat) (c : Server.Conn) (buffer : list byte) (t_idx : Z)
    (st : Pool) (no : nat) (rest : list byte) :
  good st → IoFailed ∉ Server.events c →
  pool_page_size_ st ≤ length buffer →
  (N.of_nat (pool_page_size_ st) < 2 ^ 32)%N → (N.of_nat no < 2 ^ 32)%N →
  Server.incoming c = Server.encode_header Server.GET no (pool_page_size_ st) ++ rest →
  ∃ c3 buffer1 st',
    Server.serve (S fuel) c buffer t_idx st = Server.serve fuel c3 buffer1 t_idx st' ∧
    good st' ∧ pool_page_size_ st' = pool_page_size_ st ∧
    (∀ k, page_view st' k = page_view st k) ∧
    length buffer1 = length buffer ∧
    Server.incoming c3 = rest ∧
    Server.outgoing c3
    = Server.outgoing c ++ Server.enc32 (pool_page_size_ st) ++ page_view st no ∧
    Server.log_ c3 = Server.log_ c ∧ IoFailed ∉ Server.events c3.
Proof.
  intros Hgood Hnf Hbuf Hs Hno Hin.
  destruct (read_header c Server.GET no (pool_page_size_ st) rest Hnf Hin)
    as (c1 & Hread & Hi1 & Ho1 & Hl1 & Hnf1).
  destruct (parse_header_encode Server.GET no (pool_page_size_ st)) as [Hparse Hbytes];
    [done..|].
  destruct (good_read_page st no buffer Hgood)
    as (out & st' & Hrd & Hgood' & Hview' & Hps' & Hout).
  assert (length out = length buffer) as Hlen.
  { rewrite Hout, length_app, length_drop, length_page_view by done. lia. }
  destruct (write_loop_go_exact c1 (Server.enc32 (pool_page_size_ st)) 0 4
              (wrap_int (Z.of_nat 4)) Hnf1) as (c2 & Hw2 & Ho2 & Hi2 & Hl2 & Hnf2).
  { rewrite length_enc32. lia. }
  destruct (write_loop_go_exact c2 out 0 (pool_page_size_ st)
              (wrap_int (Z.of_nat (pool_page_size_ st))) Hnf2)
    as (c3 & Hw3 & Ho3 & Hi3 & Hl3 & Hnf3).
  { lia. }
  exists c3, out, st'. split.
  - cbn [Server.serve]. rewrite Hread. change (9 <=? 0)%Z with false.
    cbv beta iota zeta.
    rewrite Hparse, Hbytes. cbn [Server.msg_type Server.page_no Server.page_size].
    rewrite decide_False by done. rewrite decide_True by done.
    unfold bind. cbv beta. rewrite Hrd. rewrite decide_True by done.
    unfold Server.write_loop. rewrite Hw2. cbv beta iota zeta.
    rewrite decide_True by lia. by rewrite Hw3.
  - do 4 (split; [done|]). rewrite Hi3, Hi2, Hi1, Ho3, Ho2, Ho1, Hl3, Hl2, Hl1.
    split; [done|]. split; [|done].
    assert (take 4 (drop 0 (Server.enc32 (pool_page_size_ st)))
            = Server.enc32 (pool_page_size_ st)) as -> by done.
    assert (take (pool_page_size_ st) (drop 0 out) = page_view st no) as ->.
    { rewrite drop_0, Hout, take_app_length'; [done|]. by rewrite length_page_view. }
    by rewrite <- app_assoc.
Qed.

Lemma serve_put (fuel : nat) (c : Server.Conn) (buffer : list byte) (t_idx : Z)
    (st : Pool) (no : nat) (payload rest : list byte) :
  good st → IoFailed ∉ Server.events c →
  0 < pool_page_size_ st ≤ length buffer →
  (Z.of_nat (pool_page_size_ st) ≤ int_max)%Z → (N.of_nat no < 2 ^ 32)%N →
  length payload = pool_page_size_ st →
  Server.incoming c
  = Server.encode_header Server.SET no (pool_page_size_ st) ++ payload ++ rest →
  ∃ c3 buffer1 st',
    Server.serve (S fuel) c buffer t_idx st = Server.serve fuel c3 buffer1 t_idx st' ∧
    good st' ∧ pool_page_size_ st' = pool_page_size_ st ∧
    (∀ k, page_view st' k = if decide (k = no) then payload else page_view st k) ∧
    length buffer1 = length buffer ∧
    Server.incoming c3 = rest ∧
    Server.outgoing c3 = Server.outgoing c ++ Server.enc32 (pool_page_size_ st) ∧
    Server.log_ c3 = Server.log_ c ∧ IoFailed ∉ Server.events c3.
Proof.
  intros Hgood Hnf Hbuf Hmax Hno Hpay Hin.
  assert (N.of_nat (pool_page_size_ st) < 2 ^ 32)%N as Hs
    by (unfold int_max in Hmax; lia).
  destruct (read_header c Server.SET no (pool_page_size_ st) (payload ++ rest) Hnf Hin)
    as (c1 & Hread & Hi1 & Ho1 & Hl1 & Hnf1).
  destruct (parse_header_encode Server.SET no (pool_page_size_ st)) as [Hparse Hbytes];
    [done..|].
  destruct (read_loop_go_exact c1 buffer 0 (pool_page_size_ st)
              (wrap_int (Z.of_nat (pool_page_size_ st))) Hnf1)
    as (c2 & Hr2 & Hi2 & Ho2 & Hl2 & Hnf2).
  { lia. }
  { rewrite Hi1, length_app. lia. }
  rewrite Hi1, <- Hpay, take_app_length, drop_app_length in *.
  assert (length (memcpy_into buffer 0 payload) = length buffer) as Hlen
    by (apply length_memcpy_into; lia).
  assert (take (length payload) (memcpy_into buffer 0 payload) = payload) as Htake
    by (unfold memcpy_into; simpl; by rewrite take_app_length).
  rewrite Hpay in *.
  destruct (good_write_page st no payload Hgood)
    as (st' & Hwr & Hgood' & Hother & Hps' & Hthis).
  destruct (write_loop_go_exact c2 (Server.enc32 (pool_page_size_ st)) 0 4
              (wrap_int (Z.of_nat 4)) Hnf2) as (c3 & Hw3 & Ho3 & Hi3 & Hl3 & Hnf3).
  { rewrite length_enc32. lia. }
  exists c3, (memcpy_into buffer 0 payload), st'. split.
  - cbn [Server.serve]. rewrite Hread. change (9 <=? 0)%Z with false.
    cbv beta iota zeta.
    rewrite Hparse, Hbytes. cbn [Server.msg_type Server.page_no Server.page_size].
    rewrite decide_True by done.
    unfold Server.read_loop. rewrite Hr2. cbv beta iota zeta.
    rewrite decide_True by done.
    rewrite wrap_int_id by (unfold int_min; lia).
    destruct (Z.leb_spec (Z.of_nat (pool_page_size_ st)) 0) as [Hle|Hgt]; [lia|].
    unfold bind. cbv beta. rewrite <- write_page_take, <- Hpay at 1.
    rewrite Htake, Hpay, Hwr.
    unfold Server.write_loop. by rewrite Hw3.
  - do 2 (split; [done|]). split.
    + intros k. case_decide as Hk; [subst k; by apply Hthis|by apply Hother].
    + split; [done|]. rewrite Hi3, Ho3, Hl3, Hi2, Ho2, Hl2, Ho1, Hl1.
      do 2 (split; [done|]). split; [|done]. done.
Qed.

Lemma serve_eof (fuel : nat) (c : Server.Conn) (buffer : list byte) (t_idx : Z)
    (st : Pool) :
  IoFailed ∉ Server.events c → Server.incoming c = [] →
  ∃ c1,
    Server.serve (S fuel) c buffer t_idx st = Ok (Some c1, st) ∧
    Server.incoming c1 = [] ∧ Server.outgoing c1 = Server.outgoing c ∧
    Server.log_ c1 = Server.log_ c ++ [Server.LogReadDisconnected].
Proof.
  intros Hnf Hin.
  destruct (read_loop_go_short c (replicate 9 zero_byte) 0 9 (wrap_int (Z.of_nat 9)) Hnf)
    as (c1 & Heq & Hi1 & Ho1 & Hl1 & _); [lia|rewrite Hin; simpl; lia|].
  exists c1. split; [|done].
  cbn [Server.serve]. unfold Server.read_loop. rewrite Heq. done.
Qed.

Lemma serve_requests (reqs : list Server.request) :
  ∀ (fuel : nat) (c : Server.Conn) (buffer : list byte) (t_idx : Z) (st : Pool)
    (view : nat → list byte),
    good st → IoFailed ∉ Server.events c →
    0 < pool_page_size_ st ≤ length buffer →
    (Z.of_nat (pool_page_size_ st) ≤ int_max)%Z →
    Forall (Server.valid_request (pool_page_size_ st)) reqs →
    Server.incoming c = Server.encode_requests (pool_page_size_ st) reqs →
    length reqs < fuel →
    (∀ k, page_view st k = view k) →
    ∃ c' st',
      Server.serve fuel c buffer t_idx st = Ok (Some c', st') ∧
      good st' ∧ pool_page_size_ st' = pool_page_size_ st ∧
      Server.outgoing c'
      = Server.outgoing c ++ Server.replies (pool_page_size_ st) view reqs ∧
      Server.incoming c' = [] ∧
      Server.log_ c' = Server.log_ c ++ [Server.LogReadDisconnected] ∧
      ∀ k, page_view st' k = Server.store_after view reqs k.
Proof.
  induction reqs as [|r reqs IH];
    intros fuel c buffer t_idx st view Hgood Hnf Hbuf Hmax Hvalid Hin Hfuel Hview;
    (destruct fuel as [|fuel]; [simpl in Hfuel; lia|]).
  - destruct (serve_eof fuel c buffer t_idx st Hnf Hin) as (c1 & Heq & Hi & Ho & Hl).
    exists c1, st. rewrite Heq, Ho, Hl. simpl. by rewrite app_nil_r.
  - apply Forall_cons in Hvalid as [Hr Hvalid].
    assert (N.of_nat (pool_page_size_ st) < 2 ^ 32)%N as Hs
      by (unfold int_max in Hmax; lia).
    destruct r as [no|no payload]; simpl in Hr.
    + destruct (serve_get fuel c buffer t_idx st no
                  (Server.encode_requests (pool_page_size_ st) reqs))
        as (c3 & buffer1 & st1 & Heq & Hgood1 & Hps1 & Hview1 & Hlen1 & Hi3 & Ho3 & Hl3 & Hnf3);
        [done|done|lia|done|done|done|].
      destruct (IH fuel c3 buffer1 t_idx st1 view)
        as (c' & st' & Heq' & Hgood' & Hps' & Ho' & Hi' & Hl' & Hview');
        [done|done|rewrite Hps1, Hlen1; lia|by rewrite Hps1|by rewrite Hps1
        |by rewrite Hps1|simpl in Hfuel; lia|intros k; by rewrite Hview1|].
      exists c', st'. rewrite Heq, Heq'. split; [done|]. split; [done|].
      split; [congruence|]. rewrite Ho', Ho3, Hl', Hl3, Hps1, Hview.
      simpl. by rewrite <- !app_assoc.
    + destruct Hr as [Hno Hpay].
      destruct (serve_put fuel c buffer t_idx st no payload
                  (Server.encode_requests (pool_page_size_ st) reqs))
        as (c3 & buffer1 & st1 & Heq & Hgood1 & Hps1 & Hview1 & Hlen1 & Hi3 & Ho3 & Hl3 & Hnf3);
        [done|done|lia|done|done|done| |].
      { rewrite Hin.
        change (Server.encode_requests (pool_page_size_ st)
                  (Server.Put no payload :: reqs))
          with ((Server.encode_header Server.SET no (pool_page_size_ st) ++ payload)
                  ++ Server.encode_requests (pool_page_size_ st) reqs).
        by rewrite <- app_assoc. }
      destruct (IH fuel c3 buffer1 t_idx st1
                  (λ k, if decide (k = no) then payload else view k))
        as (c' & st' & Heq' & Hgood' & Hps' & Ho' & Hi' & Hl' & Hview');
        [done|done|rewrite Hps1, Hlen1; lia|by rewrite Hps1|by rewrite Hps1
        |by rewrite Hps1|simpl in Hfuel; lia| |].
      { intros k. rewrite Hview1. case_decide; [done|apply Hview]. }
      exists c', st'. rewrite Heq, Heq'. split; [done|]. split; [done|].
      split; [congruence|]. rewrite Ho', Ho3, Hl', Hl3, Hps1.
      simpl. by rewrite <- !app_assoc.
Qed.

(** X25.  Over the LRU pool the server is a page store.  Take a pool used
    by this connection alone, with a page size that fits the worker's
    buffer, on a file that does not fail for good, and a connection whose
    calls do not fail for good.  When the client sends GET and SET requests
    for pages of that size and then closes, the worker returns, and what it
    has sent is, request by request, what a store of pages answers: the
    size for a SET, the size and the bytes of the page as last set (or as
    the pool presented it at the start) for a GET.  The pool then presents
    the pages as the store holds them. *)
Theorem server_is_a_page_store (st : Pool) (c : Server.Conn) (buffer : list byte)
    (t_idx : Z) (reqs : list Server.request) (fuel : nat) :
  good st → IoFailed ∉ Server.events c →
  length buffer = Server.buffer_bytes →
  0 < pool_page_size_ st ≤ Server.buffer_bytes →
  Forall (Server.valid_request (pool_page_size_ st)) reqs →
  Server.incoming c = Server.encode_requests (pool_page_size_ st) reqs →
  length reqs < fuel →
  ∃ c' st',
    Server.thread_handler fuel c buffer t_idx st = Ok (Some c', st') ∧
    Server.outgoing c'
    = Server.outgoing c ++ Server.replies (pool_page_size_ st) (page_view st) reqs ∧
    Server.incoming c' = [] ∧
    Server.log_ c'
    = Server.log_ c ++ [Server.LogReadDisconnected; Server.LogThreadExit] ∧
    good st' ∧
    ∀ k, page_view st' k = Server.store_after (page_view st) reqs k.
Proof.
  intros Hgood Hnf Hlen Hs Hvalid Hin Hfuel.
  destruct (serve_requests reqs fuel c buffer t_idx st (page_view st))
    as (c' & st' & Heq & Hgood' & _ & Ho & Hi & Hl & Hview);
    [done|done|lia| |done|done|done|done|].
  { unfold Server.buffer_bytes, int_max in *. lia. }
  exists (Server.log c' Server.LogThreadExit), st'.
  unfold Server.thread_handler, bind. rewrite Heq. simpl.
  rewrite Hl, <- app_assoc. done.
Qed.

Lemma server_is_a_page_store_witness :
  ∃ c' st',
    Server.thread_handler 3
      (Server.mkConn
         (Server.encode_requests 4
            [Server.Put 7 ["a"; "b"; "c"; "d"]%byte; Server.Get 7])
         [] [IoPartial 2; IoInterrupted] [])
      (replicate Server.buffer_bytes "q"%byte) 0
      (mkPool (mkFile [] [IoInterrupted; IoPartial 0]) 1 4 ∅ 0 ∅ [] 0 0 [])
    = Ok (Some c', st') ∧
    Server.outgoing c'
    = Server.enc32 4 ++ Server.enc32 4 ++ ["a"; "b"; "c"; "d"]%byte.
Proof.
  destruct (server_is_a_page_store
              (mkPool (mkFile [] [IoInterrupted; IoPartial 0]) 1 4 ∅ 0 ∅ [] 0 0 [])
              (Server.mkConn
                 (Server.encode_requests 4
                    [Server.Put 7 ["a"; "b"; "c"; "d"]%byte; Server.Get 7])
                 [] [IoPartial 2; IoInterrupted] [])
              (replicate Server.buffer_bytes "q"%byte) 0
              [Server.Put 7 ["a"; "b"; "c"; "d"]%byte; Server.Get 7] 3)
    as (c' & st' & Heq & Ho & _).
  - apply (good_new "db" {[4 := 1]} (mkFile [] [IoInterrupted; IoPartial 0]));
      [reflexivity|]. apply (bool_decide_unpack _). vm_compute. exact I.
  - apply (bool_decide_unpack _). vm_compute. exact I.
  - apply length_replicate.
  - unfold Server.buffer_bytes. simpl pool_page_size_. lia.
  - constructor; [split; [reflexivity|reflexivity]|].
    constructor; [reflexivity|]. constructor.
  - reflexivity.
  - simpl. lia.
  - exists c', st'. split; [exact Heq|]. rewrite Ho. reflexivity.
Defined.

(** X26.  A SET of no bytes is dropped without an answer: when the header
    of a SET says [page_size = 0], [read_loop] for the payload returns 0,
    which the worker takes for a failure: it calls neither [write_page] nor
    [write_loop] and goes on to the next request, with the pool and the
    bytes sent as they were. *)
Theorem empty_set_is_not_answered (fuel : nat) (c : Server.Conn) (buffer : list byte)
    (t_idx : Z) (st : Pool) (no : nat) (rest : list byte) :
  IoFailed ∉ Server.events c → (N.of_nat no < 2 ^ 32)%N →
  Server.incoming c = Server.encode_header Server.SET no 0 ++ rest →
  ∃ c1,
    Server.serve (S fuel) c buffer t_idx st = Server.serve fuel c1 buffer t_idx st ∧
    Server.incoming c1 = rest ∧ Server.outgoing c1 = Server.outgoing c ∧
    Server.log_ c1 = Server.log_ c.
Proof.
  intros Hnf Hno Hin.
  destruct (read_header c Server.SET no 0 rest Hnf Hin)
    as (c1 & Hread & Hi1 & Ho1 & Hl1 & Hnf1).
  destruct (parse_header_encode Server.SET no 0) as [Hparse Hbytes]; [done..|].
  exists c1. split; [|done].
  cbn [Server.serve]. rewrite Hread. change (9 <=? 0)%Z with false.
  cbv beta iota zeta.
  rewrite Hparse. cbn [Server.msg_type Server.page_no Server.page_size].
  rewrite decide_True by done.
  unfold Server.read_loop. simp read_loop_go. simpl.
  by rewrite decide_True by done.
Qed.

Lemma empty_set_is_not_answered_witness :
  ∃ c1,
    Server.serve 2
      (Server.mkConn (Server.encode_header Server.SET 7 0 ++ []) [] [IoPartial 3] [])
      ["q"; "q"]%byte 0 (mkPool (mkFile [] []) 1 4 ∅ 0 ∅ [] 0 0 [])
    = Server.serve 1 c1 ["q"; "q"]%byte 0 (mkPool (mkFile [] []) 1 4 ∅ 0 ∅ [] 0 0 []) ∧
    Server.incoming c1 = [] ∧ Server.outgoing c1 = [].
Proof.
  destruct (empty_set_is_not_answered 1
              (Server.mkConn (Server.encode_header Server.SET 7 0 ++ []) []
                 [IoPartial 3] [])
              ["q"; "q"]%byte 0 (mkPool (mkFile [] []) 1 4 ∅ 0 ∅ [] 0 0 []) 7 [])
    as (c1 & Heq & Hi & Ho & _).
  - apply (bool_decide_unpack _). vm_compute. exact I.
  - reflexivity.
  - reflexivity.
  - exists c1. split; [exact Heq|]. split; [exact Hi|exact Ho].
Defined.

(** X27.  A GET for more bytes than the worker's buffer holds runs over
    the buffer: on a consistent pool, when the header of a GET names a
    [page_size] above the length of the buffer, serving it is undefined
    behaviour, whatever the pool holds: either [ReadAt] copies past the
    end of the buffer or [write_loop] reads past it. *)
Theorem oversized_get_overruns_buffer (fuel : nat) (c : Server.Conn)
    (buffer : list byte) (t_idx : Z) (st : Pool) (no s : nat) (rest : list byte) :
  wf st → IoFailed ∉ Server.events c →
  (N.of_nat no < 2 ^ 32)%N → (N.of_nat s < 2 ^ 32)%N →
  Server.incoming c = Server.encode_header Server.GET no s ++ rest →
  length buffer < s →
  Server.serve (S fuel) c buffer t_idx st = Undefined.
Proof.
  intros Hwf Hnf Hno Hs Hin Hlen.
  destruct (read_header c Server.GET no s rest Hnf Hin)
    as (c1 & Hread & Hi1 & Ho1 & Hl1 & Hnf1).
  destruct (parse_header_encode Server.GET no s) as [Hparse Hbytes]; [done..|].
  destruct (run_op_wf st (OpRead no s buffer) Hwf) as (out & st' & Hrd & _).
  simpl in Hrd.
  cbn [Server.serve]. rewrite Hread. change (9 <=? 0)%Z with false.
  cbv beta iota zeta.
  rewrite Hparse, Hbytes. cbn [Server.msg_type Server.page_no Server.page_size].
  rewrite decide_False by done. rewrite decide_True by done.
  unfold bind. cbv beta. rewrite Hrd.
  destruct (decide (length out = length buffer)) as [Heq|Hne]; [|done].
  destruct (Server.write_loop c1 (Server.enc32 s) 4) as [r2 c2].
  by rewrite decide_False by lia.
Qed.

Lemma oversized_get_overruns_buffer_witness :
  Server.serve 1
    (Server.mkConn (Server.encode_header Server.GET 7 4 ++ []) [] [] [])
    ["q"; "q"]%byte 0 (mkPool (mkFile [] []) 1 4 ∅ 0 ∅ [] 0 0 [])
  = Undefined.
Proof.
  apply (oversized_get_overruns_buffer 0
           (Server.mkConn (Server.encode_header Server.GET 7 4 ++ []) [] [] [])
           ["q"; "q"]%byte 0 (mkPool (mkFile [] []) 1 4 ∅ 0 ∅ [] 0 0 []) 7 4 []).
  - apply (bool_decide_unpack _). vm_compute. exact I.
  - apply (bool_decide_unpack _). vm_compute. exact I.
  - reflexivity.
  - reflexivity.
  - reflexivity.
  - simpl. lia.
Defined.

(** * The configuration built by [main] *)

Lemma main_loop_keys (argc : nat) (count : nat → Z) (sizes : list nat) :
  ∀ (i : nat) (m : gmap nat nat) (k : nat),
    is_Some (main_loop argc count i sizes m !! k) → is_Some (m !! k) ∨ k ∈ sizes.
Proof.
  induction sizes as [|s sizes IH]; intros i m k Hk; simpl in Hk; [by left|].
  case_decide; [|by left].
  destruct (IH _ _ _ Hk) as [Hm|Hin]; [|right; by right].
  unfold map_insert_new in Hm. destruct (m !! s) eqn:Hs; [by left|].
  destruct (decide (k = s)) as [->|Hne]; [right; by left|].
  rewrite lookup_insert_ne in Hm by done. by left.
Qed.

Lemma main_loop_keeps (argc : nat) (count : nat → Z) (sizes : list nat) :
  ∀ (i : nat) (m : gmap nat nat) (k v : nat),
    m !! k = Some v → main_loop argc count i sizes m !! k = Some v.
Proof.
  induction sizes as [|s sizes IH]; intros i m k v Hk; simpl; [done|].
  case_decide; [|done]. apply IH.
  unfold map_insert_new. destruct (m !! s) eqn:Hs; [done|].
  rewrite lookup_insert_ne; [done|]. intros ->. congruence.
Qed.

Lemma main_loop_cons (argc : nat) (count : nat → Z) (i s : nat) (rest : list nat)
    (m : gmap nat nat) :
  main_loop argc count i (s :: rest) m
  = if decide (i + 3 < argc)
    then main_loop argc count (S i) rest (map_insert_new s (size_t_of_int (count i)) m)
    else m.
Proof. done. Qed.

(** X28.  Whatever page counts are given on the command line, the LRU
    pool that [main] builds works with pages of 8192 bytes: with at least
    two counts ([argc >= 5]) the map [main] fills has 8192 as its least
    key, so the constructor takes 8192 as the page size and the count given
    for 8 KiB pages, cast to [size_t], as the capacity; the counts for the
    other sizes do not reach the pool. *)
Theorem main_runs_pool_with_8k_pages (argc : nat) (count : nat → Z)
    (datafile : string) (f : File) :
  5 ≤ argc →
  ∃ st0,
    LRUBufferPool_new datafile (main_page_no_info argc count) (Some f) = Ok st0 ∧
    pool_page_size_ st0 = 8 * 1024 ∧
    capacity_ st0 = size_t_of_int (count 0).
Proof.
  intros Hargc.
  assert (main_page_no_info argc count !! (8 * 1024) = Some (size_t_of_int (count 0)))
    as Hfirst.
  { unfold main_page_no_info, page_sizes. rewrite main_loop_cons.
    rewrite decide_True by lia. apply main_loop_keeps.
    unfold map_insert_new. rewrite lookup_empty. apply lookup_insert_eq. }
  assert (∀ k, is_Some (main_page_no_info argc count !! k) → 8 * 1024 ≤ k) as Hmin.
  { intros k Hk. apply main_loop_keys in Hk as [Hk|Hk].
    - rewrite lookup_empty in Hk. by destruct Hk.
    - unfold page_sizes in Hk.
      repeat (apply elem_of_cons in Hk as [->|Hk]); [lia..|].
      by apply elem_of_nil in Hk. }
  unfold LRUBufferPool_new.
  pose proof (map_begin_spec (main_page_no_info argc count)) as Hb.
  destruct (map_begin (main_page_no_info argc count)) as [[s c]|].
  - destruct Hb as [Hs Hleast]. eexists. split; [done|]. simpl.
    assert (s = 8 * 1024) as ->.
    { apply Nat.le_antisymm; [apply Hleast; by eexists|apply Hmin; by eexists]. }
    split; [done|]. congruence.
  - rewrite Hb, lookup_empty in Hfirst. discriminate.
Qed.

Lemma main_runs_pool_with_8k_pages_witness :
  ∃ st0,
    LRUBufferPool_new "db" (main_page_no_info 6 (λ i, Z.of_nat i + 10)%Z)
      (Some (mkFile [] [])) = Ok st0 ∧
    pool_page_size_ st0 = 8 * 1024 ∧
    capacity_ st0 = size_t_of_int 10.
Proof.
  apply (main_runs_pool_with_8k_pages 6 (λ i, Z.of_nat i + 10)%Z "db" (mkFile [] [])).
  lia.
Defined.

(** * The worker's loop ends *)

Lemma read_loop_go_consumes (c : Server.Conn) (buf : list byte) (at_ count : nat)
    (ret : Z) :
  ∀ r buf' c',
    Server.read_loop_go c buf at_ count ret = (r, buf', c') →
    (r = ret ∧ length (Server.incoming c') + count = length (Server.incoming c)) ∨
    ((r = 0%Z ∨ r = (-1)%Z) ∧
     length (Server.incoming c') ≤ length (Server.incoming c)).
Proof.
  funelim (Server.read_loop_go c buf at_ count ret); intros r0 buf0 c0 Hres;
    try match goal with
        | Hp : Server.sock_read _ _ = _ |- _ =>
            let Ho := fresh "Ho" in let Hl := fresh "Hl" in let Hf := fresh "Hf" in
            let He := fresh "He" in let Hb := fresh "Hb" in
            pose proof (sock_read_inv _ _ _ _ Hp) as (Ho & Hl & Hf & He & Hb)
        end.
  - simplify_eq. left. split; [done|lia].
  - specialize (He _ eq_refl). rewrite <- He. apply (H _ _ _ Hres).
  - specialize (He _ eq_refl). simplify_eq. right. simpl. rewrite He.
    split; [by right|lia].
  - destruct (Hb _ eq_refl) as (m & Hbs & Hin & Hm & Hpos).
    simplify_eq. right. simpl. split; [by left|]. rewrite Hin, length_drop. lia.
  - destruct (Hb _ eq_refl) as (m & Hbs & Hin & Hm & Hpos).
    assert (length bs = m `min` length (Server.incoming c)) as Hlen
      by (by rewrite Hbs, length_take).
    destruct (H _ _ _ Hres) as [[-> Hc]|[Hr Hc]];
      rewrite Hin, length_drop in Hc; [left|right]; split; try done; lia.
Qed.

Lemma write_loop_go_incoming (c : Server.Conn) (buf : list byte) (at_ count : nat)
    (ret : Z) :
  ∀ r c',
    Server.write_loop_go c buf at_ count ret = (r, c') →
    Server.incoming c' = Server.incoming c.
Proof.
  funelim (Server.write_loop_go c buf at_ count ret); intros r0 c0 Hres;
    try match goal with
        | Hp : Server.sock_write _ _ _ = _ |- _ =>
            let Hi := fresh "Hi" in
            pose proof (sock_write_inv _ _ _ _ _ Hp) as (Hi & _)
        end.
  - by simplify_eq.
  - rewrite <- Hi. by eapply H.
  - by simplify_eq.
  - by simplify_eq.
  - rewrite <- Hi. by eapply H.
Qed.

(** X29.  The worker's loop ends when the peer stops sending: each round
    that does not end the loop takes the nine bytes of a header from the
    stream, so with more rounds allowed than the stream has bytes,
    [thread_handler] never stops for lack of rounds, whatever the bytes
    received, the faults on the connection and the state of the pool: it
    returns, or ends in an exception or in undefined behaviour. *)
Theorem worker_loop_ends (fuel : nat) (c : Server.Conn) (buffer : list byte)
    (t_idx : Z) (st : Pool) :
  length (Server.incoming c) < fuel →
  (∃ c' st', Server.thread_handler fuel c buffer t_idx st = Ok (Some c', st')) ∨
  (∃ w, Server.thread_handler fuel c buffer t_idx st = Throw w) ∨
  Server.thread_handler fuel c buffer t_idx st = Undefined.
Proof.
  intros Hfuel.
  assert (∀ st', Server.serve fuel c buffer t_idx st ≠ Ok (None, st')) as Hserve.
  { intros st'. revert c buffer st Hfuel.
    induction fuel as [|fuel IH]; intros c buffer st Hfuel; [lia|].
    cbn [Server.serve].
    destruct (Server.read_loop c (replicate 9 zero_byte) 9) as [[rr raw] c1] eqn:Hread.
    destruct (read_loop_go_consumes _ _ _ _ _ _ _ _ Hread) as [[-> Hc1]|[Hrr Hc1]].
    - change (wrap_int (Z.of_nat 9) <=? 0)%Z with false. cbv beta iota.
      case_decide.
      + destruct (Server.read_loop c1 buffer _) as [[r2 buffer1] c2] eqn:Hread2.
        assert (length (Server.incoming c2) ≤ length (Server.incoming c1)) as Hc2
          by (destruct (read_loop_go_consumes _ _ _ _ _ _ _ _ Hread2)
                as [[_ ?]|[_ ?]]; lia).
        case_decide; [|done].
        destruct (r2 <=? 0)%Z; [apply IH; lia|].
        unfold bind. destruct (write_page _ _ _ st) as [[[] st1]| |]; [|done..].
        destruct (Server.write_loop c2 _ 4) as [r3 c3] eqn:Hw3.
        apply write_loop_go_incoming in Hw3. apply IH. rewrite Hw3. lia.
      + case_decide; [|apply IH; simpl; lia].
        unfold bind. destruct (read_page _ _ _ st) as [[buffer1 st1]| |]; [|done..].
        case_decide; [|done].
        destruct (Server.write_loop c1 _ 4) as [r2 c2] eqn:Hw2.
        apply write_loop_go_incoming in Hw2.
        case_decide; [|done].
        destruct (Server.write_loop c2 buffer1 _) as [r3 c3] eqn:Hw3.
        apply write_loop_go_incoming in Hw3. apply IH. rewrite Hw3, Hw2. lia.
    - by destruct Hrr as [-> | ->]. }
  unfold Server.thread_handler, bind.
  destruct (Server.serve fuel c buffer t_idx st) as [[[c'|] st1]|w|].
  - left. by eexists _, _.
  - by destruct (Hserve st1).
  - right. left. by exists w.
  - right. by right.
Qed.

Lemma worker_loop_ends_witness :
  (∃ c' st',
     Server.thread_handler 4
       (Server.mkConn ["001"; "x"; "y"]%byte [] [IoInterrupted; IoFailed] [])
       ["q"; "q"]%byte 0 (mkPool (mkFile [] []) 1 4 ∅ 0 ∅ [] 0 0 [])
     = Ok (Some c', st')) ∨
  (∃ w,
     Server.thread_handler 4
       (Server.mkConn ["001"; "x"; "y"]%byte [] [IoInterrupted; IoFailed] [])
       ["q"; "q"]%byte 0 (mkPool (mkFile [] []) 1 4 ∅ 0 ∅ [] 0 0 [])
     = Throw w) ∨
  Server.thread_handler 4
    (Server.mkConn ["001"; "x"; "y"]%byte [] [IoInterrupted; IoFailed] [])
    ["q"; "q"]%byte 0 (mkPool (mkFile [] []) 1 4 ∅ 0 ∅ [] 0 0 [])
  = Undefined.
Proof.
  apply (worker_loop_ends 4
           (Server.mkConn ["001"; "x"; "y"]%byte [] [IoInterrupted; IoFailed] [])
           ["q"; "q"]%byte 0 (mkPool (mkFile [] []) 1 4 ∅ 0 ∅ [] 0 0 [])).
  simpl. lia.
Defined.
